(** * reco_utils/dataset/rbm_splitters.py: the [splitter] class

    A shallow embedding of the [splitter] class (index generation, affinity
    matrix, inverse mapping, stratified split) and the proofs of its
    specification.

    Modelling choices, all read off the source:
    - a pandas DataFrame is the list of its rows; the timestamp column is
      never read by the class and is left out;
    - a Python [dict] is a [gmap]; [Series.map(dict)] yields NaN for a key
      that is missing, modelled as [None];
    - a NumPy 2-D array is an object in a store ([heap]), addressed by its
      position there, so that [copy()] and in-place assignment are visible;
      its content is the list of its rows;
    - the rating column has dtype int64, also when the table is empty:
      a rating is an integer of the int64 range, and the sums that
      [coo_matrix(...).toarray()] makes of the ratings are int64 sums, which
      wrap around; the counts of rated items and the per-user test counts
      are kept exact: for a test percentage between 0 and 100 the int64
      product [rated * test_cut] cannot wrap;
    - a Python [float] is an IEEE-754 binary64 number, with the operations
      of the standard library's [SpecFloat];
    - the method bodies run in a state-and-exception monad over [world]:
      the object's attributes, the array store, NumPy's global generator,
      the generator of the [random] module and what was printed;
    - the object is built as [splitter(DF)], with the default
      [save_model=False]: the branch of [gen_index] that writes the four
      dictionaries with [np.save] is not taken; [log.info] changes none of
      the above and is left out. *)

From stdpp Require Import gmap strings list fin_maps sorting.
From Stdlib Require Import ZArith Floats Lia QArith Qround Qpower Qabs.

Close Scope Q_scope.

(** ** Python exceptions and results *)

Inductive exn : Type :=
  | ValueError (msg : string)
  | OverflowError (msg : string)
  | IndexError (msg : string)
  | UnboundLocalError (name : string)
  | AttributeError (name : string)
  | AssertionError.

Inductive result (A : Type) : Type :=
  | Ok (a : A)
  | Raise (e : exn).
Arguments Ok {A} a.
Arguments Raise {A} e.

Definition is_ok {A} (r : result A) : Prop :=
  match r with Ok _ => True | Raise _ => False end.

(** ** Python floats (binary64) *)

(** [float(z)] for a Python [int]. *)
Definition float_of_int (z : Z) : spec_float :=
  binary_normalize prec emax z 0 false.

(** [int(x)] for a float: truncation towards zero; NaN and the infinities
    raise. *)
Definition py_int (x : spec_float) : result Z :=
  match x with
  | S754_nan => Raise (ValueError "cannot convert float NaN to integer")
  | S754_infinity _ =>
      Raise (OverflowError "cannot convert float infinity to integer")
  | S754_zero _ => Ok 0%Z
  | S754_finite s m e => Ok (cond_Zopp s (Z.shiftl (Z.pos m) e))
  end.

(** The exact rational value of a finite double. *)
Definition SF2Q (x : spec_float) : Q :=
  match x with
  | S754_finite s m e => (inject_Z (cond_Zopp s (Z.pos m)) * Qpower 2 e)%Q
  | _ => 0%Q
  end.

(** A double [r] with [0 < r < 1]. *)
Definition is_ratio (r : spec_float) : Prop :=
  valid_binary r = true ∧
  SFltb (float_of_int 0) r = true ∧ SFltb r (float_of_int 1) = true.

(** [(1 - ratio) * 100], as a double. *)
Definition test_percent (ratio : spec_float) : spec_float :=
  SF64mul (SF64sub (float_of_int 1) ratio) (float_of_int 100).

(** A double that is [+0] or a positive finite number of value at most the
    integer [B]. *)
Definition le_int (x : spec_float) (B : Z) : Prop :=
  match x with
  | S754_zero false => True
  | S754_finite false m e => (e ≤ 0 ∧ Z.pos m ≤ B * 2 ^ (- e))%Z
  | _ => False
  end.

(** After [k] one-bit right shifts of an exact record the mantissa is the
    quotient by [2^k], and no flag is set when the shifted-out bits were all
    zero. *)
Definition shr_inv (m0 : Z) (k : Z) (mrs : shr_record) : Prop :=
  (shr_m mrs = m0 / 2 ^ k)%Z ∧
  ((m0 mod 2 ^ k)%Z = 0%Z → shr_r mrs = false ∧ shr_s mrs = false).

(** ** NumPy's int64 *)

(** The value of the 64-bit two's-complement pattern of [z]: what an int64
    operation whose exact result is [z] stores. *)
Definition int64 (z : Z) : Z := ((z + 2 ^ 63) `mod` 2 ^ 64 - 2 ^ 63)%Z.

(** [z] is a value of the type int64. *)
Definition is_int64 (z : Z) : bool :=
  bool_decide (- 2 ^ 63 ≤ z < 2 ^ 63)%Z.

(** ** pandas, NumPy and SciPy operations on values *)

(** [Series.unique()]: the distinct values in order of first appearance. *)
Fixpoint unique {A} `{EqDecision A} (l : list A) : list A :=
  match l with
  | [] => []
  | x :: l' => x :: filter (λ y, y ≠ x) (unique l')
  end.

(** [enumerate(xs)]. *)
Definition enumerate {A} (l : list A) : list (nat * A) :=
  imap (λ i x, (i, x)) l.

(** A dict comprehension over key/value pairs: later pairs overwrite. *)
Definition dict_of {K V} `{Countable K} (kvs : list (K * V)) : gmap K V :=
  foldl (λ d kv, <[kv.1 := kv.2]> d) ∅ kvs.

(** [np.sum(row != 0)]. *)
Definition count_nonzero (row : list Z) : nat :=
  length (filter (λ x, x ≠ 0%Z) row).

(** [np.where(row != 0)], flattened: the ascending column indices of the
    non-zero cells. *)
Definition nonzero (row : list Z) : list nat :=
  filter (λ i, row !! i ≠ Some 0%Z) (seq 0 (length row)).

(** [row[cols] = 0]; the column indices always come from [nonzero] of a row
    of the same width, so none is out of range. *)
Definition zero_cells (cols : list nat) (row : list Z) : list Z :=
  foldl (λ r j, <[j := 0%Z]> r) row cols.

(** [row[cols]]. *)
Definition take_cells (cols : list nat) (row : list Z) : list Z :=
  omap (λ j, row !! j) cols.

Definition zeros (m n : nat) : list (list Z) := replicate m (replicate n 0%Z).

(** One coordinate entry added into a dense matrix: [B[u, i] += e], an
    int64 addition. *)
Definition add_entry (M : list (list Z)) (e : nat * nat * Z) : list (list Z) :=
  alter (alter (λ x, int64 (x + e.2)) e.1.2) e.1.1 M.

Definition zip3 {A B C} (a : list A) (b : list B) (c : list C)
  : list (A * B * C) := zip (zip a b) c.

(** The index columns handed to [coo_matrix]: a NaN (a key the dict did not
    have) is not an index. *)
Fixpoint coo_entries (es : list (option nat * option nat * Z))
  : option (list (nat * nat * Z)) :=
  match es with
  | [] => Some []
  | (Some u, Some i, r) :: es' =>
      match coo_entries es' with
      | Some l => Some ((u, i, r) :: l)
      | None => None
      end
  | _ => None
  end.

(** [coo_matrix((data, (row, col)), shape=shape).toarray()]: the constructor
    checks the index ranges, [toarray] adds up the entries cell by cell, in
    the dtype of [data]. *)
Definition coo_matrix_toarray (data : list Z) (row col : list (option nat))
    (shape : nat * nat) : result (list (list Z)) :=
  if negb (bool_decide (length row = length data ∧ length col = length data))
  then Raise (ValueError "row, column, and data array must all be the same length")
  else
    match coo_entries (zip3 row col data) with
    | None => Raise (ValueError "negative row index found")
    | Some es =>
        if negb (forallb (λ e, bool_decide (e.1.1 < shape.1)%nat) es)
        then Raise (ValueError "row index exceeds matrix dimensions")
        else if negb (forallb (λ e, bool_decide (e.1.2 < shape.2)%nat) es)
        then Raise (ValueError "column index exceeds matrix dimensions")
        else Ok (foldl add_entry (zeros shape.1 shape.2) es)
    end.

(** [M[u, i]]. *)
Definition cell (M : list (list Z)) (u i : nat) : option Z :=
  M !! u ≫= (.!! i).

Definition Zsum (l : list Z) : Z := foldr Z.add 0%Z l.

(** The sum of the data of the coordinate entries that fall on cell
    [(u, i)]. *)
Definition key_sum (es : list (nat * nat * Z)) (u i : nat) : Z :=
  Zsum (snd <$> filter (λ e, e.1 = (u, i)) es).

(** The same sum, read off the three columns given to [coo_matrix]. *)
Definition coo_sum (data : list Z) (row col : list (option nat)) (u i : nat) : Z :=
  Zsum (snd <$> filter (λ t, t.1 = (Some u, Some i)) (zip3 row col data)).

(** The non-zero cells of row [u], as (row, column, value) triples. *)
Definition row_block (u : nat) (row : list Z) : list (nat * nat * Z) :=
  (λ i, (u, i, default 0%Z (row !! i))) <$> nonzero row.

(** The set of the columns of the non-zero cells of a row. *)
Definition nonzero_set (row : list Z) : gset nat := list_to_set (nonzero row).

(** [fw] and [bw] are a bijection between the distinct identifiers of [ids]
    and the range [0 .. n-1]. *)
Definition index_bijection {A} `{Countable A} (ids : list A)
    (fw : gmap A nat) (bw : gmap nat A) (n : nat) : Prop :=
  (∀ x, x ∈ ids → ∃ i, fw !! x = Some i ∧ bw !! i = Some x) ∧
  (∀ i, i < n ↔ ∃ x, fw !! x = Some i) ∧
  (∀ x y i, fw !! x = Some i → fw !! y = Some i → x = y) ∧
  (∀ x i, fw !! x = Some i ↔ bw !! i = Some x) ∧
  n = size (list_to_set ids : gset A) ∧
  dom fw = list_to_set ids.

(** [list.remove(x)]: drops the first occurrence. *)
Fixpoint list_remove (x : nat) (l : list nat) : result (list nat) :=
  match l with
  | [] => Raise (ValueError "list.remove(x): x not in list")
  | y :: l' =>
      if decide (y = x) then Ok l'
      else match list_remove x l' with
           | Ok r => Ok (y :: r)
           | Raise e => Raise e
           end
  end.

(** ** The generator of the [random] module *)

(** Only its interface matters: a hidden state and [_randbelow(n)], which
    returns an integer below [n] and advances the state. *)
Class PyRandom : Type := {
  rng : Type;
  randbelow : rng → nat → nat * rng;
  randbelow_lt : ∀ g n, (0 < n)%nat → ((randbelow g n).1 < n)%nat
}.

(** ** Rows of the input table *)

(** A row of the DataFrame; the rating column has dtype int64. *)
Record Row (User Item : Type) : Type :=
  { user : User; item : Item; rating : Z;
    rating_int64 : Is_true (is_int64 rating) }.
Arguments user {User Item} _.
Arguments item {User Item} _.
Arguments rating {User Item} _.
Arguments rating_int64 {User Item} _.

(** [DataFrame.sort_values(by=[col_user])]: pandas leaves the order of rows
    with equal keys open (its default sort is not stable), and nothing below
    depends on more than the result being a rearrangement of the rows. *)
Class SortValues (User Item : Type) : Type := {
  sort_values : list (Row User Item) → list (Row User Item);
  sort_values_perm : ∀ l, sort_values l ≡ₚ l
}.

(** ** The object, the world and the monad *)

Section Splitter.
Context {User Item : Type} `{Countable User} `{Countable Item}.
Context {Rnd : PyRandom} {Srt : SortValues User Item}.

(** The attributes of a [splitter] object; [None] is an attribute that has
    not been assigned yet.  [AM] holds a reference to an array. *)
Record splitter : Type := Splitter {
  df : list (Row User Item);
  df_ : option (list (Row User Item));
  Nusers : option nat;
  Nitems : option nat;
  map_users : option (gmap User nat);
  map_items : option (gmap Item nat);
  map_back_users : option (gmap nat User);
  map_back_items : option (gmap nat Item);
  AM : option nat
}.

(** A row of the table returned by [map_back_sparse]; [None] is NaN. *)
Definition out_row : Type := option User * option Item * Z.

Record world : Type := World {
  self : splitter;
  heap : list (list (list Z));
  np_random : option Z;
  py_random : rng;
  stdout : list (nat * (nat * nat))
}.

Definition M (A : Type) : Type := world → result A * world.

#[export] Instance M_ret : MRet M := λ A a w, (Ok a, w).
#[export] Instance M_bind : MBind M := λ A B f m w,
  match m w with
  | (Ok a, w') => f a w'
  | (Raise e, w') => (Raise e, w')
  end.

Definition raise {A} (e : exn) : M A := λ w, (Raise e, w).
Definition lift {A} (r : result A) : M A := λ w, (r, w).
Definition get_self : M splitter := λ w, (Ok (self w), w).
Definition set_self (s : splitter) : M unit := λ w,
  (Ok tt, World s (heap w) (np_random w) (py_random w) (stdout w)).

(** Reading an attribute that was never assigned. *)
Definition attr {A} (name : string) (o : option A) : M A :=
  match o with
  | Some a => mret a
  | None => raise (AttributeError name)
  end.

Definition py_assert (b : bool) : M unit :=
  if b then mret tt else raise AssertionError.

(** A new array object. *)
Definition np_alloc (a : list (list Z)) : M nat := λ w,
  (Ok (length (heap w)),
   World (self w) (heap w ++ [a]) (np_random w) (py_random w) (stdout w)).

(** The content of an array object. *)
Definition np_read (X : nat) : M (list (list Z)) := λ w,
  (Ok (default [] (heap w !! X)), w).

(** [X.copy()]. *)
Definition np_copy (X : nat) : M nat := a ← np_read X; np_alloc a.

(** [X[u, :]]. *)
Definition np_row (X u : nat) : M (list Z) :=
  a ← np_read X;
  match a !! u with
  | Some r => mret r
  | None => raise (IndexError "index is out of bounds for axis 0")
  end.

(** An in-place update of the array object [X]. *)
Definition np_update (X : nat) (f : list (list Z) → list (list Z)) : M unit :=
  λ w, (Ok tt, World (self w) (alter f X (heap w))
                     (np_random w) (py_random w) (stdout w)).

(** [X[u, cols] = 0], in place. *)
Definition np_zero_cells (X u : nat) (cols : list nat) : M unit :=
  _ ← np_row X u;
  np_update X (alter (zero_cells cols) u).

(** [v[u]] for a 1-D array. *)
Definition np_item {A} (v : list A) (u : nat) : M A :=
  match v !! u with
  | Some x => mret x
  | None => raise (IndexError "index is out of bounds for axis 0")
  end.

(** [np.random.seed(seed)]. *)
Definition np_random_seed (seed : Z) : M unit := λ w,
  if bool_decide (0 ≤ seed < 2 ^ 32)%Z
  then (Ok tt, World (self w) (heap w) (Some seed) (py_random w) (stdout w))
  else (Raise (ValueError "Seed must be between 0 and 2**32 - 1"), w).

(** [random.choice(seq)]. *)
Definition random_choice (l : list nat) : M nat := λ w,
  match l with
  | [] => (Raise (IndexError "Cannot choose from an empty sequence"), w)
  | x :: _ =>
      let '(k, g) := randbelow (py_random w) (length l) in
      (Ok (default x (l !! k)),
       World (self w) (heap w) (np_random w) g (stdout w))
  end.

(** The line [print('Matrix generated, sparsness: %d' % sparsness, ...)]:
    [sparsness = zero/total*100] is NaN when [total] is 0, and [%d] of a
    NaN raises; otherwise the quotient is a finite double and the line is
    printed. *)
Definition print_sparsness (zero : nat) (shape : nat * nat) : M unit := λ w,
  if bool_decide (shape.1 * shape.2 = 0)%nat
  then (Raise (ValueError "cannot convert float NaN to integer"), w)
  else (Ok tt, World (self w) (heap w) (np_random w) (py_random w)
                     (stdout w ++ [(zero, shape)])).

(** [for x in l: s = body(x, s)]. *)
Fixpoint for_each {A S} (l : list A) (body : A → S → M S) (s : S) : M S :=
  match l with
  | [] => mret s
  | x :: l' => s' ← body x s; for_each l' body s'
  end.

(** ** [gen_index] *)

(** The attributes as [gen_index] assigns them. *)
Definition indexed (s : splitter) : splitter :=
  let sorted := sort_values (df s) in
  let unique_users := unique (user <$> sorted) in
  let unique_items := unique (item <$> sorted) in
  {| df := df s;
     df_ := Some sorted;
     Nusers := Some (length unique_users);
     Nitems := Some (length unique_items);
     map_users := Some (dict_of ((λ ix, (ix.2, ix.1)) <$> enumerate unique_users));
     map_items := Some (dict_of ((λ ix, (ix.2, ix.1)) <$> enumerate unique_items));
     map_back_users := Some (dict_of (enumerate unique_users));
     map_back_items := Some (dict_of (enumerate unique_items));
     AM := AM s |}.

Definition gen_index : M unit :=
  s ← get_self;
  set_self (indexed s).

(** ** [gen_affinity_matrix] *)

(** [self.AM = a]. *)
Definition with_AM (s : splitter) (a : nat) : splitter :=
  {| df := df s; df_ := df_ s; Nusers := Nusers s; Nitems := Nitems s;
     map_users := map_users s; map_items := map_items s;
     map_back_users := map_back_users s;
     map_back_items := map_back_items s; AM := Some a |}.

Definition set_AM (a : nat) : M unit :=
  s ← get_self;
  set_self (with_AM s a).

Definition gen_affinity_matrix : M unit :=
  s ← get_self;
  rows ← attr "df_" (df_ s);
  mi ← attr "map_items" (map_items s);
  mu ← attr "map_users" (map_users s);
  let hashedItems := (λ r, mi !! item r) <$> rows in
  let hashedUsers := (λ r, mu !! user r) <$> rows in
  let r_ := rating <$> rows in
  let itm_id := hashedItems in
  let usr_id := hashedUsers in
  py_assert (bool_decide (length usr_id = length r_)
             && bool_decide (length itm_id = length r_));;
  nu ← attr "Nusers" (Nusers s);
  ni ← attr "Nitems" (Nitems s);
  a ← lift (coo_matrix_toarray r_ usr_id itm_id (nu, ni));
  am ← np_alloc a;
  set_AM am;;
  let zero := sum_list ((λ r, length r - count_nonzero r)%nat <$> a) in
  print_sparsness zero (nu, ni).

(** ** [map_back_sparse] *)

(** Step 1 of [map_back_sparse]: the table of the non-zero cells, with
    matrix indices. *)
Definition sparse_rows (x : list (list Z)) : list (nat * nat * Z) :=
  let m := length x in
  let items := (λ r, nonzero r) <$> x in
  let ratings := (λ r, take_cells (nonzero r) r) <$> x in
  let userids := mjoin (imap (λ i its, replicate (length its) i) items) in
  let items := mjoin items in
  let ratings := mjoin ratings in
  zip3 userids items ratings.

(** Step 2: [Series.map] with the backward dictionaries. *)
Definition map_ids (mbu : gmap nat User) (mbi : gmap nat Item)
    (out_df : list (nat * nat * Z)) : list out_row :=
  (λ t, (mbu !! t.1.1, mbi !! t.1.2, t.2)) <$> out_df.

Definition map_back_sparse (X : nat) : M (list out_row) :=
  x ← np_read X;
  let out_df := sparse_rows x in
  s ← get_self;
  mbu ← attr "map_back_users" (map_back_users s);
  mbi ← attr "map_back_items" (map_back_items s);
  mret (map_ids mbu mbi out_df).

(** ** [stratified_split] *)

(** The local variables that outlive the loops. *)
Record locals : Type := Locals {
  idx : option (list nat);
  sub_el : option nat;
  idx_tst : option (list nat)
}.

(** [del name]. *)
Definition del {A} (name : string) (o : option A) : M unit :=
  match o with
  | Some _ => mret tt
  | None => raise (UnboundLocalError name)
  end.

(** One round of the inner loop: draw, remove, append. *)
Definition draw (_ : nat) (l : locals) : M locals :=
  cand ← attr "idx" (idx l);
  chosen ← attr "idx_tst" (idx_tst l);
  el ← random_choice cand;
  cand' ← lift (list_remove el cand);
  mret (Locals (Some cand') (Some el) (Some (chosen ++ [el]))).

(** The body of the loop over the users. *)
Definition split_user (Xtr Xtst : nat) (rated : list nat) (tst : list Z)
    (u : nat) (l : locals) : M locals :=
  row ← np_row Xtr u;
  let l := Locals (Some (nonzero row)) (sub_el l) (Some []) in
  n ← np_item tst u;
  l ← for_each (seq 0 (Z.to_nat n)) draw l;
  chosen ← attr "idx_tst" (idx_tst l);
  cand ← attr "idx" (idx l);
  np_zero_cells Xtr u chosen;;
  np_zero_cells Xtst u cand;;
  rtr ← np_row Xtr u;
  rts ← np_row Xtst u;
  ru ← np_item rated u;
  py_assert (bool_decide (count_nonzero rtr + count_nonzero rts = ru)%nat);;
  mret l.

(** The method.  [tst = (rated * test_cut) // 100] is computed on exact
    integers: the int64 product of NumPy is the same number as long as it
    stays below [2^63], which it does for every row when
    [0 <= test_cut <= 100], the range of a ratio in (0, 1). *)
Definition stratified_split (ratio : spec_float) (seed : Z)
  : M (nat * nat * list out_row * list out_row
       * (gmap nat User * gmap nat Item)) :=
  np_random_seed seed;;
  test_cut ← lift (py_int (test_percent ratio));
  gen_index;;
  s ← get_self;
  mbu ← attr "map_back_users" (map_back_users s);
  mbi ← attr "map_back_items" (map_back_items s);
  let maps := (mbu, mbi) in
  gen_affinity_matrix;;
  s ← get_self;
  am ← attr "AM" (AM s);
  Xtr ← np_copy am;
  Xtst ← np_copy am;
  xtr ← np_read Xtr;
  let rated := count_nonzero <$> xtr in
  let tst := (λ r, (Z.of_nat r * test_cut) `div` 100)%Z <$> rated in
  nu ← attr "Nusers" (Nusers s);
  l ← for_each (seq 0 nu) (split_user Xtr Xtst rated tst)
               (Locals None None None);
  del "idx" (idx l);;
  del "sub_el" (sub_el l);;
  del "idx_tst" (idx_tst l);;
  tr ← map_back_sparse Xtr;
  ts ← map_back_sparse Xtst;
  mret (Xtr, Xtst, tr, ts, maps).

(** ** Predicates used in the specifications *)

(** Everything but the state of the [random] generator is unchanged. *)
Definition same_but_rng (w w' : world) : Prop :=
  self w' = self w ∧ heap w' = heap w ∧
  np_random w' = np_random w ∧ stdout w' = stdout w.

(** Everything but the arrays [Xtr] and [Xtst] and the state of the
    [random] generator is unchanged. *)
Definition same_but (Xtr Xtst : nat) (w w' : world) : Prop :=
  self w' = self w ∧ np_random w' = np_random w ∧ stdout w' = stdout w ∧
  length (heap w') = length (heap w) ∧
  ∀ X, X ≠ Xtr → X ≠ Xtst → heap w' !! X = heap w !! X.

(** The dense matrix that [gen_index] followed by [gen_affinity_matrix]
    builds from the table [d] (the empty matrix if [coo_matrix] raised). *)
Definition affinity_matrix (d : list (Row User Item)) : list (list Z) :=
  let rows := sort_values d in
  let users := unique (user <$> rows) in
  let items := unique (item <$> rows) in
  let mu := dict_of ((λ ix, (ix.2, ix.1)) <$> enumerate users) in
  let mi := dict_of ((λ ix, (ix.2, ix.1)) <$> enumerate items) in
  match coo_matrix_toarray (rating <$> rows)
          ((λ r, mu !! user r) <$> rows) ((λ r, mi !! item r) <$> rows)
          (length users, length items) with
  | Ok a => a
  | Raise _ => []
  end.

(** The world after [gen_index] and the assignment of [self.AM] in
    [gen_affinity_matrix], before the sparsity line is printed. *)
Definition built (w : world) : world :=
  World (with_AM (indexed (self w)) (length (heap w)))
        (heap w ++ [affinity_matrix (df (self w))])
        (np_random w) (py_random w) (stdout w).

(** The world after [np.random.seed(seed)]. *)
Definition seeded (w : world) (seed : Z) : world :=
  World (self w) (heap w) (Some seed) (py_random w) (stdout w).

(** The world after the two [self.AM.copy()]. *)
Definition copied (w : world) : world :=
  let a := default [] (AM (self w) ≫= (heap w !!.)) in
  World (self w) (heap w ++ [a; a]) (np_random w) (py_random w) (stdout w).

(** The pair of backward dictionaries, [maps]. *)
Definition back_maps (s : splitter) : gmap nat User * gmap nat Item :=
  (default ∅ (map_back_users s), default ∅ (map_back_items s)).

(** The table [map_back_sparse] makes of the array [X]. *)
Definition table_of (w : world) (X : nat) : list out_row :=
  map_ids (back_maps (self w)).1 (back_maps (self w)).2
          (sparse_rows (default [] (heap w !! X))).

(** A row of the input table as it should come back from
    [map_back_sparse]. *)
Definition to_out (r : Row User Item) : out_row :=
  (Some (user r), Some (item r), rating r).

(** The round trip: build the matrix of the table, then map it back. *)
Definition round_trip : M (list out_row) :=
  gen_index;;
  gen_affinity_matrix;;
  s ← get_self;
  am ← attr "AM" (AM s);
  map_back_sparse am.

(** One more line on the standard output. *)
Definition printed (w : world) (line : nat * (nat * nat)) : world :=
  World (self w) (heap w) (np_random w) (py_random w) (stdout w ++ [line]).

(** [tst[u]] for a row: [rated * test_cut // 100]. *)
Definition test_count (c : Z) (row : list Z) : Z :=
  ((Z.of_nat (count_nonzero row) * c) `div` 100)%Z.

(** [rtr] and [rts] are [row] with [k] of its non-zero cells moved to the
    test row: the chosen cells are zeroed in [rtr], the others in [rts]. *)
Definition row_split (row rtr rts : list Z) (k : nat) : Prop :=
  ∃ cand chosen,
    cand ++ chosen ≡ₚ nonzero row ∧ length chosen = k ∧
    rtr = zero_cells chosen row ∧ rts = zero_cells cand row.

(** The state of the loop over the users after [k] rows of the matrix [A],
    started in world [w0]. *)
Definition users_done (c : Z) (A : list (list Z)) (Xtr Xtst : nat)
    (w0 : world) (k : nat) (l : locals) (w : world) : Prop :=
  same_but Xtr Xtst w0 w ∧
  (∃ Tr Ts,
     heap w !! Xtr = Some Tr ∧ heap w !! Xtst = Some Ts ∧
     length Tr = length A ∧ length Ts = length A ∧
     ∀ v row, A !! v = Some row →
       if decide (v < k) then
         ∃ rtr rts, Tr !! v = Some rtr ∧ Ts !! v = Some rts ∧
                    row_split row rtr rts (Z.to_nat (test_count c row))
       else Tr !! v = Some row ∧ Ts !! v = Some row) ∧
  (0 < k → is_Some (idx l) ∧ is_Some (idx_tst l)) ∧
  (sub_el l = None ↔
   ∀ v row, v < k → A !! v = Some row → Z.to_nat (test_count c row) = 0).

(** The loop over the users stopped in [random.choice]. *)
Definition users_failed (c : Z) (A : list (list Z)) (Xtr Xtst : nat)
    (w0 : world) (e : exn) (w : world) : Prop :=
  e = IndexError "Cannot choose from an empty sequence" ∧
  same_but Xtr Xtst w0 w ∧
  ∃ v row, A !! v = Some row ∧
           count_nonzero row < Z.to_nat (test_count c row).

End Splitter.

(** ** [__init__] *)

Section Init.
Context {User Item : Type} `{Countable User} `{Countable Item}.

(** [splitter(DF)]: [self.df] is assigned, and none of the attributes that
    the other methods assign. *)
Definition __init__ (DF : list (Row User Item))
  : splitter (User:=User) (Item:=Item) :=
  Splitter DF None None None None None None None None.
End Init.

(** ** NumPy's generator *)

Section Frame.
Context {User Item : Type} `{Countable User} `{Countable Item}.
Context {Rnd : PyRandom}.

(** The world with another state of NumPy's generator. *)
Definition with_np_random (w : world (User:=User) (Item:=Item))
    (n : option Z) : world :=
  World (self w) (heap w) n (py_random w) (stdout w).

(** A computation that neither reads nor writes the state of NumPy's
    generator: run with another state, it does the same and leaves that
    state. *)
Definition ignores_np_random {A} (m : M A) : Prop :=
  ∀ w n, m (with_np_random w n) = ((m w).1, with_np_random (m w).2 n).
End Frame.

(** ** More predicates used in the specifications *)

(** Row-major order on the cells of a matrix. *)
Definition row_major (a b : nat * nat * Z) : Prop :=
  a.1.1 < b.1.1 ∨ (a.1.1 = b.1.1 ∧ a.1.2 < b.1.2).

(** [Tr] and [Ts] split the matrix [A]: they have its shape, and every cell
    of [A] keeps its value in one of them and is 0 in the other. *)
Definition cells_split (A Tr Ts : list (list Z)) : Prop :=
  ∀ u i,
    match cell A u i with
    | Some a => (cell Tr u i = Some a ∧ cell Ts u i = Some 0%Z) ∨
                (cell Tr u i = Some 0%Z ∧ cell Ts u i = Some a)
    | None => cell Tr u i = None ∧ cell Ts u i = None
    end.

(** ** A concrete setting for the examples

    String identifiers, a table sorted by a merge sort on the user column,
    and a generator that counts: its [n]-th draw below [k] is [n mod k]. *)

#[export] Instance counter_random : PyRandom.
Proof.
  refine {| rng := nat; randbelow := λ g n, (g mod n, S g) |}.
  abstract (intros g n Hn; simpl; apply Nat.mod_upper_bound; lia).
Defined.

Definition user_le (a b : Row string string) : Prop :=
  String.leb (user a) (user b) = true.

#[export] Instance user_le_dec (a b : Row string string) : Decision (user_le a b).
Proof. unfold user_le. apply _. Defined.

#[export] Instance sort_by_user : SortValues string string.
Proof.
  refine {| sort_values := merge_sort user_le |}.
  abstract (intros l; apply merge_sort_Permutation).
Defined.

(** A fresh [splitter(DF)] in a process whose [random] generator has made
    [g] draws. *)
Definition new_splitter (d : list (Row string string)) (g : nat) : world :=
  World (Splitter d None None None None None None None None) [] None g [].

(** The table of the specification's scenario. *)
Definition scenario : list (Row string string) :=
  [ {| user := "U1"; item := "I1"; rating := 5; rating_int64 := I |};
    {| user := "U1"; item := "I2"; rating := 3; rating_int64 := I |};
    {| user := "U2"; item := "I1"; rating := 4; rating_int64 := I |} ].

(** The doubles 0.5, 0.75 and 2^-60. *)
Definition ratio_half : spec_float := S754_finite false 4503599627370496 (-53).
Definition ratio_three_quarters : spec_float :=
  S754_finite false 6755399441055744 (-53).
Definition ratio_tiny : spec_float := S754_finite false 4503599627370496 (-112).

(** A caller mismatch: backward dictionaries of a one-user, one-item run
    next to the [(2, 2)] matrix of the scenario. *)
Definition stale_maps : world :=
  World (Splitter scenario None (Some 1) (Some 1) None None
           (Some {[ 0 := "U1" ]}) (Some {[ 0 := "I1" ]}) (Some 0))
        [ [[5; 3]; [4; 0]]%Z ] None 0 [].

(** A table with one row. *)
Definition one_row : list (Row string string) :=
  [ {| user := "U1"; item := "I1"; rating := 5; rating_int64 := I |} ].

(** Two rows for the same user and item, with ratings 5 and 2. *)
Definition duplicates : list (Row string string) :=
  [ {| user := "U1"; item := "I1"; rating := 5; rating_int64 := I |};
    {| user := "U1"; item := "I1"; rating := 2; rating_int64 := I |} ].

(** Two rows for the same user and item, each with the rating [2^62]. *)
Definition big_duplicates : list (Row string string) :=
  [ {| user := "U1"; item := "I1"; rating := 2 ^ 62; rating_int64 := I |};
    {| user := "U1"; item := "I1"; rating := 2 ^ 62; rating_int64 := I |} ].

(** The doubles written 0.2, 0.34 and 0.9 in Python: the doubles nearest to
    1/5, 34/100 and 9/10. *)
Definition ratio_one_fifth : spec_float :=
  S754_finite false 7205759403792794 (-55).
Definition ratio_034 : spec_float :=
  S754_finite false 6124895493223875 (-54).
Definition ratio_nine_tenths : spec_float :=
  S754_finite false 8106479329266893 (-53).

(** The double -1.0. *)
Definition ratio_minus_one : spec_float :=
  S754_finite true 4503599627370496 (-52).

(** Running a monadic computation one primitive at a time. *)
Ltac mrun_in H :=
  cbv beta iota delta [mbind M_bind mret M_ret lift attr py_assert raise
                       get_self set_self del np_item] in H.
Ltac mrun :=
  cbv beta iota delta [mbind M_bind mret M_ret lift attr py_assert raise
                       get_self set_self del np_item].

(** * Proofs *)

(** ** Rounding of binary64 operations *)

Section Float64.
Local Open Scope Z_scope.

Lemma iter_pos_iter {A} (f : A → A) (p : positive) (x : A) : @SpecFloat.iter_pos A f p x = @Pos.iter A f x p.
Proof.
revert x. induction p as [p IH|p IH|]; intros x; simpl; trivial.
- rewrite !IH. rewrite <- Pos.iter_swap. now rewrite <- Pos.iter_swap.
- now rewrite !IH.
Qed.

Lemma digits2_pos_size p : digits2_pos p = Pos.size p.
Proof. induction p; simpl; congruence. Qed.

Lemma digits2_lower p : 2 ^ (Z.pos (digits2_pos p) - 1) ≤ Z.pos p.
Proof.
rewrite digits2_pos_size.
pose proof (Pos.size_le p) as H.
assert (Z.pos (2 ^ Pos.size p) ≤ Z.pos p~0) as H' by exact H.
rewrite Pos2Z.inj_pow in H'.
replace (Z.pos (Pos.size p)) with ((Z.pos (Pos.size p) - 1) + 1) in H' by lia.
rewrite Z.pow_add_r in H' by lia. lia.
Qed.

Lemma shr_1_spec m r s :
0 ≤ m → shr_1 {| shr_m := m; shr_r := r; shr_s := s |}
        = {| shr_m := m / 2; shr_r := Z.odd m; shr_s := r || s |}.
Proof.
intros Hm. rewrite <- Z.div2_div.
destruct m as [|[p|p|]|p]; try reflexivity; lia.
Qed.

Lemma shr_inv_step m0 k mrs :
0 ≤ m0 → 0 ≤ k → shr_inv m0 k mrs → shr_inv m0 (Z.succ k) (shr_1 mrs).
Proof.
intros Hm Hk [Hq Hex]. destruct mrs as [m r s]; cbn [shr_m shr_r shr_s] in *.
assert (0 < 2 ^ k) by (apply Z.pow_pos_nonneg; lia).
assert (0 ≤ m) by (subst m; apply Z.div_pos; lia).
rewrite shr_1_spec by done. split; cbn [shr_m shr_r shr_s].
- subst m. rewrite Z.pow_succ_r by done.
  rewrite Z.div_div by lia. f_equal; lia.
- intros Hmod. rewrite Z.pow_succ_r in Hmod by done.
  rewrite Z.mul_comm, Z.rem_mul_r in Hmod by lia.
  assert (0 ≤ m0 mod 2 ^ k < 2 ^ k) by (apply Z.mod_pos_bound; lia).
  assert (0 ≤ (m0 / 2 ^ k) mod 2 < 2) by (apply Z.mod_pos_bound; lia).
  assert (m0 mod 2 ^ k = 0) as Hlo by nia.
  assert ((m0 / 2 ^ k) mod 2 = 0) as Hhi by nia.
  destruct (Hex Hlo) as [-> ->]. split; [|done].
  rewrite Zodd_mod, Hq, Hhi. reflexivity.
Qed.

Lemma shr_iter_inv m0 p :
0 ≤ m0 →
shr_inv m0 (Z.pos p)
  (@SpecFloat.iter_pos _ shr_1 p {| shr_m := m0; shr_r := false; shr_s := false |}).
Proof.
intros Hm. rewrite iter_pos_iter.
apply (Pos.iter_ind _ shr_1 _ (λ q mrs, shr_inv m0 (Z.pos q) mrs)).
- apply (shr_inv_step m0 0); [done..|].
  split; simpl; [by rewrite Z.div_1_r|done].
- intros q mrs IH. rewrite Pos2Z.inj_succ. apply shr_inv_step; [done|lia|done].
Qed.


(** One [shr_fexp] on an exact, non-negative mantissa whose value
  [m * 2^e] is at most the small integer [B]. *)
Lemma shr_fexp_exact m e B :
0 ≤ m → e ≤ 0 → 0 < B ≤ 128 → m ≤ B * 2 ^ (- e) →
∃ mrs e',
  shr_fexp prec emax m e loc_Exact = (mrs, e') ∧
  e ≤ e' ≤ 0 ∧ shr_inv m (e' - e) mrs.
Proof.
intros Hm He HB Hle. unfold shr_fexp. simpl shr_record_of_loc.
assert (fexp prec emax (Zdigits2 m + e) ≤ 0) as Hf.
{ unfold fexp, emin, prec, emax. apply Z.max_lub; [|lia].
  destruct m as [|p|p]; cbn [Zdigits2]; [lia| |lia].
  pose proof (digits2_lower p) as Hd.
  assert (Z.pos p < 2 ^ (8 - e)).
  { replace (8 - e) with (8 + - e) by lia. rewrite Z.pow_add_r by lia.
    assert (0 < 2 ^ (- e)) by (apply Z.pow_pos_nonneg; lia).
    change (2 ^ 8) with 256. nia. }
  assert (Z.pos (digits2_pos p) - 1 < 8 - e); [|lia].
  apply (Z.pow_lt_mono_r_iff 2); lia. }
destruct (fexp prec emax (Zdigits2 m + e) - e) as [|p|p] eqn:Hn; simpl.
- eexists _, _. split; [done|]. split; [lia|].
  rewrite Z.sub_diag. split; simpl; [by rewrite Z.div_1_r|done].
- eexists _, _. split; [done|]. split; [lia|].
  replace (e + Z.pos p - e) with (Z.pos p) by lia. by apply shr_iter_inv.
- eexists _, _. split; [done|]. split; [lia|].
  rewrite Z.sub_diag. split; simpl; [by rewrite Z.div_1_r|done].
Qed.

Lemma round_nearest_even_bound m mrs k G :
0 ≤ m → 0 ≤ k → shr_inv m k mrs → m ≤ G * 2 ^ k →
0 ≤ round_nearest_even (shr_m mrs) (loc_of_shr_record mrs) ≤ G.
Proof.
intros Hm Hk [Hq Hex] Hle.
assert (0 < 2 ^ k) as Hp by (apply Z.pow_pos_nonneg; lia).
assert (0 ≤ m / 2 ^ k) by (apply Z.div_pos; lia).
assert (m / 2 ^ k ≤ G) as HG.
{ apply Z.div_le_upper_bound; lia. }
destruct (decide (m mod 2 ^ k = 0)) as [H0|Hne].
- destruct (Hex H0) as [Hr Hs]. destruct mrs as [m1 r s]; simpl in *.
  subst r s; simpl. lia.
- assert (m / 2 ^ k < G).
  { pose proof (Z.div_mod m (2 ^ k)) as Hdm.
    assert (0 ≤ m mod 2 ^ k < 2 ^ k) by (apply Z.mod_pos_bound; lia).
    nia. }
  destruct mrs as [m1 r s]; simpl in *. subst m1.
  destruct r, s; simpl; try lia; destruct (Z.even _); lia.
Qed.

Lemma binary_round_aux_le m e B :
0 < m → e ≤ 0 → 0 < B ≤ 128 → m ≤ B * 2 ^ (- e) →
le_int (binary_round_aux prec emax false m e loc_Exact) B.
Proof.
intros Hm He HB Hle. unfold binary_round_aux.
destruct (shr_fexp_exact m e B) as (mrs & e' & -> & He' & Hinv); [lia|done..|].
set (m' := round_nearest_even _ _).
assert (0 ≤ m' ≤ B * 2 ^ (- e')) as Hm'.
{ apply (round_nearest_even_bound m mrs (e' - e)); [lia|lia|done|].
  rewrite <- Z.mul_assoc, <- Z.pow_add_r by lia.
  by replace (- e' + (e' - e)) with (- e) by lia. }
destruct (shr_fexp_exact m' e' B) as (mrs2 & e2 & -> & He2 & [Hq2 _]);
  [lia|lia|done|lia|].
assert (0 < 2 ^ (e2 - e')) by (apply Z.pow_pos_nonneg; lia).
assert (0 ≤ shr_m mrs2) by (rewrite Hq2; apply Z.div_pos; lia).
destruct (shr_m mrs2) as [|p|p] eqn:Hp; [done| |lia].
assert ((e2 <=? emax - prec) = true) as ->.
{ apply Z.leb_le. unfold emax, prec. lia. }
split; [lia|]. rewrite Hq2.
apply Z.div_le_upper_bound; [done|].
rewrite Z.mul_comm, <- Z.mul_assoc, <- Z.pow_add_r by lia.
replace (- e2 + (e2 - e')) with (- e') by lia. lia.
Qed.

Lemma pos_iter_xO m d : Z.pos (Pos.iter xO m d) = Z.pos m * 2 ^ Z.pos d.
Proof.
change (Pos.iter xO m d) with (shift_pos d m).
rewrite shift_pos_correct, Z.pow_pos_fold. lia.
Qed.

(** [shl_align] keeps the value: the mantissa is multiplied by the power of
  two removed from the exponent. *)
Lemma shl_align_spec m e e' :
let '(m1, e1) := shl_align m e e' in
e1 = Z.min e e' ∧ Z.pos m1 = Z.pos m * 2 ^ (e - e1).
Proof.
unfold shl_align. destruct (e' - e) as [|d|d] eqn:Hd.
- split; [lia|]. rewrite Z.sub_diag. lia.
- split; [lia|]. rewrite Z.sub_diag. lia.
- split; [lia|]. rewrite pos_iter_xO. do 2 f_equal. lia.
Qed.

Lemma ratio_shape r :
is_ratio r → ∃ m e, r = S754_finite false m e ∧ e ≤ -52 ∧ Z.pos m < 2 ^ (- e).
Proof.
intros (Hv & H0 & H1).
destruct r as [s|s| |s m e];
  [destruct s; vm_compute in H0, H1; discriminate
  |destruct s; vm_compute in H0, H1; discriminate
  |vm_compute in H0; discriminate| ].
destruct s; [vm_compute in H0; discriminate|].
- exists m, e. split; [done|].
  unfold SFltb in H1. cbn [float_of_int] in H1.
  change (float_of_int 1) with (S754_finite false 4503599627370496 (-52)) in H1.
  cbn [SFcompare] in H1.
  destruct (Z.compare_spec e (-52)) as [He|He|He]; try discriminate.
  + subst e. split; [lia|].
    destruct (Pos.compare_cont Eq m 4503599627370496) eqn:Hc; try discriminate.
    assert (m < 4503599627370496)%positive as Hlt by exact Hc.
    assert (2 ^ (- -52) = 4503599627370496) as -> by (vm_compute; reflexivity).
    exact Hlt.
  + split; [lia|].
    unfold valid_binary, SpecFloat.valid_binary, bounded, canonical_mantissa in Hv.
    apply andb_prop in Hv as [Hc _]. apply Z.eqb_eq in Hc.
    unfold fexp, emin, prec, emax in Hc.
    pose proof (Pos.size_gt m) as Hs. rewrite <- digits2_pos_size in Hs.
    assert (Z.pos m < Z.pos (2 ^ digits2_pos m)) as Hs' by exact Hs.
    rewrite Pos2Z.inj_pow in Hs'.
    assert (Z.pos (digits2_pos m) ≤ - e) by lia.
    eapply Z.lt_le_trans; [exact Hs'|]. apply Z.pow_le_mono_r; lia.
Qed.

Lemma SFsub_one_ratio r :
is_ratio r → le_int (SF64sub (float_of_int 1) r) 1.
Proof.
intros Hr. destruct (ratio_shape r Hr) as (m & e & -> & He & Hm).
change (float_of_int 1) with (S754_finite false 4503599627370496 (-52)).
unfold SF64sub, SFsub. cbn [cond_Zopp].
replace (Z.min (-52) e) with e by lia.
pose proof (shl_align_spec 4503599627370496 (-52) e) as H1.
pose proof (shl_align_spec m e e) as H2.
destruct (shl_align 4503599627370496 (-52) e) as [m1 e1].
destruct (shl_align m e e) as [m2 e2]. cbn [fst].
destruct H1 as [-> H1], H2 as [-> H2].
replace (Z.min (-52) e) with e in H1 by lia.
replace (Z.min e e) with e in H2 by lia.
rewrite Z.sub_diag in H2.
assert (Z.pos m1 = 2 ^ (- e)) as Hm1.
{ rewrite H1.
  assert (4503599627370496 = 2 ^ 52) as -> by (vm_compute; reflexivity).
  rewrite <- Z.pow_add_r by lia. f_equal. lia. }
assert (0 < 2 ^ (- e)) by (apply Z.pow_pos_nonneg; lia).
destruct (Z.pos m1 - Z.pos m2) as [|p|p] eqn:Hp; [lia| |lia].
unfold binary_normalize, binary_round.
pose proof (shl_align_spec p e (fexp prec emax (Z.pos (digits2_pos p) + e))) as H3.
destruct (shl_align p e _) as [mz ez]. destruct H3 as [Hez Hmz].
assert (0 < 2 ^ (e - ez)) by (apply Z.pow_pos_nonneg; lia).
apply binary_round_aux_le; [lia|lia|lia|].
rewrite Hmz, Z.mul_1_l.
replace (- ez) with (- e + (e - ez)) by lia. rewrite Z.pow_add_r by lia.
nia.
Qed.

Lemma SFmul_hundred x :
le_int x 1 → le_int (SF64mul x (float_of_int 100)) 100.
Proof.
change (float_of_int 100) with (S754_finite false 7036874417766400 (-46)).
destruct x as [[]|[]| |[] m e]; try done.
intros [He Hm]. unfold SF64mul, SFmul. cbn [xorb].
assert (0 < 2 ^ (- e)) by (apply Z.pow_pos_nonneg; lia).
apply binary_round_aux_le; [lia|lia|lia|].
rewrite Pos2Z.inj_mul.
replace (- (e + -46)) with (- e + 46) by lia. rewrite Z.pow_add_r by lia.
assert (2 ^ 46 = 70368744177664) as -> by (vm_compute; reflexivity). nia.
Qed.

Lemma Qfloor_pow2 m e : e ≤ 0 → Qfloor (inject_Z m * Qpower 2 e) = m / 2 ^ (- e).
Proof.
intros He.
assert (0 < 2 ^ (- e)) as Hp by (apply Z.pow_pos_nonneg; lia).
destruct (2 ^ (- e)) as [|d|d] eqn:Hd; try lia.
transitivity (Qfloor (m # d)); [|reflexivity].
apply Qfloor_comp.
rewrite (Qmake_Qdiv m d), <- Hd.
replace e with (- - e) at 1 by lia. rewrite Qpower_opp.
rewrite Zpower_Qpower by lia. reflexivity.
Qed.

Lemma test_percent_le r : is_ratio r → le_int (test_percent r) 100.
Proof. intros Hr. by apply SFmul_hundred, SFsub_one_ratio. Qed.

(** On a non-negative double of value at most [B], [int()] succeeds, stays
  within [0..B], and is the floor of the exact value. *)
Lemma py_int_le_int x B :
0 ≤ B → le_int x B →
∃ c, py_int x = Ok c ∧ 0 ≤ c ≤ B ∧ c = Qfloor (SF2Q x).
Proof.
intros HB. destruct x as [[]|[]| |[] m e]; try done.
- intros _. exists 0. by repeat split.
- intros [He Hm]. exists (Z.pos m / 2 ^ (- e)).
  assert (0 < 2 ^ (- e)) by (apply Z.pow_pos_nonneg; lia).
  split; [|split].
  + cbn [py_int cond_Zopp]. by rewrite Z.shiftl_div_pow2.
  + split; [apply Z.div_pos; lia|].
    apply Z.div_le_upper_bound; lia.
  + cbn [SF2Q cond_Zopp]. by rewrite Qfloor_pow2.
Qed.

End Float64.

(** ** Lists, dictionaries and rows *)

Section Lists.
Context {A : Type} `{Countable A}.

Lemma elem_of_unique (l : list A) x : x ∈ unique l ↔ x ∈ l.
Proof.
  induction l as [|y l IH]; simpl; [done|].
  rewrite !elem_of_cons, list_elem_of_filter, IH.
  destruct (decide (x = y)); intuition congruence.
Qed.

Lemma NoDup_unique (l : list A) : NoDup (unique l).
Proof.
  induction l as [|y l IH]; simpl; [constructor|].
  constructor; [|by apply NoDup_filter].
  rewrite list_elem_of_filter. intuition congruence.
Qed.

Lemma unique_nil (l : list A) : unique l = [] ↔ l = [].
Proof. by destruct l. Qed.

Lemma length_unique (l : list A) :
  length (unique l) = size (list_to_set l : gset A).
Proof.
  rewrite <- (size_list_to_set (C:=gset A) (unique l)) by apply NoDup_unique.
  f_equal. apply set_eq. intros x.
  by rewrite !elem_of_list_to_set, elem_of_unique.
Qed.

Lemma unique_perm (l k : list A) :
  l ≡ₚ k → ∀ x, x ∈ unique l ↔ x ∈ unique k.
Proof. intros Hp x. by rewrite !elem_of_unique, Hp. Qed.

Lemma enumerate_snoc (l : list A) x :
  enumerate (l ++ [x]) = enumerate l ++ [(length l, x)].
Proof.
  unfold enumerate. rewrite imap_app. simpl. by rewrite Nat.add_0_r.
Qed.

Lemma dict_of_snoc {K V} `{Countable K} (kvs : list (K * V)) kv :
  dict_of (kvs ++ [kv]) = <[kv.1 := kv.2]> (dict_of kvs).
Proof. unfold dict_of. by rewrite foldl_app. Qed.

(** The backward dictionary is the list read by position. *)
Lemma dict_of_enumerate (l : list A) i :
  dict_of (enumerate l) !! i = l !! i.
Proof.
  induction l as [|x l IH] using rev_ind; [done|].
  rewrite enumerate_snoc, dict_of_snoc. simpl.
  destruct (decide (i = length l)) as [->|Hne].
  - rewrite lookup_insert_eq. by rewrite list_lookup_middle.
  - rewrite lookup_insert_ne by done. rewrite IH.
    destruct (decide (i < length l)).
    + by rewrite lookup_app_l.
    + rewrite !lookup_ge_None_2; [done| |lia].
      rewrite length_app. simpl. lia.
Qed.

(** The forward dictionary sends a value to its position. *)
Lemma dict_of_enumerate_inv (l : list A) x i :
  NoDup l →
  dict_of ((λ ix, (ix.2, ix.1)) <$> enumerate l) !! x = Some i ↔ l !! i = Some x.
Proof.
  revert i. induction l as [|y l IH] using rev_ind; intros i Hnd.
  - by rewrite lookup_nil.
  - apply NoDup_app in Hnd as (Hnd & Hy & _).
    rewrite enumerate_snoc, fmap_app.
    change ((λ ix : nat * A, (ix.2, ix.1)) <$> [(length l, y)])
      with [(y, length l)].
    rewrite dict_of_snoc. simpl.
    destruct (decide (x = y)) as [->|Hne].
    + rewrite lookup_insert_eq. split.
      * intros [= <-]. by rewrite list_lookup_middle.
      * intros Hi. f_equal.
        destruct (decide (i < length l)) as [Hlt|Hge].
        -- rewrite lookup_app_l in Hi by done.
           exfalso. apply (Hy y); [|by left]. by eapply list_elem_of_lookup_2.
        -- apply lookup_lt_Some in Hi. rewrite length_app in Hi.
           simpl in Hi. lia.
    + rewrite lookup_insert_ne by done. rewrite IH by done.
      destruct (decide (i < length l)) as [Hlt|Hge].
      * by rewrite lookup_app_l.
      * split; [intros Hi; apply lookup_lt_Some in Hi; lia|].
        intros Hi. destruct (decide (i = length l)) as [->|].
        -- rewrite list_lookup_middle in Hi by done. congruence.
        -- apply lookup_lt_Some in Hi. rewrite length_app in Hi.
           simpl in Hi. lia.
Qed.
End Lists.

(** ** Non-zero cells of a row *)

Lemma elem_of_nonzero (row : list Z) (i : nat) :
  i ∈ nonzero row ↔ ∃ x, row !! i = Some x ∧ x ≠ 0%Z.
Proof.
  unfold nonzero. rewrite list_elem_of_filter, elem_of_seq. split.
  - intros [Hne [_ Hlt]]. destruct (lookup_lt_is_Some_2 row i) as [x Hx]; [lia|].
    exists x. split; [done|]. intros ->. by apply Hne.
  - intros (x & Hx & Hne). split; [rewrite Hx; congruence|].
    apply lookup_lt_Some in Hx. lia.
Qed.

Lemma NoDup_nonzero (row : list Z) : NoDup (nonzero row).
Proof. apply NoDup_filter, NoDup_seq. Qed.

Lemma length_nonzero_from (pre row : list Z) :
  length (filter (λ i, (pre ++ row) !! i ≠ Some 0%Z)
                 (seq (length pre) (length row)))
  = count_nonzero row.
Proof.
  revert pre. induction row as [|x row IH]; intros pre; [done|].
  unfold count_nonzero. simpl. rewrite !filter_cons.
  rewrite list_lookup_middle by done.
  specialize (IH (pre ++ [x])).
  rewrite <- app_assoc, length_app in IH. simpl in IH.
  rewrite Nat.add_1_r in IH.
  destruct (decide (Some x ≠ Some 0%Z)) as [Hx|Hx];
    destruct (decide (x ≠ 0%Z)) as [Hx'|Hx']; simpl.
  - by rewrite IH.
  - destruct Hx. f_equal. by apply dec_stable.
  - destruct Hx. congruence.
  - by rewrite IH.
Qed.

Lemma length_nonzero (row : list Z) : length (nonzero row) = count_nonzero row.
Proof. apply (length_nonzero_from [] row). Qed.

Lemma length_zero_cells cols (row : list Z) :
  length (zero_cells cols row) = length row.
Proof.
  revert row. induction cols as [|j cols IH]; intros row; [done|].
  unfold zero_cells in *. simpl. by rewrite IH, length_insert.
Qed.

Lemma lookup_zero_cells cols (row : list Z) (i : nat) :
  zero_cells cols row !! i
  = (λ x, if decide (i ∈ cols) then 0%Z else x) <$> row !! i.
Proof.
  revert row. induction cols as [|j cols IH]; intros row.
  - change (zero_cells [] row) with row.
    destruct (row !! i) as [x|]; [|done].
    unfold fmap, option_fmap, option_map.
    by rewrite decide_False by apply not_elem_of_nil.
  - change (zero_cells (j :: cols) row) with (zero_cells cols (<[j:=0%Z]> row)).
    rewrite IH. destruct (decide (i = j)) as [->|Hne].
    + destruct (decide (j < length row)) as [Hlt|Hge].
      * rewrite list_lookup_insert_eq by done.
        destruct (lookup_lt_is_Some_2 row j Hlt) as [x ->]. simpl.
        rewrite (decide_True (P:=j ∈ j :: cols)) by left.
        by destruct (decide (j ∈ cols)).
      * rewrite list_insert_ge by lia.
        by rewrite (lookup_ge_None_2 row j) by lia.
    + rewrite list_lookup_insert_ne by done.
      destruct (row !! i); simpl; [|done]. f_equal.
      destruct (decide (i ∈ cols)) as [Hin|Hnin].
      * by rewrite decide_True by (by right).
      * rewrite decide_False; [done|]. rewrite elem_of_cons. tauto.
Qed.

Lemma elem_of_nonzero_zero_cells cols (row : list Z) (i : nat) :
  i ∈ nonzero (zero_cells cols row) ↔ i ∈ nonzero row ∧ i ∉ cols.
Proof.
  rewrite !elem_of_nonzero, lookup_zero_cells. split.
  - intros (x & Hx & Hne). destruct (row !! i) as [y|]; [|done].
    simpl in Hx. destruct (decide (i ∈ cols)); [congruence|].
    split; [|done]. exists y. split; [done|congruence].
  - intros [(x & -> & Hne) Hnin]. exists x. simpl.
    by rewrite decide_False.
Qed.

(** Zeroing one part of a partition of the non-zero columns leaves exactly
    the other part. *)
Lemma nonzero_zero_cells_perm (cand chosen : list nat) (row : list Z) :
  cand ++ chosen ≡ₚ nonzero row →
  nonzero (zero_cells chosen row) ≡ₚ cand ∧
  nonzero (zero_cells cand row) ≡ₚ chosen.
Proof.
  intros Hp.
  assert (NoDup (cand ++ chosen)) as Hnd by (rewrite Hp; apply NoDup_nonzero).
  apply NoDup_app in Hnd as (Hc & Hdis & Hch).
  split; (apply NoDup_Permutation; [apply NoDup_nonzero|done|]); intros i;
    rewrite elem_of_nonzero_zero_cells, <- Hp, elem_of_app.
  - split; [intros [[?|?] ?]; done|]. intros Hi. split; [by left|].
    by apply Hdis.
  - split; [intros [[?|?] ?]; done|]. intros Hi. split; [by right|].
    intros Hi'. by apply (Hdis i).
Qed.

Lemma count_nonzero_split (cand chosen : list nat) (row : list Z) :
  cand ++ chosen ≡ₚ nonzero row →
  count_nonzero (zero_cells chosen row) + count_nonzero (zero_cells cand row)
  = count_nonzero row.
Proof.
  intros Hp. destruct (nonzero_zero_cells_perm _ _ _ Hp) as [H1 H2].
  rewrite <- !length_nonzero, H1, H2, <- Hp, length_app. done.
Qed.

Lemma list_remove_elem (x : nat) (l : list nat) :
  x ∈ l → ∃ l', list_remove x l = Ok l' ∧ l ≡ₚ x :: l'.
Proof.
  induction l as [|y l IH]; [by intros ?%elem_of_nil|].
  intros Hx. simpl. destruct (decide (y = x)) as [->|Hne].
  - by exists l.
  - apply elem_of_cons in Hx as [?|Hx]; [congruence|].
    destruct (IH Hx) as (l' & -> & Hp). exists (y :: l'). split; [done|].
    rewrite Hp. apply Permutation_swap.
Qed.

(** ** Running the methods *)

Section Runs.
Context {User Item : Type} `{Countable User} `{Countable Item}.
Context {Rnd : PyRandom} {Srt : SortValues User Item}.

Implicit Types w : world (User:=User) (Item:=Item).

Lemma bind_run {A B} (m : M A) (f : A → M B) w :
  (m ≫= f) w
  = match m w with
    | (Ok a, w') => f a w'
    | (Raise e, w') => (Raise e, w')
    end.
Proof. reflexivity. Qed.

Lemma random_choice_run (l : list nat) w :
  match random_choice l w with
  | (Ok x, w') => x ∈ l ∧ same_but_rng w w'
  | (Raise e, w') =>
      e = IndexError "Cannot choose from an empty sequence" ∧ l = [] ∧ w' = w
  end.
Proof.
  destruct l as [|x l]; [done|]. unfold random_choice.
  pose proof (randbelow_lt (py_random w) (length (x :: l))) as Hlt.
  destruct (randbelow (py_random w) (length (x :: l))) as [k g].
  split; [|done]. simpl in Hlt.
  destruct (lookup_lt_is_Some_2 (x :: l) k) as [y Hy]; [simpl; lia|].
  rewrite Hy. simpl. by eapply list_elem_of_lookup_2.
Qed.

Lemma for_each_cons {A S} (x : A) l (body : A → S → M S) s w :
  for_each (x :: l) body s w
  = match body x s w with
    | (Ok s', w') => for_each l body s' w'
    | (Raise e, w') => (Raise e, w')
    end.
Proof. reflexivity. Qed.

Lemma draw_run k cand sub chosen w :
  draw k (Locals (Some cand) sub (Some chosen)) w
  = match random_choice cand w with
    | (Ok el, w1) =>
        match list_remove el cand with
        | Ok c => (Ok (Locals (Some c) (Some el) (Some (chosen ++ [el]))), w1)
        | Raise e => (Raise e, w1)
        end
    | (Raise e, w1) => (Raise e, w1)
    end.
Proof.
  unfold draw. mrun. cbn [idx idx_tst].
  by destruct (random_choice cand w) as [[el|e] w1].
Qed.

(** The inner loop moves one candidate per round to the chosen ones, and
    fails exactly when it is asked for more rounds than there are
    candidates. *)
Lemma draws_run (ks : list nat) cand chosen sub w res w' :
  for_each ks draw (Locals (Some cand) sub (Some chosen)) w = (res, w') →
  same_but_rng w w' ∧
  match res with
  | Ok l =>
      ∃ cand' chosen',
        idx l = Some cand' ∧ idx_tst l = Some chosen' ∧
        cand' ++ chosen' ≡ₚ cand ++ chosen ∧
        length chosen' = length chosen + length ks ∧
        length ks ≤ length cand ∧
        (ks = [] → sub_el l = sub) ∧ (ks ≠ [] → is_Some (sub_el l))
  | Raise e =>
      e = IndexError "Cannot choose from an empty sequence" ∧
      length cand < length ks
  end.
Proof.
  revert cand chosen sub w res w'.
  induction ks as [|k ks IH]; intros cand chosen sub w res w' Hrun.
  - injection Hrun as <- <-. split; [done|].
    exists cand, chosen. simpl. repeat split; try done; lia.
  - rewrite for_each_cons, draw_run in Hrun.
    pose proof (random_choice_run cand w) as Hch.
    destruct (random_choice cand w) as [[el|e] w1].
    + destruct Hch as [Hel Hfr].
      destruct (list_remove_elem el cand Hel) as (cand1 & Hrm & Hp).
      rewrite Hrm in Hrun.
      apply IH in Hrun as [Hfr' Hres].
      split. { destruct Hfr as (?&?&?&?), Hfr' as (?&?&?&?). repeat split; congruence. }
      assert (length cand = S (length cand1)) as Hlen by (by rewrite Hp).
      destruct res as [l|e].
      * destruct Hres as (cand' & chosen' & ? & ? & Hp' & Hl & Hle & Hnil & Hsub).
        exists cand', chosen'. repeat split; try done.
        -- rewrite Hp', Hp, (Permutation_app_comm chosen [el]). simpl.
           by rewrite Permutation_middle.
        -- rewrite Hl, length_app. simpl. lia.
        -- simpl. lia.
        -- intros _. destruct ks; [|by apply Hsub].
           rewrite Hnil by done. eauto.
      * destruct Hres as [-> Hlt]. split; [done|]. simpl. lia.
    + destruct Hch as (-> & -> & ->). injection Hrun as <- <-.
      split; [done|]. split; [done|]. simpl. lia.
Qed.

Lemma np_row_run X u a r w :
  heap w !! X = Some a → a !! u = Some r → np_row X u w = (Ok r, w).
Proof.
  intros Ha Hr. unfold np_row, np_read. mrun. by rewrite Ha; simpl; rewrite Hr.
Qed.

Lemma np_zero_cells_run X u cols a r w :
  heap w !! X = Some a → a !! u = Some r →
  np_zero_cells X u cols w
  = (Ok tt, World (self w) (alter (alter (zero_cells cols) u) X (heap w))
                  (np_random w) (py_random w) (stdout w)).
Proof.
  intros Ha Hr. unfold np_zero_cells. rewrite bind_run.
  by rewrite (np_row_run X u a r).
Qed.

(** One pass of the loop over the users, on a row that is still the same in
    the train and in the test array. *)
Lemma split_user_run Xtr Xtst rated tst u l w Tr Ts row n res w' :
  Xtr ≠ Xtst →
  heap w !! Xtr = Some Tr → heap w !! Xtst = Some Ts →
  Tr !! u = Some row → Ts !! u = Some row →
  rated !! u = Some (count_nonzero row) → tst !! u = Some n →
  split_user Xtr Xtst rated tst u l w = (res, w') →
  self w' = self w ∧ np_random w' = np_random w ∧ stdout w' = stdout w ∧
  match res with
  | Ok l' =>
      ∃ cand chosen,
        cand ++ chosen ≡ₚ nonzero row ∧ length chosen = Z.to_nat n ∧
        heap w' = alter (alter (zero_cells cand) u) Xtst
                    (alter (alter (zero_cells chosen) u) Xtr (heap w)) ∧
        idx l' = Some cand ∧ idx_tst l' = Some chosen ∧
        (Z.to_nat n = 0 → sub_el l' = sub_el l) ∧
        (Z.to_nat n ≠ 0 → is_Some (sub_el l'))
  | Raise e =>
      e = IndexError "Cannot choose from an empty sequence" ∧
      heap w' = heap w ∧ count_nonzero row < Z.to_nat n
  end.
Proof.
  intros Hne HTr HTs Hru Hsu Hrated Htst Hrun.
  unfold split_user in Hrun.
  rewrite bind_run, (np_row_run Xtr u Tr row) in Hrun by done.
  rewrite bind_run in Hrun. unfold np_item in Hrun at 1.
  rewrite Htst in Hrun. cbn [mret M_ret] in Hrun.
  rewrite bind_run in Hrun.
  destruct (for_each (seq 0 (Z.to_nat n)) draw _ w) as [r1 w1] eqn:Hdraw.
  apply draws_run in Hdraw as [(Hs1 & Hh1 & Hn1 & Ho1) Hres].
  rewrite length_seq in Hres.
  destruct r1 as [l1|e]; cycle 1.
  { injection Hrun as <- <-. destruct Hres as [-> Hlt].
    rewrite length_nonzero in Hlt. done. }
  destruct Hres as (cand & chosen & Hidx & Hidt & Hp & Hlen & Hle & Hnil & Hsub).
  rewrite app_nil_r in Hp. simpl in Hlen.
  rewrite Hidt, Hidx in Hrun. mrun_in Hrun.
  assert (heap w1 !! Xtr = Some Tr) as HTr1 by (by rewrite Hh1).
  rewrite (np_zero_cells_run Xtr u chosen Tr row) in Hrun by done.
  set (w2 := World _ _ _ _ _) in Hrun.
  assert (heap w2 !! Xtst = Some Ts) as HTs2.
  { unfold w2. simpl. rewrite list_lookup_alter_ne by done. by rewrite Hh1. }
  rewrite (np_zero_cells_run Xtst u cand Ts row) in Hrun by done.
  set (w3 := World _ _ _ _ _) in Hrun.
  assert (heap w3 !! Xtr = Some (alter (zero_cells chosen) u Tr)) as HTr3.
  { unfold w3, w2. simpl. rewrite list_lookup_alter_ne by done.
    by rewrite list_lookup_alter_eq, HTr1. }
  assert (heap w3 !! Xtst = Some (alter (zero_cells cand) u Ts)) as HTs3.
  { unfold w3. cbn [heap]. by rewrite list_lookup_alter_eq, HTs2. }
  rewrite (np_row_run Xtr u _ (zero_cells chosen row) w3 HTr3) in Hrun
    by (by rewrite list_lookup_alter_eq, Hru).
  rewrite (np_row_run Xtst u _ (zero_cells cand row) w3 HTs3) in Hrun
    by (by rewrite list_lookup_alter_eq, Hsu).
  rewrite Hrated in Hrun.
  rewrite bool_decide_true in Hrun by (by apply count_nonzero_split).
  injection Hrun as <- <-. repeat split; try done.
  exists cand, chosen. repeat split; try done.
  - unfold w3, w2. simpl. by rewrite Hh1.
  - intros Hz. apply Hnil. by rewrite Hz.
  - intros Hz. apply Hsub. destruct (Z.to_nat n); done.
Qed.

(** A loop over [range(n)] keeps an invariant indexed by the number of
    rounds done; a round that raises ends the loop. *)
Lemma for_each_seq_inv {S} (I : nat → S → world → Prop)
    (E : exn → world → Prop) (body : nat → S → M S) n a s w :
  I a s w →
  (∀ k s w, a ≤ k < a + n → I k s w →
     match body k s w with
     | (Ok s', w') => I (Datatypes.S k) s' w'
     | (Raise e, w') => E e w'
     end) →
  match for_each (seq a n) body s w with
  | (Ok s', w') => I (a + n) s' w'
  | (Raise e, w') => E e w'
  end.
Proof.
  revert a s w. induction n as [|n IH]; intros a s w HI Hstep.
  - simpl. by rewrite Nat.add_0_r.
  - cbn [seq]. rewrite for_each_cons.
    specialize (Hstep a s w ltac:(lia) HI) as Hb.
    destruct (body a s w) as [[s1|e] w1]; [|done].
    replace (a + Datatypes.S n) with (Datatypes.S a + n) by lia.
    apply IH; [done|]. intros k s2 w2 Hk. apply Hstep. lia.
Qed.

Lemma same_but_trans Xtr Xtst w0 w1 w2 :
  same_but Xtr Xtst w0 w1 → same_but Xtr Xtst w1 w2 → same_but Xtr Xtst w0 w2.
Proof.
  intros (?&?&?&?&Hh) (?&?&?&?&Hh'). repeat split; try congruence.
  intros X ??. rewrite Hh' by done. by apply Hh.
Qed.

(** One more row of the matrix is split, or the sampling fails. *)
Lemma users_done_step c A Xtr Xtst w0 k l w :
  Xtr ≠ Xtst → k < length A → users_done c A Xtr Xtst w0 k l w →
  match split_user Xtr Xtst (count_nonzero <$> A)
          ((λ r, (Z.of_nat r * c) `div` 100)%Z <$> (count_nonzero <$> A))
          k l w with
  | (Ok l', w') => users_done c A Xtr Xtst w0 (S k) l' w'
  | (Raise e, w') => users_failed c A Xtr Xtst w0 e w'
  end.
Proof.
  intros Hne Hk (Hfr & (Tr & Ts & HTr & HTs & HlTr & HlTs & Hrows) & Hloc & Hsub).
  destruct (lookup_lt_is_Some_2 A k Hk) as [row Hrow].
  pose proof (Hrows k row Hrow) as Hkrow.
  rewrite decide_False in Hkrow by lia. destruct Hkrow as [Hrtr Hrts].
  destruct (split_user _ _ _ _ k l w) as [res w'] eqn:Hrun.
  eapply (split_user_run _ _ _ _ _ _ _ Tr Ts row (test_count c row)) in Hrun;
    [|done..| |].
  2:{ by rewrite list_lookup_fmap, Hrow. }
  2:{ by rewrite !list_lookup_fmap, Hrow. }
  destruct Hrun as (Hs & Hn & Ho & Hres).
  destruct Hfr as (Hs0 & Hn0 & Ho0 & Hl0 & Hh0).
  destruct res as [l'|e].
  - destruct Hres as (cand & chosen & Hp & Hlen & Hheap & Hidx & Hidt & Hz & Hnz).
    assert (heap w' !! Xtr = Some (alter (zero_cells chosen) k Tr)) as HTr'.
    { rewrite Hheap, list_lookup_alter_ne by done.
      by rewrite list_lookup_alter_eq, HTr. }
    assert (heap w' !! Xtst = Some (alter (zero_cells cand) k Ts)) as HTs'.
    { rewrite Hheap, list_lookup_alter_eq, list_lookup_alter_ne by done.
      by rewrite HTs. }
    split; [|split; [|split]].
    + repeat split; try congruence.
      * by rewrite Hheap, !length_alter.
      * intros X ??. rewrite Hheap, !list_lookup_alter_ne by done.
        by apply Hh0.
    + eexists _, _. split; [exact HTr'|]. split; [exact HTs'|].
      rewrite !length_alter. split; [done|]. split; [done|].
      intros v rv Hv. specialize (Hrows v rv Hv).
      destruct (decide (v = k)) as [->|Hvk].
      * rewrite decide_True by lia. assert (rv = row) as -> by congruence.
        eexists _, _. rewrite !list_lookup_alter_eq, Hrtr, Hrts.
        split; [done|]. split; [done|]. by exists cand, chosen.
      * rewrite !list_lookup_alter_ne by done.
        destruct (decide (v < k)); [rewrite decide_True by lia|
                                    rewrite decide_False by lia]; done.
    + intros _. rewrite Hidx, Hidt. eauto.
    + destruct (decide (Z.to_nat (test_count c row) = 0)) as [Hc|Hc].
      * rewrite (Hz Hc), Hsub. split.
        -- intros Hall v rv Hv Hrv. destruct (decide (v = k)) as [->|].
           ++ by assert (rv = row) as -> by congruence.
           ++ apply (Hall v); [lia|done].
        -- intros Hall v rv Hv. apply Hall. lia.
      * split.
        -- intros Hnone. destruct (Hnz Hc) as [? Hsome]. congruence.
        -- intros Hall. destruct Hc. apply (Hall k row); [lia|done].
  - destruct Hres as (-> & Hheap & Hlt). split; [done|]. split.
    + repeat split; try congruence. intros X ??. rewrite Hheap. by apply Hh0.
    + by exists k, row.
Qed.

(** The whole loop over the users. *)
Lemma users_loop c A Xtr Xtst w0 :
  Xtr ≠ Xtst →
  heap w0 !! Xtr = Some A → heap w0 !! Xtst = Some A →
  match for_each (seq 0 (length A))
          (split_user Xtr Xtst (count_nonzero <$> A)
             ((λ r, (Z.of_nat r * c) `div` 100)%Z <$> (count_nonzero <$> A)))
          (Locals None None None) w0 with
  | (Ok l', w') => users_done c A Xtr Xtst w0 (length A) l' w'
  | (Raise e, w') => users_failed c A Xtr Xtst w0 e w'
  end.
Proof.
  intros Hne HTr HTs.
  apply (for_each_seq_inv (users_done c A Xtr Xtst w0)
           (users_failed c A Xtr Xtst w0) _ (length A) 0).
  - split; [by repeat split|]. split; [|split].
    + exists A, A. repeat split; try done.
      all: try (intros v row Hv; by rewrite decide_False by lia).
    + lia.
    + split; [intros _ v row; lia|done].
  - intros k l w Hk Hinv. apply users_done_step; [done|lia|done].
Qed.
End Runs.

(** ** int64 arithmetic *)

Lemma int64_range z : (- 2 ^ 63 ≤ int64 z < 2 ^ 63)%Z.
Proof.
  unfold int64.
  assert (Hm : (2 ^ 64 = 2 * 2 ^ 63)%Z) by reflexivity.
  assert (Hp : (0 < 2 ^ 63)%Z) by reflexivity.
  pose proof (Z.mod_pos_bound (z + 2 ^ 63) (2 ^ 64)) as Hb.
  rewrite Hm in *. generalize dependent (2 ^ 63)%Z. intros h. lia.
Qed.

Lemma is_int64_spec z : Is_true (is_int64 z) ↔ (- 2 ^ 63 ≤ z < 2 ^ 63)%Z.
Proof.
  unfold is_int64. split.
  - intros Hz. exact (bool_decide_unpack _ Hz).
  - intros Hz. exact (bool_decide_pack _ Hz).
Qed.

Lemma int64_id z : (- 2 ^ 63 ≤ z < 2 ^ 63)%Z → int64 z = z.
Proof.
  intros Hz. unfold int64.
  assert (Hm : (2 ^ 64 = 2 * 2 ^ 63)%Z) by reflexivity.
  rewrite Hm in *. generalize dependent (2 ^ 63)%Z. intros h Hz.
  rewrite Z.mod_small by lia. lia.
Qed.

Lemma int64_add_l a b : int64 (int64 a + b) = int64 (a + b).
Proof.
  unfold int64.
  replace ((a + 2 ^ 63) `mod` 2 ^ 64 - 2 ^ 63 + b + 2 ^ 63)%Z
    with ((a + 2 ^ 63) `mod` 2 ^ 64 + b)%Z by lia.
  replace (a + b + 2 ^ 63)%Z with ((a + 2 ^ 63) + b)%Z by lia.
  by rewrite Zplus_mod_idemp_l.
Qed.

Lemma int64_rating {User Item} (r : Row User Item) : int64 (rating r) = rating r.
Proof. apply int64_id, is_int64_spec, rating_int64. Qed.

(** ** Coordinate entries summed into a dense matrix *)

Lemma cell_zeros m n u i : u < m → i < n → cell (zeros m n) u i = Some 0%Z.
Proof.
  intros Hu Hi. unfold cell, zeros.
  rewrite lookup_replicate_2 by done. simpl. by rewrite lookup_replicate_2.
Qed.

Lemma length_add_entry M e : length (add_entry M e) = length M.
Proof. unfold add_entry. by rewrite length_alter. Qed.

Lemma length_foldl_add_entry es M : length (foldl add_entry M es) = length M.
Proof.
  revert M. induction es as [|e es IH]; intros M; [done|].
  simpl. by rewrite IH, length_add_entry.
Qed.

Lemma widths_add_entry n M e :
  Forall (λ r, length r = n) M → Forall (λ r, length r = n) (add_entry M e).
Proof.
  intros HM. unfold add_entry. apply Forall_lookup. intros k r Hk.
  destruct (decide (e.1.1 = k)) as [<-|Hne].
  - rewrite list_lookup_alter_eq in Hk.
    destruct (M !! e.1.1) as [r0|] eqn:Hr0; [|done]. injection Hk as <-.
    rewrite length_alter. by eapply (Forall_lookup_1 _ _ _ _ HM).
  - rewrite list_lookup_alter_ne in Hk by done.
    by eapply (Forall_lookup_1 _ _ _ _ HM).
Qed.

Lemma widths_foldl_add_entry n es M :
  Forall (λ r, length r = n) M →
  Forall (λ r, length r = n) (foldl add_entry M es).
Proof.
  revert M. induction es as [|e es IH]; intros M HM; [done|].
  simpl. by apply IH, widths_add_entry.
Qed.

Lemma cell_add_entry M e u i :
  cell (add_entry M e) u i
  = if decide (e.1 = (u, i)) then (λ x, int64 (x + e.2)) <$> cell M u i
    else cell M u i.
Proof.
  destruct e as [[eu ei] r]. unfold cell, add_entry. simpl.
  destruct (decide (eu = u)) as [->|Hu].
  - rewrite list_lookup_alter_eq. destruct (M !! u) as [row|]; simpl.
    + destruct (decide (ei = i)) as [->|Hi].
      * rewrite list_lookup_alter_eq. by rewrite decide_True.
      * rewrite list_lookup_alter_ne by done.
        rewrite decide_False; [done|congruence].
    + by destruct (decide _).
  - rewrite list_lookup_alter_ne by done.
    rewrite decide_False; [done|congruence].
Qed.

Lemma cell_foldl_add_entry es M u i x :
  cell M u i = Some x → (- 2 ^ 63 ≤ x < 2 ^ 63)%Z →
  cell (foldl add_entry M es) u i = Some (int64 (x + key_sum es u i)).
Proof.
  revert M x. induction es as [|e es IH]; intros M x Hx Hr.
  - unfold key_sum. simpl. rewrite Hx. f_equal.
    unfold Zsum. simpl. rewrite Z.add_0_r. by rewrite int64_id.
  - simpl. unfold key_sum, Zsum. rewrite filter_cons.
    destruct (decide (e.1 = (u, i))) as [He|He].
    + rewrite (IH _ (int64 (x + e.2))).
      * rewrite int64_add_l. rewrite fmap_cons. cbn [foldr].
        unfold key_sum, Zsum. f_equal. f_equal. lia.
      * rewrite cell_add_entry, decide_True by done. by rewrite Hx.
      * apply int64_range.
    + apply IH; [|done]. rewrite cell_add_entry, decide_False by done. done.
Qed.

Lemma zip3_fmap {R A B C} (f : R → A) (g : R → B) (h : R → C) (l : list R) :
  zip3 (f <$> l) (g <$> l) (h <$> l) = (λ r, (f r, g r, h r)) <$> l.
Proof.
  induction l as [|r l IH]; [done|]. unfold zip3 in *.
  rewrite !fmap_cons. simpl. f_equal. exact IH.
Qed.

Lemma coo_entries_Some (ts : list (option nat * option nat * Z)) es :
  coo_entries ts = Some es ↔ ts = (λ e, (Some e.1.1, Some e.1.2, e.2)) <$> es.
Proof.
  revert es. induction ts as [|[[[u|] [i|]] r] ts IH]; intros es; simpl.
  - split; [by intros [= <-]|]. by destruct es.
  - destruct (coo_entries ts) as [l|] eqn:Hl.
    + split.
      * intros [= <-]. simpl. f_equal. by apply IH.
      * destruct es as [|[[u' i'] r'] es]; [done|]. simpl.
        intros [= -> -> -> Hts]. f_equal. f_equal.
        apply IH in Hts. congruence.
    + split; [done|]. destruct es as [|[[u' i'] r'] es]; [done|]. simpl.
      intros [= -> -> -> Hts]. apply IH in Hts. congruence.
  - split; [done|]. by destruct es as [|[[??]?]?].
  - split; [done|]. by destruct es as [|[[??]?]?].
  - split; [done|]. by destruct es as [|[[??]?]?].
Qed.

Lemma key_sum_coo_sum data row col es u i :
  zip3 row col data = (λ e, (Some e.1.1, Some e.1.2, e.2)) <$> es →
  key_sum es u i = coo_sum data row col u i.
Proof.
  intros Hz. unfold key_sum, coo_sum. rewrite Hz. clear Hz.
  induction es as [|[[eu ei] r] es IH]; [done|].
  rewrite fmap_cons, !filter_cons.
  destruct (decide ((eu, ei, r).1 = (u, i))) as [He|He]; simpl in He.
  - injection He as -> ->. rewrite decide_True by done.
    rewrite !fmap_cons. unfold Zsum in *. cbn [foldr snd]. f_equal. exact IH.
  - rewrite decide_False; [exact IH|]. simpl. congruence.
Qed.

(** What [coo_matrix(...).toarray()] returns when it returns: a matrix of
    the requested shape in which every cell holds the int64 sum of the data
    given for it. *)
Lemma coo_matrix_toarray_Ok data row col m n M :
  coo_matrix_toarray data row col (m, n) = Ok M →
  length M = m ∧ Forall (λ r, length r = n) M ∧
  ∀ u i, u < m → i < n →
    cell M u i = Some (int64 (coo_sum data row col u i)).
Proof.
  unfold coo_matrix_toarray. simpl.
  destruct (bool_decide _); simpl; [|done].
  destruct (coo_entries _) as [es|] eqn:Hes; [|done].
  do 2 (destruct (forallb _ es); simpl; [|done]).
  intros [= <-]. apply coo_entries_Some in Hes.
  split; [|split].
  - rewrite length_foldl_add_entry. unfold zeros. by rewrite length_replicate.
  - apply widths_foldl_add_entry. unfold zeros.
    apply Forall_replicate, length_replicate.
  - intros u i Hu Hi.
    rewrite (cell_foldl_add_entry _ _ _ _ 0%Z); [| by apply cell_zeros | done].
    by rewrite Z.add_0_l, (key_sum_coo_sum data row col es).
Qed.

(** ** Index generation and matrix construction *)

Section Pipeline.
Context {User Item : Type} `{Countable User} `{Countable Item}.
Context {Rnd : PyRandom} {Srt : SortValues User Item}.

Implicit Types w : world (User:=User) (Item:=Item).
Implicit Types d : list (Row User Item).

Lemma gen_index_run w :
  gen_index w
  = (Ok tt, World (indexed (self w)) (heap w) (np_random w) (py_random w)
                  (stdout w)).
Proof. reflexivity. Qed.

(** The indices the forward dictionaries give to the rows of the table. *)
Lemma forward_lookup {A} `{Countable A} (l : list A) x :
  x ∈ l →
  ∃ i, dict_of ((λ ix, (ix.2, ix.1)) <$> enumerate (unique l)) !! x = Some i ∧
       unique l !! i = Some x ∧ i < length (unique l).
Proof.
  intros Hx. apply elem_of_unique, list_elem_of_lookup in Hx as [i Hi].
  exists i. split; [|split; [done|by eapply lookup_lt_Some]].
  apply dict_of_enumerate_inv; [apply NoDup_unique|done].
Qed.

Lemma affinity_matrix_spec d :
  let rows := sort_values d in
  let users := unique (user <$> rows) in
  let items := unique (item <$> rows) in
  let mu := dict_of ((λ ix, (ix.2, ix.1)) <$> enumerate users) in
  let mi := dict_of ((λ ix, (ix.2, ix.1)) <$> enumerate items) in
  coo_matrix_toarray (rating <$> rows)
    ((λ r, mu !! user r) <$> rows) ((λ r, mi !! item r) <$> rows)
    (length users, length items) = Ok (affinity_matrix d).
Proof.
  intros rows users items mu mi.
  assert (∃ a, coo_matrix_toarray (rating <$> rows)
    ((λ r, mu !! user r) <$> rows) ((λ r, mi !! item r) <$> rows)
    (length users, length items) = Ok a) as [a Ha];
    [|unfold affinity_matrix; fold rows users items mu mi; by rewrite Ha].
  set (pu := λ r : Row User Item, default 0 (mu !! user r)).
  set (pi := λ r : Row User Item, default 0 (mi !! item r)).
  assert (∀ r, r ∈ rows →
            mu !! user r = Some (pu r) ∧ pu r < length users ∧
            mi !! item r = Some (pi r) ∧ pi r < length items) as Hpos.
  { intros r Hr. unfold pu, pi, mu, mi, users, items.
    destruct (forward_lookup (user <$> rows) (user r)) as (u & -> & _ & Hu);
      [by apply list_elem_of_fmap_2|].
    destruct (forward_lookup (item <$> rows) (item r)) as (i & -> & _ & Hi);
      [by apply list_elem_of_fmap_2|].
    done. }
  unfold coo_matrix_toarray. rewrite !length_fmap.
  rewrite bool_decide_true by done. cbn [negb].
  assert (coo_entries (zip3 ((λ r, mu !! user r) <$> rows)
                            ((λ r, mi !! item r) <$> rows) (rating <$> rows))
          = Some ((λ r, (pu r, pi r, rating r)) <$> rows)) as ->.
  { apply coo_entries_Some. rewrite zip3_fmap, <- list_fmap_compose.
    apply list_fmap_ext. intros k r Hr. simpl.
    destruct (Hpos r) as (-> & _ & -> & _); [by eapply list_elem_of_lookup_2|].
    done. }
  assert (∀ P : nat * nat * Z → Prop, ∀ HP : ∀ e, Decision (P e),
            (∀ r, r ∈ rows → P (pu r, pi r, rating r)) →
            forallb (λ e, bool_decide (P e))
              ((λ r, (pu r, pi r, rating r)) <$> rows) = true) as Hall.
  { intros P HP HPr. apply forallb_forall. intros e He.
    apply list_elem_of_In, list_elem_of_fmap in He as (r & -> & Hr).
    apply bool_decide_eq_true. by apply HPr. }
  rewrite (Hall (λ e, e.1.1 < (length users, length items).1));
    [|intros r Hr; by apply Hpos].
  rewrite (Hall (λ e, e.1.2 < (length users, length items).2));
    [|intros r Hr; by apply Hpos].
  eauto.
Qed.

Lemma affinity_matrix_shape d :
  length (affinity_matrix d) = length (unique (user <$> sort_values d)) ∧
  Forall (λ r, length r = length (unique (item <$> sort_values d)))
         (affinity_matrix d).
Proof.
  pose proof (affinity_matrix_spec d) as Hspec. simpl in Hspec.
  apply coo_matrix_toarray_Ok in Hspec as (? & ? & _). done.
Qed.

Lemma sort_values_nil d : sort_values d = [] ↔ d = [].
Proof.
  split.
  - intros Hs. apply Permutation_nil. rewrite <- Hs. apply sort_values_perm.
  - intros ->. apply Permutation_nil. symmetry. apply sort_values_perm.
Qed.

Lemma unique_column_nil {A} `{Countable A} (f : Row User Item → A) d :
  length (unique (f <$> sort_values d)) = 0 ↔ d = [].
Proof.
  rewrite length_zero_iff_nil, unique_nil, <- sort_values_nil.
  split; [apply fmap_nil_inv|by intros ->].
Qed.

Lemma affinity_matrix_nil d : affinity_matrix d = [] ↔ d = [].
Proof.
  rewrite <- length_zero_iff_nil.
  destruct (affinity_matrix_shape d) as [-> _].
  apply unique_column_nil.
Qed.

(** [gen_affinity_matrix] after [gen_index]: the matrix is stored in a new
    array and assigned to [self.AM]; then the sparsity line is printed,
    which fails when the matrix has no cell. *)
Lemma gen_affinity_matrix_run w :
  ∃ line,
    (gen_index ;; gen_affinity_matrix) w
    = if decide (df (self w) = [])
      then (Raise (ValueError "cannot convert float NaN to integer"), built w)
      else (Ok tt, printed (built w) line).
Proof.
  eexists. rewrite bind_run, gen_index_run.
  unfold gen_affinity_matrix. mrun. cbn [self indexed df_ map_items map_users].
  rewrite !length_fmap, !bool_decide_true by done. cbn [andb].
  cbn [Nusers Nitems indexed].
  rewrite (affinity_matrix_spec (df (self w))).
  unfold np_alloc, set_AM. mrun. cbn [self heap np_random py_random stdout].
  unfold print_sparsness.
  cbn [fst snd self heap np_random py_random stdout].
  destruct (decide (df (self w) = [])) as [Hd|Hd].
  - rewrite bool_decide_true; [done|].
    by rewrite (proj2 (unique_column_nil user _) Hd).
  - rewrite bool_decide_false; [reflexivity|].
    intros Hz. apply Hd.
    apply Nat.eq_mul_0 in Hz as [Hz|Hz]; by apply unique_column_nil in Hz.
Qed.
End Pipeline.

(** ** The table of the non-zero cells *)

Lemma take_cells_in_range (cols : list nat) (row : list Z) :
  Forall (λ i, i < length row) cols →
  take_cells cols row = (λ i, default 0%Z (row !! i)) <$> cols.
Proof.
  unfold take_cells. induction 1 as [|i cols Hi _ IH]; [done|].
  destruct (lookup_lt_is_Some_2 row i Hi) as [x Hx].
  cbn [omap list_omap]. rewrite Hx, fmap_cons, Hx. simpl. f_equal. exact IH.
Qed.

Lemma take_cells_nonzero (row : list Z) :
  take_cells (nonzero row) row = (λ i, default 0%Z (row !! i)) <$> nonzero row.
Proof.
  apply take_cells_in_range, Forall_forall. intros i Hi.
  apply elem_of_nonzero in Hi as (x & Hx & _). by eapply lookup_lt_Some.
Qed.

Lemma zip3_app {A B C} (a1 a2 : list A) (b1 b2 : list B) (c1 c2 : list C) :
  length a1 = length b1 → length a1 = length c1 →
  zip3 (a1 ++ a2) (b1 ++ b2) (c1 ++ c2) = zip3 a1 b1 c1 ++ zip3 a2 b2 c2.
Proof.
  intros Hb Hc. unfold zip3. rewrite !zip_with_app; [done| |done].
  by rewrite length_zip_with, <- Hb, Nat.min_id.
Qed.

Lemma zip3_replicate (u : nat) (cols : list nat) (vals : list Z) :
  zip3 (replicate (length cols) u) cols vals
  = zip ((λ i, (u, i)) <$> cols) vals.
Proof.
  unfold zip3. f_equal. induction cols as [|i cols IH]; [done|].
  simpl. by rewrite IH.
Qed.

Lemma sparse_rows_from (n : nat) (x : list (list Z)) :
  zip3 (mjoin (imap (λ i its, replicate (length its) (n + i)) (nonzero <$> x)))
       (mjoin (nonzero <$> x))
       (mjoin ((λ r, take_cells (nonzero r) r) <$> x))
  = mjoin (imap (λ u, row_block (n + u)) x).
Proof.
  revert n. induction x as [|row x IH]; intros n; [done|].
  rewrite !fmap_cons, !imap_cons. cbn [mjoin list_join].
  rewrite zip3_app; cycle 1.
  { by rewrite length_replicate. }
  { by rewrite length_replicate, take_cells_nonzero, length_fmap. }
  f_equal.
  - rewrite Nat.add_0_r, zip3_replicate, take_cells_nonzero. unfold row_block.
    by rewrite zip_with_fmap_l, zip_with_fmap_r, zip_with_diag.
  - rewrite (imap_ext ((λ i (its : list nat), replicate (length its) (n + i)) ∘ S)
               (λ i its, replicate (length its) (S n + i)))
      by (intros; simpl; f_equal; lia).
    rewrite (imap_ext ((λ u, row_block (n + u)) ∘ S) (λ u, row_block (S n + u)))
      by (intros; simpl; f_equal; lia).
    apply IH.
Qed.

Lemma sparse_rows_blocks (x : list (list Z)) :
  sparse_rows x = mjoin (imap row_block x).
Proof. exact (sparse_rows_from 0 x). Qed.

Lemma elem_of_row_block (u : nat) (row : list Z) (t : nat * nat * Z) :
  t ∈ row_block u row ↔ t.1.1 = u ∧ row !! t.1.2 = Some t.2 ∧ t.2 ≠ 0%Z.
Proof.
  unfold row_block. rewrite list_elem_of_fmap. split.
  - intros (i & -> & Hi). apply elem_of_nonzero in Hi as (x & Hx & Hne).
    simpl. by rewrite Hx.
  - destruct t as [[u' i] r]. simpl. intros (-> & Hr & Hne).
    exists i. rewrite Hr. split; [done|]. apply elem_of_nonzero. eauto.
Qed.

(** The table has exactly the non-zero cells of the matrix. *)
Lemma elem_of_sparse_rows (x : list (list Z)) (u i : nat) (r : Z) :
  (u, i, r) ∈ sparse_rows x ↔ cell x u i = Some r ∧ r ≠ 0%Z.
Proof.
  rewrite sparse_rows_blocks, list_elem_of_join. unfold cell. split.
  - intros (l & Hl & Hin). apply elem_of_lookup_imap in Hin as (u' & row & -> & Hrow).
    apply elem_of_row_block in Hl as (<- & Hr & Hne). simpl in *.
    by rewrite Hrow.
  - intros [Hc Hne]. destruct (x !! u) as [row|] eqn:Hrow; [|done].
    exists (row_block u row). split.
    + apply elem_of_row_block. done.
    + by apply (elem_of_lookup_imap_2 row_block x row u).
Qed.

Lemma NoDup_row_block (u : nat) (row : list Z) :
  NoDup ((λ t, t.1) <$> row_block u row).
Proof.
  unfold row_block. rewrite <- list_fmap_compose.
  apply NoDup_fmap_2_strong; [|apply NoDup_nonzero].
  intros i j _ _ [= ->]. done.
Qed.

Lemma NoDup_blocks_from (n : nat) (x : list (list Z)) :
  NoDup ((λ t, t.1) <$> mjoin (imap (λ u, row_block (n + u)) x)) ∧
  ∀ t, t ∈ mjoin (imap (λ u, row_block (n + u)) x) → n ≤ t.1.1.
Proof.
  revert n. induction x as [|row x IH]; intros n.
  - split; [constructor|]. by intros t ?%elem_of_nil.
  - rewrite imap_cons. cbn [mjoin list_join].
    rewrite (imap_ext ((λ u, row_block (n + u)) ∘ S) (λ u, row_block (S n + u)))
      by (intros; simpl; f_equal; lia).
    destruct (IH (S n)) as [Hnd Hge]. split.
    + rewrite fmap_app. apply NoDup_app. split; [apply NoDup_row_block|].
      split; [|done]. intros k Hk Hk'.
      apply list_elem_of_fmap in Hk as (t & -> & Ht).
      apply list_elem_of_fmap in Hk' as (t' & Heq & Ht').
      apply elem_of_row_block in Ht as (Ht & _). apply Hge in Ht'.
      rewrite Heq in Ht. lia.
    + intros t Ht. apply elem_of_app in Ht as [Ht|Ht].
      * apply elem_of_row_block in Ht as (-> & _). lia.
      * apply Hge in Ht. lia.
Qed.

(** No cell is listed twice. *)
Lemma NoDup_sparse_rows (x : list (list Z)) :
  NoDup ((λ t, t.1) <$> sparse_rows x).
Proof. rewrite sparse_rows_blocks. apply (NoDup_blocks_from 0 x). Qed.

Lemma length_blocks_from (n : nat) (x : list (list Z)) :
  length (mjoin (imap (λ u, row_block (n + u)) x))
  = sum_list (count_nonzero <$> x).
Proof.
  revert n. induction x as [|row x IH]; intros n; [done|].
  rewrite imap_cons, fmap_cons. cbn [mjoin list_join sum_list sum_list_with].
  rewrite length_app.
  rewrite (imap_ext ((λ u, row_block (n + u)) ∘ S) (λ u, row_block (S n + u)))
    by (intros; simpl; f_equal; lia).
  rewrite IH. unfold row_block. by rewrite length_fmap, length_nonzero.
Qed.

(** One row per non-zero cell. *)
Lemma length_sparse_rows (x : list (list Z)) :
  length (sparse_rows x) = sum_list (count_nonzero <$> x).
Proof. rewrite sparse_rows_blocks. apply (length_blocks_from 0 x). Qed.

(** ** The stratified split *)

Section Split.
Context {User Item : Type} `{Countable User} `{Countable Item}.
Context {Rnd : PyRandom} {Srt : SortValues User Item}.

Implicit Types w : world (User:=User) (Item:=Item).

Lemma map_back_sparse_run X w mbu mbi :
  map_back_users (self w) = Some mbu → map_back_items (self w) = Some mbi →
  map_back_sparse X w
  = (Ok (map_ids mbu mbi (sparse_rows (default [] (heap w !! X)))), w).
Proof.
  intros Hu Hi. unfold map_back_sparse, np_read. mrun. by rewrite Hu, Hi.
Qed.

Lemma gen_affinity_matrix_after w1 s :
  self w1 = indexed s →
  ∃ line,
    gen_affinity_matrix w1
    = let W := World (with_AM (indexed s) (length (heap w1)))
                     (heap w1 ++ [affinity_matrix (df s)])
                     (np_random w1) (py_random w1) (stdout w1) in
      if decide (df s = [])
      then (Raise (ValueError "cannot convert float NaN to integer"), W)
      else (Ok tt, printed W line).
Proof.
  intros Hs.
  destruct (gen_affinity_matrix_run
              (World s (heap w1) (np_random w1) (py_random w1) (stdout w1)))
    as [line Hrun].
  exists line. rewrite bind_run, gen_index_run in Hrun.
  cbn [self heap np_random py_random stdout] in Hrun.
  destruct w1 as [s1 h1 n1 p1 o1]. simpl in Hs. subst s1. exact Hrun.
Qed.

Lemma copies_run {B} (k : nat → nat → list (list Z) → M B) W a A :
  heap W !! a = Some A →
  (Xtr ← np_copy (User:=User) (Item:=Item) a;
   Xtst ← np_copy (User:=User) (Item:=Item) a;
   xtr ← np_read (User:=User) (Item:=Item) Xtr; k Xtr Xtst xtr) W
  = k (length (heap W)) (S (length (heap W))) A
      (World (self W) (heap W ++ [A; A]) (np_random W) (py_random W)
             (stdout W)).
Proof.
  intros Ha. unfold np_copy, np_read, np_alloc. mrun.
  cbn [self heap np_random py_random stdout].
  rewrite Ha. cbn [default from_option id].
  rewrite (lookup_app_l (heap W) [A] a) by (by eapply lookup_lt_Some).
  rewrite Ha. cbn [default from_option id].
  rewrite <- (app_assoc (heap W) [A] [A]). cbn [app].
  rewrite (list_lookup_middle (heap W) [A] A (length (heap W))) by done.
  cbn [default from_option id]. rewrite length_app. cbn [length].
  by rewrite Nat.add_1_r.
Qed.

Lemma copied_built w seed line :
  copied (printed (built (seeded w seed)) line)
  = World (with_AM (indexed (self w)) (length (heap w)))
          ((heap w ++ [affinity_matrix (df (self w))])
             ++ [affinity_matrix (df (self w)); affinity_matrix (df (self w))])
          (Some seed) (py_random w) (stdout w ++ [line]).
Proof.
  unfold copied, printed, built, seeded.
  cbn [self heap np_random py_random stdout with_AM AM mbind option_bind].
  rewrite list_lookup_middle by done. reflexivity.
Qed.

Lemma stratified_split_run ratio seed w res w' :
  stratified_split ratio seed w = (res, w') →
  if decide (0 ≤ seed < 2 ^ 32)%Z then
    match py_int (test_percent ratio) with
    | Raise e => res = Raise e ∧ w' = seeded w seed
    | Ok c =>
        if decide (df (self w) = []) then
          res = Raise (ValueError "cannot convert float NaN to integer") ∧
          w' = built (seeded w seed)
        else
          ∃ line,
            let w0 := copied (printed (built (seeded w seed)) line) in
            let A := affinity_matrix (df (self w)) in
            let Xtr := S (length (heap w)) in
            let Xtst := S (S (length (heap w))) in
            match res with
            | Raise e =>
                users_failed c A Xtr Xtst w0 e w' ∨
                (e = UnboundLocalError "sub_el" ∧
                 ∃ l, users_done c A Xtr Xtst w0 (length A) l w' ∧
                      sub_el l = None)
            | Ok out =>
                (∃ l, users_done c A Xtr Xtst w0 (length A) l w' ∧
                      is_Some (sub_el l)) ∧
                out = (Xtr, Xtst, table_of w' Xtr, table_of w' Xtst,
                       back_maps (self w'))
            end
    end
  else res = Raise (ValueError "Seed must be between 0 and 2**32 - 1") ∧
       w' = w.
Proof.
  intros Hrun. unfold stratified_split in Hrun.
  rewrite bind_run in Hrun. unfold np_random_seed in Hrun at 1.
  destruct (decide (0 ≤ seed < 2 ^ 32)%Z) as [Hseed|Hseed].
  2:{ rewrite bool_decide_false in Hrun by done. by injection Hrun as <- <-. }
  rewrite bool_decide_true in Hrun by done.
  fold (seeded w seed) in Hrun.
  rewrite bind_run in Hrun. unfold lift in Hrun at 1.
  destruct (py_int (test_percent ratio)) as [c|e].
  2:{ by injection Hrun as <- <-. }
  rewrite bind_run, gen_index_run in Hrun.
  cbv beta iota in Hrun.
  do 3 (rewrite bind_run in Hrun;
        cbv beta iota delta [get_self attr mret M_ret] in Hrun;
        cbn [self indexed map_back_users map_back_items] in Hrun).
  rewrite bind_run in Hrun.
  match type of Hrun with
  | context [gen_affinity_matrix ?w1] =>
      destruct (gen_affinity_matrix_after w1 (self w) eq_refl) as [line Hga];
      rewrite Hga in Hrun; clear Hga
  end.
  cbv zeta in Hrun.
  destruct (decide (df (self w) = [])) as [Hd|Hd].
  { by injection Hrun as <- <-. }
  exists line.
  do 2 (rewrite bind_run in Hrun;
        cbv beta iota delta [get_self attr mret M_ret] in Hrun;
        cbn [self printed with_AM AM] in Hrun).
  cbn [self heap np_random py_random stdout seeded] in Hrun.
  set (A := affinity_matrix (df (self w))) in *.
  erewrite (copies_run _ _ (length (heap w)) A) in Hrun
    by (cbn [heap printed]; by apply list_lookup_middle).
  cbn [self heap np_random py_random stdout printed] in Hrun.
  rewrite bind_run in Hrun.
  cbn [Nusers with_AM indexed] in Hrun.
  cbv beta iota delta [mret M_ret] in Hrun.
  rewrite <- (proj1 (affinity_matrix_shape (df (self w)))) in Hrun.
  fold A in Hrun.
  rewrite bind_run in Hrun.
  rewrite length_app in Hrun. cbn [length] in Hrun.
  rewrite Nat.add_1_r in Hrun.
  cbv zeta. rewrite copied_built. fold A.
  set (Xtr := S (length (heap w))) in *.
  set (Xtst := S (S (length (heap w)))) in *.
  set (W0 := World _ _ _ _ _) in *.
  assert (Xtr ≠ Xtst) as Hne by (unfold Xtr, Xtst; lia).
  assert (heap W0 !! Xtr = Some A) as HXtr.
  { unfold W0, Xtr. cbn [heap].
    rewrite lookup_app_r by (rewrite length_app; simpl; lia).
    rewrite length_app. simpl.
    by replace (S (length (heap w)) - (length (heap w) + 1)) with 0 by lia. }
  assert (heap W0 !! Xtst = Some A) as HXtst.
  { unfold W0, Xtst. cbn [heap].
    rewrite lookup_app_r by (rewrite length_app; simpl; lia).
    rewrite length_app. simpl.
    by replace (S (S (length (heap w))) - (length (heap w) + 1)) with 1 by lia. }
  pose proof (users_loop c A Xtr Xtst W0 Hne HXtr HXtst) as Hloop.
  destruct (for_each _ _ _ W0) as [[l|e] w2].
  2:{ injection Hrun as <- <-. by left. }
  assert (self w2 = self W0) as Hself by apply Hloop.
  assert (0 < length A) as Hpos.
  { destruct A eqn:HA; [|simpl; lia]. by apply affinity_matrix_nil in HA. }
  pose proof Hloop as (Hfr & Hrows & Hloc & Hsub).
  destruct (Hloc Hpos) as [[cand Hidx] [chosen Hidt]].
  rewrite Hidx, Hidt in Hrun.
  destruct (sub_el l) as [el|] eqn:Hel.
  - unfold del in Hrun. mrun_in Hrun.
    erewrite !map_back_sparse_run in Hrun
      by (rewrite Hself; unfold W0; reflexivity).
    injection Hrun as <- <-. split.
    + exists l. split; [exact Hloop|]. rewrite Hel. eauto.
    + unfold table_of, back_maps. rewrite Hself. reflexivity.
  - unfold del in Hrun. mrun_in Hrun. injection Hrun as <- <-.
    right. split; [done|]. exists l. by split.
Qed.
End Split.

(** * Facts shared by the specifications *)

(** ** Sums and sorted lists *)

Lemma Zsum_perm (l k : list Z) : l ≡ₚ k → Zsum l = Zsum k.
Proof. unfold Zsum. induction 1; simpl; lia. Qed.

Lemma StronglySorted_filter {A} (R : relation A) (P : A → Prop)
    `{∀ x, Decision (P x)} (l : list A) :
  StronglySorted R l → StronglySorted R (filter P l).
Proof.
  induction 1 as [|x l Hl IH Hx]; [constructor|].
  rewrite filter_cons. destruct (decide (P x)); [|done].
  constructor; [done|]. apply Forall_forall.
  intros y [_ Hy]%list_elem_of_filter.
  by apply (proj1 (Forall_forall _ _) Hx).
Qed.

Lemma StronglySorted_seq (a n : nat) : StronglySorted lt (seq a n).
Proof.
  revert a. induction n as [|n IH]; intros a; simpl; constructor; [apply IH|].
  apply Forall_forall. intros y Hy%elem_of_seq. lia.
Qed.

(** [np.where] lists the columns in ascending order. *)
Lemma StronglySorted_nonzero (row : list Z) : StronglySorted lt (nonzero row).
Proof. apply StronglySorted_filter, StronglySorted_seq. Qed.

Lemma sorted_row_block (u : nat) (row : list Z) :
  StronglySorted row_major (row_block u row).
Proof.
  unfold row_block.
  apply (StronglySorted_fmap _ lt); [|apply StronglySorted_nonzero].
  intros i j Hij. right. done.
Qed.

Lemma sorted_blocks_from (n : nat) (x : list (list Z)) :
  StronglySorted row_major (mjoin (imap (λ u, row_block (n + u)) x)).
Proof.
  revert n. induction x as [|row x IH]; intros n; [constructor|].
  rewrite imap_cons. cbn [mjoin list_join].
  rewrite (imap_ext ((λ u, row_block (n + u)) ∘ S) (λ u, row_block (S n + u)))
    by (intros; simpl; f_equal; lia).
  apply StronglySorted_app_2; [|apply sorted_row_block|apply IH].
  intros t1 t2 Ht1 Ht2. left.
  apply elem_of_row_block in Ht1 as (Hu & _).
  apply (NoDup_blocks_from (S n) x) in Ht2. lia.
Qed.

(** ** Cells of a split row and of a split matrix *)

(** A cell of a split row keeps its value on one side and is 0 on the
    other. *)
Lemma row_split_cells (row rtr rts : list Z) (k i : nat) :
  row_split row rtr rts k →
  match row !! i with
  | Some a => (rtr !! i = Some a ∧ rts !! i = Some 0%Z) ∨
              (rtr !! i = Some 0%Z ∧ rts !! i = Some a)
  | None => rtr !! i = None ∧ rts !! i = None
  end.
Proof.
  intros (cand & chosen & Hp & _ & -> & ->).
  rewrite !lookup_zero_cells.
  assert (NoDup (cand ++ chosen)) as Hnd by (rewrite Hp; apply NoDup_nonzero).
  apply NoDup_app in Hnd as (_ & Hdis & _).
  assert (i ∈ nonzero row ↔ i ∈ cand ∨ i ∈ chosen) as Hcov
    by (by rewrite <- Hp, elem_of_app).
  rewrite elem_of_nonzero in Hcov.
  destruct (row !! i) as [a|] eqn:Ha; cbn [fmap option_fmap option_map];
    [|done].
  destruct (decide (i ∈ chosen)) as [Hch|Hch];
    destruct (decide (i ∈ cand)) as [Hca|Hca].
  - by destruct (Hdis i Hca).
  - by right.
  - by left.
  - left. split; [done|]. f_equal.
    destruct (decide (a = 0%Z)) as [->|Hne]; [done|].
    destruct (proj1 Hcov) as [?|?]; [eauto|done..].
Qed.

Lemma rows_split_cells (A Tr Ts : list (list Z)) (k : list Z → nat) :
  length Tr = length A → length Ts = length A →
  (∀ v row, A !! v = Some row →
     ∃ rtr rts, Tr !! v = Some rtr ∧ Ts !! v = Some rts ∧
                row_split row rtr rts (k row)) →
  cells_split A Tr Ts.
Proof.
  intros HlTr HlTs Hrows u i. unfold cell.
  destruct (A !! u) as [row|] eqn:Hrow.
  - destruct (Hrows u row Hrow) as (rtr & rts & -> & -> & Hsp).
    cbn [mbind option_bind].
    exact (row_split_cells row rtr rts (k row) i Hsp).
  - apply lookup_ge_None in Hrow. rewrite !lookup_ge_None_2 by lia. done.
Qed.

(** The non-zero cells of a split matrix are those of its two parts. *)
Lemma sparse_rows_split (A Tr Ts : list (list Z)) :
  cells_split A Tr Ts → sparse_rows Tr ++ sparse_rows Ts ≡ₚ sparse_rows A.
Proof.
  intros Hs.
  assert (∀ x, NoDup (sparse_rows x)) as Hnd
    by (intros x; eapply NoDup_fmap_1, NoDup_sparse_rows).
  apply NoDup_Permutation; [|done|].
  - apply NoDup_app. split; [done|]. split; [|done].
    intros [[u i] r] [H1 Hr]%elem_of_sparse_rows [H2 _]%elem_of_sparse_rows.
    specialize (Hs u i). destruct (cell A u i) as [a|].
    + destruct Hs as [[? ?]|[? ?]]; congruence.
    + destruct Hs; congruence.
  - intros [[u i] r]. rewrite elem_of_app, !elem_of_sparse_rows.
    specialize (Hs u i). destruct (cell A u i) as [a|].
    + destruct Hs as [[-> ->]|[-> ->]]; split.
      * intros [[[= ->] ?]|[[= <-] ?]]; done.
      * intros [[= ->] ?]. by left.
      * intros [[[= <-] ?]|[[= ->] ?]]; done.
      * intros [[= ->] ?]. by right.
    + destruct Hs as [-> ->]. split; [intros [[? _]|[? _]]; done|].
      intros [? _]; done.
Qed.

Section Facts.
Context {User Item : Type} `{Countable User} `{Countable Item}.
Context {Rnd : PyRandom} {Srt : SortValues User Item}.

Implicit Types w : world (User:=User) (Item:=Item).
Implicit Types d : list (Row User Item).

Lemma unique_index_bijection {A} `{Countable A} (ids l : list A) :
  l ≡ₚ ids →
  index_bijection ids
    (dict_of ((λ ix, (ix.2, ix.1)) <$> enumerate (unique l)))
    (dict_of (enumerate (unique l))) (length (unique l)).
Proof.
  intros Hp. set (L := unique l).
  assert (NoDup L) as Hnd by apply NoDup_unique.
  assert (∀ x i, dict_of ((λ ix, (ix.2, ix.1)) <$> enumerate L) !! x = Some i
                 ↔ L !! i = Some x) as Hfw
    by (intros; by apply dict_of_enumerate_inv).
  assert (∀ i, dict_of (enumerate L) !! i = L !! i) as Hbw
    by apply dict_of_enumerate.
  assert (∀ x, x ∈ L ↔ x ∈ ids) as Hin
    by (intros x; unfold L; by rewrite elem_of_unique, Hp).
  repeat split.
  - intros x Hx. apply Hin, list_elem_of_lookup in Hx as [i Hi].
    exists i. by rewrite Hfw, Hbw.
  - intros Hi. destruct (lookup_lt_is_Some_2 L i Hi) as [x Hx].
    exists x. by apply Hfw.
  - intros [x Hx]. apply Hfw in Hx. by eapply lookup_lt_Some.
  - intros x y i Hx%Hfw Hy%Hfw. congruence.
  - intros Hx. by rewrite Hbw, <- Hfw.
  - intros Hx. by rewrite Hfw, <- Hbw.
  - unfold L. rewrite length_unique. f_equal. apply set_eq. intros x.
    by rewrite !elem_of_list_to_set, Hp.
  - apply set_eq. intros x. rewrite elem_of_dom, elem_of_list_to_set, <- Hin.
    rewrite list_elem_of_lookup. unfold is_Some.
    split; intros [i Hi]; exists i; by apply Hfw.
Qed.

(** What a split row looks like: the train and the test row share no
    non-zero column, together they have those of the source row, and the
    test row has the requested number of them. *)
Lemma row_split_spec (row rtr rts : list Z) (k : nat) :
  row_split row rtr rts k →
  nonzero_set rtr ## nonzero_set rts ∧
  nonzero_set rtr ∪ nonzero_set rts = nonzero_set row ∧
  count_nonzero rtr + count_nonzero rts = count_nonzero row ∧
  count_nonzero rts = k.
Proof.
  intros (cand & chosen & Hp & Hlen & -> & ->).
  assert (NoDup (cand ++ chosen)) as Hnd by (rewrite Hp; apply NoDup_nonzero).
  apply NoDup_app in Hnd as (_ & Hdis & _).
  assert (∀ i, i ∈ nonzero row ↔ i ∈ cand ∨ i ∈ chosen) as Hcov
    by (intros i; by rewrite <- Hp, elem_of_app).
  unfold nonzero_set. repeat split.
  - intros i. rewrite !elem_of_list_to_set, !elem_of_nonzero_zero_cells, !Hcov.
    intros [[?|?] ?] [[?|?] ?]; done.
  - apply set_eq. intros i.
    rewrite elem_of_union, !elem_of_list_to_set,
      !elem_of_nonzero_zero_cells, !Hcov.
    split; [tauto|]. intros [Hi|Hi].
    + left. split; [tauto|]. by apply Hdis.
    + right. split; [tauto|]. intros Hi'. by apply (Hdis i).
  - by apply count_nonzero_split.
  - destruct (nonzero_zero_cells_perm _ _ _ Hp) as [_ H2].
    by rewrite <- length_nonzero, H2.
Qed.

(** The world at the end of the loop over the users, seen from the world
    the call started in. *)
Lemma same_but_from_start w seed line w' :
  same_but (S (length (heap w))) (S (S (length (heap w))))
           (copied (printed (built (seeded w seed)) line)) w' →
  self w' = with_AM (indexed (self w)) (length (heap w)) ∧
  (∀ X, X < length (heap w) → heap w' !! X = heap w !! X) ∧
  heap w' !! length (heap w) = Some (affinity_matrix (df (self w))).
Proof.
  rewrite copied_built. intros (Hs & _ & _ & _ & Hh). cbn [self heap] in *.
  split; [done|]. split.
  - intros X HX. rewrite Hh by lia. rewrite <- app_assoc.
    by rewrite lookup_app_l.
  - rewrite Hh by lia. rewrite <- app_assoc. by apply list_lookup_middle.
Qed.

(** The successful runs of [stratified_split]. *)
Lemma stratified_split_Ok ratio seed w out w' :
  stratified_split ratio seed w = (Ok out, w') →
  ∃ c l line,
    (0 ≤ seed < 2 ^ 32)%Z ∧ py_int (test_percent ratio) = Ok c ∧
    df (self w) ≠ [] ∧
    users_done c (affinity_matrix (df (self w))) (S (length (heap w)))
      (S (S (length (heap w))))
      (copied (printed (built (seeded w seed)) line))
      (length (affinity_matrix (df (self w)))) l w' ∧
    is_Some (sub_el l) ∧
    out = (S (length (heap w)), S (S (length (heap w))),
           table_of w' (S (length (heap w))),
           table_of w' (S (S (length (heap w)))), back_maps (self w')).
Proof.
  intros Hrun. apply stratified_split_run in Hrun.
  destruct (decide (0 ≤ seed < 2 ^ 32)%Z); [|by destruct Hrun].
  destruct (py_int (test_percent ratio)) as [c|e]; [|by destruct Hrun].
  destruct (decide (df (self w) = [])); [by destruct Hrun|].
  destruct Hrun as (line & (l & Hdone & Hsub) & ->).
  by exists c, l, line.
Qed.

(** The world in which the matrix has just been built. *)
Lemma built_facts w :
  AM (self ((gen_index ;; gen_affinity_matrix) w).2) = Some (length (heap w)) ∧
  heap ((gen_index ;; gen_affinity_matrix) w).2 !! length (heap w)
  = Some (affinity_matrix (df (self w))).
Proof.
  destruct (gen_affinity_matrix_run w) as [line ->].
  destruct (decide (df (self w) = [])); cbn [snd printed built self heap AM with_AM];
    (split; [done|by apply list_lookup_middle]).
Qed.

Lemma test_count_bounds (c : Z) (row : list Z) :
  (0 ≤ c ≤ 100)%Z →
  (0 ≤ test_count c row ≤ Z.of_nat (count_nonzero row))%Z ∧
  ((c < 100)%Z → 0 < count_nonzero row →
   (test_count c row < Z.of_nat (count_nonzero row))%Z).
Proof.
  intros Hc. unfold test_count. split; [split|].
  - apply Z.div_pos; nia.
  - apply Z.div_le_upper_bound; nia.
  - intros Hlt Hpos. apply Z.div_lt_upper_bound; nia.
Qed.

Lemma filter_none {A} (P : A → Prop) `{∀ x, Decision (P x)} (l : list A) :
  (∀ x, x ∈ l → ¬ P x) → filter P l = [].
Proof.
  induction l as [|a l IH]; intros Hno; [done|].
  rewrite filter_cons_False by (apply Hno; left).
  apply IH. intros x Hx. apply Hno. by right.
Qed.

(** Two rows with the same user, item and rating are the same row. *)
Lemma Row_eq (a b : Row User Item) :
  user a = user b → item a = item b → rating a = rating b → a = b.
Proof.
  destruct a as [x1 y1 r1 p1], b as [x2 y2 r2 p2]. simpl.
  intros -> -> ->. f_equal. apply proof_irrel.
Qed.

(** In a table without duplicate (user, item) pairs a row is the only one
    with its pair. *)
Lemma filter_key_unique d (r0 : Row User Item) :
  NoDup ((λ r, (user r, item r)) <$> d) → r0 ∈ d →
  filter (λ r, user r = user r0 ∧ item r = item r0) d = [r0].
Proof.
  induction d as [|a d IH]; intros Hnd Hin; [by apply elem_of_nil in Hin|].
  rewrite fmap_cons in Hnd. apply NoDup_cons in Hnd as [Ha Hnd].
  assert (∀ r, r ∈ d → ¬ (user r = user a ∧ item r = item a)) as Hfresh.
  { intros r Hr [Hu Hi]. apply Ha.
    apply list_elem_of_fmap. exists r. by rewrite Hu, Hi. }
  apply elem_of_cons in Hin as [->|Hin].
  - rewrite filter_cons_True by done. f_equal. by apply filter_none.
  - rewrite filter_cons_False; [by apply IH|].
    intros [Hu Hi]. by apply (Hfresh r0).
Qed.

Lemma coo_sum_rows (f : Row User Item → option nat * option nat * Z)
    (Q : Row User Item → Prop) `{∀ r, Decision (Q r)} (u i : nat) d :
  (∀ r, r ∈ d → (f r).1 = (Some u, Some i) ↔ Q r) →
  Zsum (snd <$> filter (λ t, t.1 = (Some u, Some i)) (f <$> d))
  = Zsum ((λ r, (f r).2) <$> filter Q d).
Proof.
  induction d as [|a d IH]; intros HQ; [done|].
  rewrite fmap_cons, !filter_cons.
  specialize (IH (λ r Hr, HQ r (list_elem_of_further _ _ _ Hr))).
  destruct (decide ((f a).1 = (Some u, Some i))) as [Ha|Ha];
    destruct (decide (Q a)) as [Ha'|Ha'].
  - rewrite !fmap_cons. unfold Zsum in *. cbn [foldr]. by rewrite IH.
  - destruct Ha'. apply HQ; [left|done].
  - destruct Ha. apply HQ; [left|done].
  - exact IH.
Qed.

(** The cell of the affinity matrix at the indices of a user and an item
    holds the int64 sum of the ratings of the rows of that user and item. *)
Lemma affinity_matrix_cell d u i x y :
  unique (user <$> sort_values d) !! u = Some x →
  unique (item <$> sort_values d) !! i = Some y →
  cell (affinity_matrix d) u i
  = Some (int64 (Zsum (rating <$> filter (λ r, user r = x ∧ item r = y)
                                         (sort_values d)))).
Proof.
  intros Hu Hi. pose proof (affinity_matrix_spec d) as Hspec. cbv zeta in Hspec.
  apply coo_matrix_toarray_Ok in Hspec as (_ & _ & Hcell).
  rewrite Hcell by (by eapply lookup_lt_Some).
  f_equal. f_equal. unfold coo_sum. rewrite zip3_fmap.
  rewrite (coo_sum_rows _ (λ r, user r = x ∧ item r = y)); [done|].
  intros r Hr. cbn [fst]. split.
  - intros [= Hru Hri].
    apply dict_of_enumerate_inv in Hru; [|apply NoDup_unique].
    apply dict_of_enumerate_inv in Hri; [|apply NoDup_unique].
    split; congruence.
  - intros [<- <-]. f_equal; apply dict_of_enumerate_inv;
      done || apply NoDup_unique.
Qed.

(** A non-zero cell of the affinity matrix lies within its shape. *)
Lemma affinity_matrix_cell_in_range d u i r :
  cell (affinity_matrix d) u i = Some r →
  ∃ x y, unique (user <$> sort_values d) !! u = Some x ∧
         unique (item <$> sort_values d) !! i = Some y.
Proof.
  unfold cell. intros Hc.
  destruct (affinity_matrix d !! u) as [row|] eqn:Hrow; [|done]. simpl in Hc.
  destruct (affinity_matrix_shape d) as [Hlen Hwid].
  destruct (lookup_lt_is_Some_2 (unique (user <$> sort_values d)) u) as [x Hx].
  { rewrite <- Hlen. by eapply lookup_lt_Some. }
  destruct (lookup_lt_is_Some_2 (unique (item <$> sort_values d)) i) as [y Hy].
  { rewrite <- (Forall_lookup_1 _ _ _ _ Hwid Hrow). by eapply lookup_lt_Some. }
  eauto.
Qed.

(** The inverse mapping of the affinity matrix of a table without
    duplicate (user, item) pairs and without zero ratings is the table, up
    to the order of the rows. *)
Lemma round_trip_pure d :
  NoDup ((λ r, (user r, item r)) <$> d) →
  Forall (λ r, rating r ≠ 0%Z) d →
  map_ids (dict_of (enumerate (unique (user <$> sort_values d))))
          (dict_of (enumerate (unique (item <$> sort_values d))))
          (sparse_rows (affinity_matrix d))
  ≡ₚ to_out <$> d.
Proof.
  intros Hnd Hnz.
  set (rows := sort_values d).
  set (users := unique (user <$> rows)). set (items := unique (item <$> rows)).
  assert (NoDup ((λ r, (user r, item r)) <$> rows)) as Hndr
    by (unfold rows; by rewrite sort_values_perm).
  assert (∀ r, r ∈ rows ↔ r ∈ d) as Hrows
    by (intros r; unfold rows; by rewrite sort_values_perm).
  assert (∀ u i r, (u, i, r) ∈ sparse_rows (affinity_matrix d) →
            ∃ r0, r0 ∈ rows ∧ users !! u = Some (user r0) ∧
                  items !! i = Some (item r0) ∧ r = rating r0) as Hcells.
  { intros u i r [Hc Hr]%elem_of_sparse_rows.
    destruct (affinity_matrix_cell_in_range d u i r Hc) as (x & y & Hx & Hy).
    rewrite (affinity_matrix_cell d u i x y Hx Hy) in Hc. injection Hc as Hc.
    destruct (filter (λ r, user r = x ∧ item r = y) (sort_values d))
      as [|r0 l] eqn:Hf; [done|].
    assert (r0 ∈ rows ∧ user r0 = x ∧ item r0 = y) as (Hr0 & <- & <-).
    { assert (r0 ∈ filter (λ r, user r = x ∧ item r = y) (sort_values d)) as Hin
        by (rewrite Hf; left).
      apply list_elem_of_filter in Hin. tauto. }
    pose proof (filter_key_unique rows r0 Hndr Hr0) as Hk. unfold rows in Hk.
    rewrite Hk in Hf. injection Hf as <-.
    exists r0. repeat split; try done. unfold Zsum in Hc. simpl in Hc.
    rewrite Z.add_0_r, int64_rating in Hc. done. }
  unfold map_ids. apply NoDup_Permutation.
  - apply NoDup_fmap_2_strong;
      [|eapply NoDup_fmap_1, NoDup_sparse_rows].
    intros [[u1 i1] r1] [[u2 i2] r2] H1 H2. cbn [fst snd].
    rewrite !dict_of_enumerate. intros [= Hu Hi ->].
    destruct (Hcells _ _ _ H1) as (a & _ & Ha & Ha' & _).
    destruct (Hcells _ _ _ H2) as (b & _ & Hb & Hb' & _).
    fold users items in Hu, Hi. rewrite Ha, Hb in Hu. rewrite Ha', Hb' in Hi.
    injection Hu as Hu. injection Hi as Hi. rewrite Hu in Ha. rewrite Hi in Ha'.
    assert (u1 = u2) as ->
      by (eapply NoDup_lookup; [|exact Ha|exact Hb]; apply NoDup_unique).
    assert (i1 = i2) as ->
      by (eapply NoDup_lookup; [|exact Ha'|exact Hb']; apply NoDup_unique).
    done.
  - apply NoDup_fmap_2_strong; [|by eapply NoDup_fmap_1].
    intros a b _ _. unfold to_out. intros [= Hu Hi Hr]. by apply Row_eq.
  - intros o. rewrite !list_elem_of_fmap. split.
    + intros ([[u i] r] & -> & Ht). cbn [fst snd].
      destruct (Hcells u i r Ht) as (r0 & Hr0 & Hu & Hi & ->).
      exists r0. split; [|by apply Hrows].
      rewrite !dict_of_enumerate. fold users items. by rewrite Hu, Hi.
    + intros (r0 & -> & Hr0).
      assert (r0 ∈ rows) as Hr0' by (by apply Hrows).
      assert (user r0 ∈ users) as Hu
        by (apply elem_of_unique; by apply list_elem_of_fmap_2).
      assert (item r0 ∈ items) as Hi
        by (apply elem_of_unique; by apply list_elem_of_fmap_2).
      apply list_elem_of_lookup in Hu as [u Hu].
      apply list_elem_of_lookup in Hi as [i Hi].
      exists (u, i, rating r0). cbn [fst snd]. split.
      * rewrite !dict_of_enumerate. fold users items. by rewrite Hu, Hi.
      * apply elem_of_sparse_rows.
        rewrite (affinity_matrix_cell d u i _ _ Hu Hi).
        fold rows. rewrite (filter_key_unique rows r0 Hndr Hr0').
        unfold Zsum. simpl. rewrite Z.add_0_r, int64_rating. split; [done|].
        by eapply (proj1 (Forall_forall _ _) Hnz).
Qed.

Lemma round_trip_run w :
  df (self w) ≠ [] →
  ∃ w',
    round_trip w
    = (Ok (map_ids
             (dict_of (enumerate (unique (user <$> sort_values (df (self w))))))
             (dict_of (enumerate (unique (item <$> sort_values (df (self w))))))
             (sparse_rows (affinity_matrix (df (self w))))), w').
Proof.
  intros Hd. unfold round_trip. rewrite bind_run, gen_index_run.
  cbv beta iota. rewrite bind_run.
  match goal with
  | |- context [gen_affinity_matrix ?w1] =>
      destruct (gen_affinity_matrix_after w1 (self w) eq_refl) as [line ->]
  end.
  cbv zeta. rewrite decide_False by done.
  do 2 (rewrite bind_run;
        cbv beta iota delta [get_self attr mret M_ret];
        cbn [self printed with_AM AM]).
  erewrite map_back_sparse_run by reflexivity.
  cbn [heap printed]. rewrite list_lookup_middle by done. eauto.
Qed.

(** ** The matrix of a table *)

(** The cell at the indices of a user and an item, in terms of the table as
    it was given. *)
Lemma affinity_matrix_cell_table d u i x y :
  unique (user <$> sort_values d) !! u = Some x →
  unique (item <$> sort_values d) !! i = Some y →
  cell (affinity_matrix d) u i
  = Some (int64 (Zsum (rating <$> filter (λ r, user r = x ∧ item r = y) d))).
Proof.
  intros Hu Hi. rewrite (affinity_matrix_cell d u i x y Hu Hi). f_equal. f_equal.
  apply Zsum_perm. by rewrite sort_values_perm.
Qed.

(** A row of the table of non-zero cells of the matrix of [d], mapped back:
    a user and an item of [d], with the int64 sum of their ratings. *)
Lemma affinity_matrix_row d u i r :
  (u, i, r) ∈ sparse_rows (affinity_matrix d) →
  ∃ x y,
    dict_of (enumerate (unique (user <$> sort_values d))) !! u = Some x ∧
    dict_of (enumerate (unique (item <$> sort_values d))) !! i = Some y ∧
    x ∈ user <$> d ∧ y ∈ item <$> d ∧
    r = int64 (Zsum (rating <$> filter (λ r, user r = x ∧ item r = y) d)) ∧
    r ≠ 0%Z.
Proof.
  intros [Hc Hr]%elem_of_sparse_rows.
  destruct (affinity_matrix_cell_in_range d u i r Hc) as (x & y & Hx & Hy).
  rewrite (affinity_matrix_cell_table d u i x y Hx Hy) in Hc.
  injection Hc as Hc. exists x, y. rewrite !dict_of_enumerate.
  repeat split; try done.
  - apply list_elem_of_lookup_2 in Hx.
    by rewrite elem_of_unique, sort_values_perm in Hx.
  - apply list_elem_of_lookup_2 in Hy.
    by rewrite elem_of_unique, sort_values_perm in Hy.
Qed.

Lemma distinct_count {A} `{Countable A} (f : Row User Item → A) d :
  length (unique (f <$> sort_values d))
  = size (list_to_set (f <$> d) : gset A).
Proof.
  rewrite length_unique. f_equal. apply set_eq. intros x.
  by rewrite !elem_of_list_to_set, sort_values_perm.
Qed.

(** What a call that returns has done. *)
Lemma split_outcome ratio seed w xtr xtst tr ts maps w' :
  stratified_split ratio seed w = (Ok (xtr, xtst, tr, ts, maps), w') →
  ∃ c Tr Ts,
    py_int (test_percent ratio) = Ok c ∧
    self w' = with_AM (indexed (self w)) (length (heap w)) ∧
    heap w' !! length (heap w) = Some (affinity_matrix (df (self w))) ∧
    heap w' !! xtr = Some Tr ∧ heap w' !! xtst = Some Ts ∧
    length Tr = length (affinity_matrix (df (self w))) ∧
    length Ts = length (affinity_matrix (df (self w))) ∧
    (∀ v row, affinity_matrix (df (self w)) !! v = Some row →
       ∃ rtr rts, Tr !! v = Some rtr ∧ Ts !! v = Some rts ∧
                  row_split row rtr rts (Z.to_nat (test_count c row))) ∧
    tr = map_ids
           (dict_of (enumerate (unique (user <$> sort_values (df (self w))))))
           (dict_of (enumerate (unique (item <$> sort_values (df (self w))))))
           (sparse_rows Tr) ∧
    ts = map_ids
           (dict_of (enumerate (unique (user <$> sort_values (df (self w))))))
           (dict_of (enumerate (unique (item <$> sort_values (df (self w))))))
           (sparse_rows Ts) ∧
    maps = (dict_of (enumerate (unique (user <$> sort_values (df (self w))))),
            dict_of (enumerate (unique (item <$> sort_values (df (self w)))))).
Proof.
  intros Hrun. apply stratified_split_Ok in Hrun
    as (c & l & line & _ & Hc & _ & Hdone & _ & [= -> -> -> -> ->]).
  destruct Hdone as (Hfr & (Tr & Ts & HTr & HTs & HlTr & HlTs & Hrows) & _).
  apply same_but_from_start in Hfr as (Hself & _ & HA).
  exists c, Tr, Ts. unfold table_of, back_maps. rewrite Hself, HTr, HTs.
  repeat (split; [done|]). split; [|done].
  intros v row Hv. specialize (Hrows v row Hv).
  by rewrite decide_True in Hrows by (by eapply lookup_lt_Some).
Qed.

(** The cell of a user and an item of the table, at the indices the forward
    dictionaries give them. *)
Lemma affinity_matrix_cell_of d x y :
  x ∈ user <$> d → y ∈ item <$> d →
  ∃ u i,
    dict_of ((λ ix, (ix.2, ix.1)) <$> enumerate (unique (user <$> sort_values d)))
      !! x = Some u ∧
    dict_of ((λ ix, (ix.2, ix.1)) <$> enumerate (unique (item <$> sort_values d)))
      !! y = Some i ∧
    cell (affinity_matrix d) u i
    = Some (int64 (Zsum (rating <$> filter (λ r, user r = x ∧ item r = y) d))).
Proof.
  intros Hx Hy.
  destruct (forward_lookup (user <$> sort_values d) x)
    as (u & Hmu & Hu & _); [by rewrite sort_values_perm|].
  destruct (forward_lookup (item <$> sort_values d) y)
    as (i & Hmi & Hi & _); [by rewrite sort_values_perm|].
  exists u, i. split; [exact Hmu|]. split; [exact Hmi|].
  by apply affinity_matrix_cell_table.
Qed.

(** A call that got as far as [gen_affinity_matrix], whether it returns or
    raises later: [self.AM] is the new array, it holds the matrix of the
    table, and the arrays that existed are as they were. *)
Lemma split_keeps_matrix ratio seed w res w' c :
  stratified_split ratio seed w = (res, w') →
  (0 ≤ seed < 2 ^ 32)%Z → py_int (test_percent ratio) = Ok c →
  self w' = with_AM (indexed (self w)) (length (heap w)) ∧
  (∀ X, X < length (heap w) → heap w' !! X = heap w !! X) ∧
  heap w' !! length (heap w) = Some (affinity_matrix (df (self w))).
Proof.
  intros Hrun Hseed Hc. apply stratified_split_run in Hrun.
  rewrite decide_True in Hrun by done. rewrite Hc in Hrun.
  destruct (decide (df (self w) = [])).
  { destruct Hrun as [_ ->]. cbn [built self heap seeded].
    split; [done|]. split; [|by apply list_lookup_middle].
    intros X HX. by rewrite lookup_app_l. }
  destruct Hrun as (line & Hrun). cbv zeta in Hrun.
  assert (same_but (S (length (heap w))) (S (S (length (heap w))))
            (copied (printed (built (seeded w seed)) line)) w') as Hfr.
  { destruct res as [out|e].
    - destruct Hrun as [(l & Hdone & _) _]. apply Hdone.
    - destruct Hrun as [Hf|(_ & l & Hdone & _)]; [apply Hf|apply Hdone]. }
  by apply same_but_from_start in Hfr.
Qed.

(** A call that stops at [np.random.seed] or at [int()]: the object and the
    arrays are as they were. *)
Lemma split_stops_early ratio seed w res w' :
  stratified_split ratio seed w = (res, w') →
  ¬ (0 ≤ seed < 2 ^ 32)%Z ∨ (∃ e, py_int (test_percent ratio) = Raise e) →
  self w' = self w ∧ heap w' = heap w.
Proof.
  intros Hrun Hearly. apply stratified_split_run in Hrun.
  destruct (decide (0 ≤ seed < 2 ^ 32)%Z) as [Hseed|Hseed];
    [|by destruct Hrun as [_ ->]].
  destruct Hearly as [?|[e He]]; [done|]. rewrite He in Hrun.
  by destruct Hrun as [_ ->].
Qed.

(** The round trip on the empty table stops at the sparsity line. *)
Lemma round_trip_empty w :
  df (self w) = [] →
  round_trip w
  = (Raise (ValueError "cannot convert float NaN to integer"), built w).
Proof.
  intros Hd. destruct (gen_affinity_matrix_run w) as [line Hrun].
  rewrite decide_True in Hrun by done.
  unfold round_trip. rewrite bind_run, gen_index_run. cbv beta iota.
  rewrite bind_run.
  rewrite bind_run, gen_index_run in Hrun. cbv beta iota in Hrun.
  by rewrite Hrun.
Qed.
(** The exceptions of [stratified_split]. *)
Lemma stratified_split_raises ratio seed w e w' :
  stratified_split ratio seed w = (Raise e, w') →
  e = ValueError "Seed must be between 0 and 2**32 - 1" ∨
  e = ValueError "cannot convert float NaN to integer" ∨
  e = OverflowError "cannot convert float infinity to integer" ∨
  e = IndexError "Cannot choose from an empty sequence" ∨
  e = UnboundLocalError "sub_el".
Proof.
  intros Hrun. apply stratified_split_run in Hrun.
  destruct (decide (0 ≤ seed < 2 ^ 32)%Z);
    [|destruct Hrun as [[= ->] _]; eauto].
  destruct (py_int (test_percent ratio)) as [c|e'] eqn:Hint.
  - destruct (decide (df (self w) = [])).
    + destruct Hrun as [[= ->] _]. eauto.
    + destruct Hrun as (line & [(-> & _)|(-> & _)]); eauto 6.
  - destruct Hrun as [[= ->] _].
    destruct (test_percent ratio); simpl in Hint; try done;
      injection Hint as <-; eauto.
Qed.
End Facts.

(** * The specification *)

Section Claims.
Context {User Item : Type} `{Countable User} `{Countable Item}.
Context {Rnd : PyRandom} {Srt : SortValues User Item}.

Implicit Types w : world (User:=User) (Item:=Item).
Implicit Types d : list (Row User Item).

(** C7.  [gen_index] never fails, and the dictionaries it assigns are, on
    each axis, a bijection between the distinct identifiers of the table
    and the range [0 .. N-1]: going forward and back gives the identifier
    again, the forward images are exactly the indices below [N] with no
    repeat, [N] is the number of distinct identifiers, and the forward
    dictionary is defined on the identifiers of the table and on nothing
    else. *)
Theorem gen_index_bijection w :
  ∃ mu mbu nu mi mbi ni,
    gen_index w
    = (Ok tt, World (indexed (self w)) (heap w) (np_random w) (py_random w)
                    (stdout w)) ∧
    map_users (indexed (self w)) = Some mu ∧
    map_back_users (indexed (self w)) = Some mbu ∧
    Nusers (indexed (self w)) = Some nu ∧
    map_items (indexed (self w)) = Some mi ∧
    map_back_items (indexed (self w)) = Some mbi ∧
    Nitems (indexed (self w)) = Some ni ∧
    index_bijection (user <$> df (self w)) mu mbu nu ∧
    index_bijection (item <$> df (self w)) mi mbi ni.
Proof.
  do 6 eexists. repeat (split; [reflexivity|]).
  split; apply unique_index_bijection; by rewrite sort_values_perm.
Qed.

(** C5 (as amended).  After [gen_index] and [gen_affinity_matrix], for a
    user [x] and an item [y] of the table, the cell of [self.AM] at the
    indices that [map_users] and [map_items] give them holds the sum of the
    ratings of all the rows of the table with user [x] and item [y], added
    up in int64: duplicates are summed, none overwrites another, and the
    sum is reduced modulo [2^64] into the int64 range.  So the cell is the
    exact sum whenever that fits an int64, and the wrapped sum otherwise. *)
Theorem duplicates_are_summed w x y :
  x ∈ user <$> df (self w) → y ∈ item <$> df (self w) →
  ∃ w' am A mu mi u i,
    (gen_index ;; gen_affinity_matrix) w = (Ok tt, w') ∧
    AM (self w') = Some am ∧ heap w' !! am = Some A ∧
    map_users (self w') = Some mu ∧ map_items (self w') = Some mi ∧
    mu !! x = Some u ∧ mi !! y = Some i ∧
    let total := Zsum (rating <$> filter (λ r, user r = x ∧ item r = y)
                                         (df (self w))) in
    cell A u i = Some (int64 total) ∧
    ((- 2 ^ 63 ≤ total < 2 ^ 63)%Z → cell A u i = Some total).
Proof.
  intros Hx Hy.
  assert (df (self w) ≠ []) as Hd.
  { intros Hnil. rewrite Hnil in Hx. by apply elem_of_nil in Hx. }
  destruct (gen_affinity_matrix_run w) as [line Hrun].
  rewrite decide_False in Hrun by done.
  destruct (affinity_matrix_cell_of (df (self w)) x y Hx Hy)
    as (u & i & Hmu & Hmi & Hcell).
  eexists (printed (built w) line), (length (heap w)), _, _, _, u, i.
  split; [exact Hrun|].
  cbn [printed built self heap with_AM indexed AM map_users map_items].
  split; [done|]. split; [by apply list_lookup_middle|].
  split; [done|]. split; [done|]. split; [exact Hmu|]. split; [exact Hmi|].
  cbv zeta. split; [exact Hcell|].
  intros Hfit. by rewrite Hcell, int64_id.
Qed.

(** C2.  When [stratified_split] returns, [self.AM] is the matrix of the
    input table (one row per distinct user, and at the indices of the user
    and the item of every row of the table the int64 sum of the ratings the
    table has for them), the train and the test array have as many rows,
    and every row of the train array and the same row of the test array
    have disjoint sets of non-zero columns, whose union is the set of
    non-zero columns of that row of [self.AM]; hence their numbers of
    non-zero cells add up to that of the source row. *)
Theorem split_rows_partition ratio seed w xtr xtst tr ts maps w' :
  stratified_split ratio seed w = (Ok (xtr, xtst, tr, ts, maps), w') →
  ∃ am A Tr Ts mu mi,
    AM (self w') = Some am ∧ heap w' !! am = Some A ∧
    A = affinity_matrix (df (self w)) ∧
    length A = size (list_to_set (user <$> df (self w)) : gset User) ∧
    Forall (λ r, length r
                 = size (list_to_set (item <$> df (self w)) : gset Item)) A ∧
    0 < length A ∧
    map_users (self w') = Some mu ∧ map_items (self w') = Some mi ∧
    (∀ r, r ∈ df (self w) →
       ∃ u i, mu !! user r = Some u ∧ mi !! item r = Some i ∧
         cell A u i
         = Some (int64 (Zsum (rating <$> filter (λ r', user r' = user r ∧
                                                        item r' = item r)
                                                (df (self w)))))) ∧
    heap w' !! xtr = Some Tr ∧ heap w' !! xtst = Some Ts ∧
    length Tr = length A ∧ length Ts = length A ∧
    ∀ u row, A !! u = Some row →
      ∃ rtr rts,
        Tr !! u = Some rtr ∧ Ts !! u = Some rts ∧
        length rtr = length row ∧ length rts = length row ∧
        nonzero_set rtr ## nonzero_set rts ∧
        nonzero_set rtr ∪ nonzero_set rts = nonzero_set row ∧
        count_nonzero rtr + count_nonzero rts = count_nonzero row.
Proof.
  intros Hrun.
  pose proof Hrun as Hok. apply stratified_split_Ok in Hok
    as (_ & _ & _ & _ & _ & Hd & _).
  apply split_outcome in Hrun
    as (c & Tr & Ts & _ & Hself & HA & HTr & HTs & HlTr & HlTs & Hrows & _).
  destruct (affinity_matrix_shape (df (self w))) as [Hlen Hwid].
  rewrite (distinct_count user) in Hlen. rewrite (distinct_count item) in Hwid.
  eexists (length (heap w)), (affinity_matrix (df (self w))), Tr, Ts, _, _.
  rewrite Hself. cbn [AM with_AM map_users map_items indexed].
  split; [done|]. split; [exact HA|]. split; [done|]. split; [exact Hlen|].
  split; [exact Hwid|]. split.
  { destruct (affinity_matrix (df (self w))) eqn:HAM; [|simpl; lia].
    by apply affinity_matrix_nil in HAM. }
  split; [done|]. split; [done|]. split.
  { intros r Hr. apply affinity_matrix_cell_of; by apply list_elem_of_fmap_2. }
  repeat (split; [done|]).
  intros u row Hrow.
  destruct (Hrows u row Hrow) as (rtr & rts & Hrtr & Hrts & Hsplit).
  pose proof Hsplit as (cand & chosen & _ & _ & -> & ->).
  apply row_split_spec in Hsplit as (? & ? & ? & _).
  exists (zero_cells chosen row), (zero_cells cand row).
  by rewrite !length_zero_cells.
Qed.

(** C6 (as amended).  For a ratio [0 < r < 1] the test percentage is
    [int((1 - r) * 100)] on doubles: the subtraction and the product are
    each rounded to the nearest double, and [int()] takes the floor of the
    product so rounded (it truncates, it does not round); it lies in
    [0 .. 100] and is computed once, and in every row of a returned test
    matrix the number of non-zero cells is [rated * test_cut // 100], a
    floor division, [rated] being the number of non-zero cells of that row
    of the matrix of the table. *)
Theorem test_cut_and_test_count ratio seed w xtr xtst tr ts maps w' :
  is_ratio ratio →
  stratified_split ratio seed w = (Ok (xtr, xtst, tr, ts, maps), w') →
  ∃ test_cut Ts,
    py_int (SF64mul (SF64sub (float_of_int 1) ratio) (float_of_int 100))
    = Ok test_cut ∧
    test_cut
    = Qfloor (SF2Q (SF64mul (SF64sub (float_of_int 1) ratio)
                            (float_of_int 100))) ∧
    (0 ≤ test_cut ≤ 100)%Z ∧
    heap w' !! xtst = Some Ts ∧
    length Ts = length (affinity_matrix (df (self w))) ∧
    ∀ u row, affinity_matrix (df (self w)) !! u = Some row →
      ∃ rts, Ts !! u = Some rts ∧
             Z.of_nat (count_nonzero rts)
             = ((Z.of_nat (count_nonzero row) * test_cut) `div` 100)%Z.
Proof.
  intros Hr Hrun. fold (test_percent ratio).
  destruct (py_int_le_int (test_percent ratio) 100) as (c & Hc & Hrange & Hfl);
    [lia|by apply test_percent_le|].
  apply split_outcome in Hrun
    as (c' & Tr & Ts & Hc' & _ & _ & _ & HTs & _ & HlTs & Hrows & _).
  assert (c' = c) as -> by congruence.
  exists c, Ts. repeat (split; [done|]).
  intros u row Hrow.
  destruct (Hrows u row Hrow) as (rtr & rts & _ & Hrts & Hsplit).
  apply row_split_spec in Hsplit as (_ & _ & _ & Hk).
  exists rts. split; [done|]. rewrite Hk. unfold test_count.
  rewrite Z2Nat.id; [done|].
  apply Z.div_pos; lia.
Qed.

(** C9.  Whatever [stratified_split] does (it may return or raise), it
    writes to no array that existed before the call.  Once it is past
    [np.random.seed] and [int()], [self.AM] is the array that
    [gen_affinity_matrix] made, and at the end of the call, also of one
    that raises in the middle of the sampling, that array holds the matrix
    exactly as it was built; a call that stops earlier leaves the object
    and the arrays as they were.  The train and test arrays that are
    returned are new objects, different from [self.AM] and from each
    other. *)
Theorem split_never_mutates_AM ratio seed w res w' :
  stratified_split ratio seed w = (res, w') →
  (∀ X, X < length (heap w) → heap w' !! X = heap w !! X) ∧
  (∀ c, (0 ≤ seed < 2 ^ 32)%Z → py_int (test_percent ratio) = Ok c →
     ∃ am,
       AM (self w') = Some am ∧
       AM (self ((gen_index ;; gen_affinity_matrix) w).2) = Some am ∧
       heap w' !! am = heap ((gen_index ;; gen_affinity_matrix) w).2 !! am ∧
       heap w' !! am = Some (affinity_matrix (df (self w))) ∧
       length (heap w) ≤ am) ∧
  (¬ (0 ≤ seed < 2 ^ 32)%Z ∨ (∃ e, py_int (test_percent ratio) = Raise e) →
   self w' = self w ∧ heap w' = heap w) ∧
  (∀ xtr xtst tr ts maps, res = Ok (xtr, xtst, tr, ts, maps) →
     ∃ am,
       AM (self w') = Some am ∧
       is_Some (heap w' !! xtr) ∧ is_Some (heap w' !! xtst) ∧
       length (heap w) ≤ xtr ∧ length (heap w) ≤ xtst ∧
       xtr ≠ am ∧ xtst ≠ am ∧ xtr ≠ xtst).
Proof.
  intros Hrun. split; [|split; [|split]].
  - destruct (decide (0 ≤ seed < 2 ^ 32)%Z) as [Hseed|Hseed].
    + destruct (py_int (test_percent ratio)) as [c|e] eqn:Hc.
      * by destruct (split_keeps_matrix _ _ _ _ _ c Hrun Hseed Hc) as (_ & ? & _).
      * destruct (split_stops_early _ _ _ _ _ Hrun) as [_ ->]; [eauto|done].
    + destruct (split_stops_early _ _ _ _ _ Hrun) as [_ ->]; [eauto|done].
  - intros c Hseed Hc.
    destruct (split_keeps_matrix _ _ _ _ _ c Hrun Hseed Hc) as (Hself & _ & HA).
    destruct (built_facts w) as [HbAM HbA].
    exists (length (heap w)). rewrite Hself, HbAM, HbA, HA. done.
  - intros Hearly. exact (split_stops_early _ _ _ _ _ Hrun Hearly).
  - intros xtr xtst tr ts maps ->.
    apply stratified_split_Ok in Hrun
      as (c & l & line & _ & _ & _ & Hdone & _ & [= -> -> _ _ _]).
    destruct Hdone as (Hfr & (Tr & Ts & HTr & HTs & _) & _).
    apply same_but_from_start in Hfr as (Hself & _ & HA).
    exists (length (heap w)). rewrite Hself, HTr, HTs.
    repeat split; eauto; lia.
Qed.

(** C10 (as amended).  For a ratio [0 < r < 1] the test percentage lies in
    [0 .. 100], so [test_count[u]] is at most [rated[u]] (strictly less
    when the percentage is below 100 and the row is rated), and the
    sampling loop never reaches the error of [random.choice] on an empty
    list nor that of [list.remove] on a missing element. *)
Theorem sampling_is_safe ratio seed w :
  is_ratio ratio →
  (∃ c, py_int (test_percent ratio) = Ok c ∧ (0 ≤ c ≤ 100)%Z ∧
        ∀ row,
          (0 ≤ test_count c row ≤ Z.of_nat (count_nonzero row))%Z ∧
          ((c < 100)%Z → 0 < count_nonzero row →
           (test_count c row < Z.of_nat (count_nonzero row))%Z)) ∧
  (stratified_split ratio seed w).1
    ≠ Raise (IndexError "Cannot choose from an empty sequence") ∧
  (stratified_split ratio seed w).1
    ≠ Raise (ValueError "list.remove(x): x not in list").
Proof.
  intros Hr.
  destruct (py_int_le_int (test_percent ratio) 100) as (c & Hc & Hrange & _);
    [lia|by apply test_percent_le|].
  split.
  { exists c. split; [done|]. split; [done|].
    intros row. by apply test_count_bounds. }
  destruct (stratified_split ratio seed w) as [res w'] eqn:Hrun.
  apply stratified_split_run in Hrun. cbn [fst].
  destruct (decide (0 ≤ seed < 2 ^ 32)%Z); [|by destruct Hrun as [-> _]].
  rewrite Hc in Hrun.
  destruct (decide (df (self w) = [])); [by destruct Hrun as [-> _]|].
  destruct Hrun as (line & Hrun). cbv zeta in Hrun.
  destruct res as [out|e]; [done|].
  destruct Hrun as [(-> & _ & v & row & _ & Hlt)|(-> & _)]; [|done].
  destruct (test_count_bounds c row Hrange) as [Hb _]. lia.
Qed.

(** C3 (what the code does).  When every row gets a test count of 0, which
    includes the empty table, [stratified_split] does not return: on the
    empty table the sparsity line raises [ValueError], otherwise the final
    [del] raises [UnboundLocalError] because [sub_el] was never bound. *)
Theorem degenerate_inputs_raise ratio seed w c :
  (0 ≤ seed < 2 ^ 32)%Z →
  py_int (test_percent ratio) = Ok c →
  Forall (λ row, Z.to_nat (test_count c row) = 0)
         (affinity_matrix (df (self w))) →
  (stratified_split ratio seed w).1
  = if decide (df (self w) = [])
    then Raise (ValueError "cannot convert float NaN to integer")
    else Raise (UnboundLocalError "sub_el").
Proof.
  intros Hseed Hc Hzero.
  destruct (stratified_split ratio seed w) as [res w'] eqn:Hrun.
  apply stratified_split_run in Hrun. cbn [fst].
  rewrite decide_True in Hrun by done. rewrite Hc in Hrun.
  destruct (decide (df (self w) = [])); [by destruct Hrun as [-> _]|].
  destruct Hrun as (line & Hrun). cbv zeta in Hrun.
  assert (∀ v row, affinity_matrix (df (self w)) !! v = Some row →
                   Z.to_nat (test_count c row) = 0) as Hz.
  { intros v row Hv. by eapply (Forall_lookup_1 _ _ _ _ Hzero). }
  destruct res as [out|e].
  - destruct Hrun as [(l & (_ & _ & _ & Hsub) & [el Hel]) _].
    assert (sub_el l = None) as Hnone
      by (apply Hsub; intros v row _; apply Hz).
    congruence.
  - destruct Hrun as [(_ & _ & v & row & Hv & Hlt)|(-> & _)]; [|done].
    rewrite (Hz v row Hv) in Hlt. lia.
Qed.

(** C4 (as amended).  Once the backward dictionaries are assigned,
    [map_back_sparse] never raises: it returns one row per non-zero cell,
    and the row of a cell whose row or column index is missing from its
    dictionary is kept, with the missing value ([None], pandas' NaN) in
    place of the identifier. *)
Theorem map_back_sparse_keeps_unmapped_cells X w mbu mbi :
  map_back_users (self w) = Some mbu →
  map_back_items (self w) = Some mbi →
  ∃ out,
    map_back_sparse X w = (Ok out, w) ∧
    length out = sum_list (count_nonzero <$> default [] (heap w !! X)) ∧
    ∀ u i r, cell (default [] (heap w !! X)) u i = Some r → r ≠ 0%Z →
             (mbu !! u, mbi !! i, r) ∈ out.
Proof.
  intros Hu Hi. eexists. split; [by apply map_back_sparse_run|]. split.
  - unfold map_ids. by rewrite length_fmap, length_sparse_rows.
  - intros u i r Hc Hr. unfold map_ids.
    apply (list_elem_of_fmap_2
             (λ t : nat * nat * Z, (mbu !! t.1.1, mbi !! t.1.2, t.2))
             (sparse_rows _) (u, i, r)).
    by apply elem_of_sparse_rows.
Qed.

(** C8 (what the code does).  For a table without duplicate
    (user, item) pairs and without zero ratings, building the affinity
    matrix and mapping it back returns exactly the rows of the table, with
    their original identifiers, up to the order of the rows, and does so
    whatever the order of the rows of the table; but only when the table is
    not empty: on the empty table the sparsity line of
    [gen_affinity_matrix] raises [ValueError], after [self.AM] was
    assigned, and nothing is mapped back. *)
Theorem round_trip_returns_the_rows w :
  NoDup ((λ r, (user r, item r)) <$> df (self w)) →
  Forall (λ r, rating r ≠ 0%Z) (df (self w)) →
  if decide (df (self w) = []) then
    round_trip w
    = (Raise (ValueError "cannot convert float NaN to integer"), built w)
  else
    ∃ out w',
      round_trip w = (Ok out, w') ∧
      out ≡ₚ to_out <$> df (self w) ∧
      ∀ w2, df (self w2) ≡ₚ df (self w) →
        ∃ out2 w2', round_trip w2 = (Ok out2, w2') ∧ out2 ≡ₚ out.
Proof.
  intros Hnd Hnz. destruct (decide (df (self w) = [])) as [Hd|Hd].
  { by apply round_trip_empty. }
  destruct (round_trip_run w Hd) as [w' Hrun].
  eexists _, w'. split; [exact Hrun|].
  split; [by apply round_trip_pure|].
  intros w2 Hp.
  assert (df (self w2) ≠ []) as Hd2.
  { intros Hnil. rewrite Hnil in Hp. by apply Permutation_nil in Hp. }
  destruct (round_trip_run w2 Hd2) as [w2' Hrun2].
  eexists _, w2'. split; [exact Hrun2|].
  rewrite !round_trip_pure; [by rewrite Hp|done|done|by rewrite Hp|by rewrite Hp].
Qed.
End Claims.

(** * Further properties of the methods *)

Section Extras.
Context {User Item : Type} `{Countable User} `{Countable Item}.
Context {Rnd : PyRandom} {Srt : SortValues User Item}.

Implicit Types w : world (User:=User) (Item:=Item).
Implicit Types d : list (Row User Item).

(** ** The methods before and after [gen_index] *)

(** X1.  On an object on which [gen_index] has not run (as [__init__]
    leaves it), [gen_affinity_matrix] raises [AttributeError] for [df_] and
    [map_back_sparse] raises [AttributeError] for [map_back_users], whatever
    the array; neither changes the object, the arrays or what was
    printed. *)
Theorem methods_need_gen_index DF X w :
  self w = __init__ DF →
  gen_affinity_matrix w = (Raise (AttributeError "df_"), w) ∧
  map_back_sparse X w = (Raise (AttributeError "map_back_users"), w).
Proof.
  intros Hs. unfold gen_affinity_matrix, map_back_sparse, np_read. mrun.
  rewrite Hs. done.
Qed.

(** X2.  For a non-empty table, [gen_index] followed by
    [gen_affinity_matrix] returns: [self.AM] is a new array, of [Nusers]
    rows of [Nitems] cells, [Nusers] and [Nitems] being the numbers of
    distinct users and items of the table; the arrays that existed are
    untouched, the table [self.df] is unchanged and one line is printed. *)
Theorem gen_affinity_matrix_shape w :
  df (self w) ≠ [] →
  ∃ w' A line,
    (gen_index ;; gen_affinity_matrix) w = (Ok tt, w') ∧
    AM (self w') = Some (length (heap w)) ∧
    heap w' = heap w ++ [A] ∧
    Nusers (self w')
    = Some (size (list_to_set (user <$> df (self w)) : gset User)) ∧
    Nitems (self w')
    = Some (size (list_to_set (item <$> df (self w)) : gset Item)) ∧
    length A = size (list_to_set (user <$> df (self w)) : gset User) ∧
    Forall (λ r, length r
                 = size (list_to_set (item <$> df (self w)) : gset Item)) A ∧
    0 < length A ∧
    df (self w') = df (self w) ∧
    stdout w' = stdout w ++ [line].
Proof.
  intros Hd. destruct (gen_affinity_matrix_run w) as [line Hrun].
  rewrite decide_False in Hrun by done.
  exists (printed (built w) line), (affinity_matrix (df (self w))), line.
  split; [exact Hrun|].
  cbn [printed built self heap stdout with_AM indexed AM Nusers Nitems df].
  destruct (affinity_matrix_shape (df (self w))) as [Hlen Hwid].
  rewrite <- (distinct_count user), <- (distinct_count item).
  repeat split; try done.
  destruct (affinity_matrix (df (self w))) eqn:HA; [|simpl; lia].
  by apply affinity_matrix_nil in HA.
Qed.

(** X3.  After [gen_index] and [gen_affinity_matrix], for a user [x] and
    an item [y] that both occur in the table, but in no common row, the
    cell of [self.AM] at the indices that [map_users] and [map_items] give
    them is 0, the value that stands for "unrated". *)
Theorem unrated_pairs_are_zero w x y :
  x ∈ user <$> df (self w) → y ∈ item <$> df (self w) →
  (∀ r, r ∈ df (self w) → ¬ (user r = x ∧ item r = y)) →
  ∃ w' am A mu mi u i,
    (gen_index ;; gen_affinity_matrix) w = (Ok tt, w') ∧
    AM (self w') = Some am ∧ heap w' !! am = Some A ∧
    map_users (self w') = Some mu ∧ map_items (self w') = Some mi ∧
    mu !! x = Some u ∧ mi !! y = Some i ∧
    cell A u i = Some 0%Z.
Proof.
  intros Hx Hy Hno.
  assert (df (self w) ≠ []) as Hd.
  { intros Hnil. rewrite Hnil in Hx. by apply elem_of_nil in Hx. }
  destruct (gen_affinity_matrix_run w) as [line Hrun].
  rewrite decide_False in Hrun by done.
  destruct (affinity_matrix_cell_of (df (self w)) x y Hx Hy)
    as (u & i & Hmu & Hmi & Hcell).
  eexists (printed (built w) line), (length (heap w)), _, _, _, u, i.
  split; [exact Hrun|].
  cbn [printed built self heap with_AM indexed AM map_users map_items].
  split; [done|]. split; [by apply list_lookup_middle|].
  split; [done|]. split; [done|]. split; [exact Hmu|]. split; [exact Hmi|].
  rewrite Hcell. by rewrite filter_none.
Qed.

(** X4.  With the backward dictionaries assigned, [map_back_sparse]
    changes nothing and returns the non-zero cells of the array and no
    other row, each once, in row-major order (by row index, then by column
    index), each with the entries of the dictionaries at its indices. *)
Theorem map_back_sparse_row_major X w mbu mbi :
  map_back_users (self w) = Some mbu →
  map_back_items (self w) = Some mbi →
  ∃ cells : list (nat * nat * Z),
    map_back_sparse X w
    = (Ok ((λ t, (mbu !! t.1.1, mbi !! t.1.2, t.2)) <$> cells), w) ∧
    (∀ u i r, (u, i, r) ∈ cells
              ↔ cell (default [] (heap w !! X)) u i = Some r ∧ r ≠ 0%Z) ∧
    StronglySorted row_major cells.
Proof.
  intros Hu Hi. exists (sparse_rows (default [] (heap w !! X))).
  split; [by apply map_back_sparse_run|]. split.
  - intros u i r. apply elem_of_sparse_rows.
  - rewrite sparse_rows_blocks. apply (sorted_blocks_from 0).
Qed.

(** ** The stratified split *)

(** X5.  With a valid seed, a ratio that is NaN makes [stratified_split]
    raise [ValueError], and an infinite one [OverflowError], at
    [int((1 - ratio) * 100)]: NumPy's generator has been seeded, and
    nothing else has changed ([gen_index] has not run). *)
Theorem non_finite_ratio_raises ratio seed w :
  (0 ≤ seed < 2 ^ 32)%Z →
  ratio = S754_nan ∨ (∃ s, ratio = S754_infinity s) →
  stratified_split ratio seed w
  = (Raise (match ratio with
            | S754_nan => ValueError "cannot convert float NaN to integer"
            | _ => OverflowError "cannot convert float infinity to integer"
            end), seeded w seed).
Proof.
  intros Hseed Hr. unfold stratified_split.
  rewrite bind_run. unfold np_random_seed at 1.
  rewrite bool_decide_true by done. fold (seeded w seed).
  rewrite bind_run. unfold lift at 1.
  destruct Hr as [->|[[|] ->]].
  - by assert (py_int (test_percent S754_nan)
               = Raise (ValueError "cannot convert float NaN to integer"))
      as -> by (vm_compute; reflexivity).
  - by assert (py_int (test_percent (S754_infinity true))
               = Raise (OverflowError
                          "cannot convert float infinity to integer"))
      as -> by (vm_compute; reflexivity).
  - by assert (py_int (test_percent (S754_infinity false))
               = Raise (OverflowError
                          "cannot convert float infinity to integer"))
      as -> by (vm_compute; reflexivity).
Qed.

(** X6.  With a seed outside [0 .. 2^32 - 1], [stratified_split] raises
    the [ValueError] of [np.random.seed], whatever the ratio and the table,
    and changes nothing. *)
Theorem invalid_seed_raises ratio seed w :
  ¬ (0 ≤ seed < 2 ^ 32)%Z →
  stratified_split ratio seed w
  = (Raise (ValueError "Seed must be between 0 and 2**32 - 1"), w).
Proof.
  intros Hseed. unfold stratified_split.
  rewrite bind_run. unfold np_random_seed at 1.
  by rewrite bool_decide_false by done.
Qed.

(** X7.  With a valid seed and a test percentage [test_cut >= 0] for
    which no int64 product [rated * test_cut] overflows, when some row of
    the matrix has fewer rated cells than its test count
    [rated * test_cut // 100] (a test percentage above 100, from a ratio
    below 0), [stratified_split] raises the [IndexError] of [random.choice]
    on an empty list. *)
Theorem oversized_test_count_raises ratio seed w c row :
  (0 ≤ seed < 2 ^ 32)%Z →
  py_int (test_percent ratio) = Ok c →
  (0 ≤ c)%Z →
  Forall (λ row, (Z.of_nat (count_nonzero row) * c < 2 ^ 63)%Z)
         (affinity_matrix (df (self w))) →
  row ∈ affinity_matrix (df (self w)) →
  count_nonzero row < Z.to_nat (test_count c row) →
  (stratified_split ratio seed w).1
  = Raise (IndexError "Cannot choose from an empty sequence").
Proof.
  intros Hseed Hc _ _ Hrow Hlt.
  apply list_elem_of_lookup in Hrow as [v Hv].
  assert (∀ l w1 k,
            users_done c (affinity_matrix (df (self w)))
              (S (length (heap w))) (S (S (length (heap w)))) w1
              (length (affinity_matrix (df (self w)))) l k → False) as Hno.
  { intros l w1 k (_ & (Tr & Ts & _ & _ & _ & _ & Hrows) & _).
    specialize (Hrows v row Hv).
    rewrite decide_True in Hrows by (by eapply lookup_lt_Some).
    destruct Hrows as (rtr & rts & _ & _ & cand & chosen & Hp & Hlen & _).
    apply Permutation_length in Hp.
    rewrite length_app, length_nonzero in Hp. lia. }
  destruct (stratified_split ratio seed w) as [res w'] eqn:Hrun.
  apply stratified_split_run in Hrun. cbn [fst].
  rewrite decide_True in Hrun by done. rewrite Hc in Hrun.
  destruct (decide (df (self w) = [])) as [Hd|Hd].
  { apply affinity_matrix_nil in Hd. by rewrite Hd in Hv. }
  destruct Hrun as (line & Hrun). cbv zeta in Hrun.
  destruct res as [out|e].
  - destruct Hrun as [(l & Hdone & _) _]. by destruct (Hno _ _ _ Hdone).
  - destruct Hrun as [(-> & _)|(_ & l & Hdone & _)]; [done|].
    by destruct (Hno _ _ _ Hdone).
Qed.

(** X8.  When [stratified_split] returns, the train table followed by the
    test table is, up to the order of the rows, what [map_back_sparse]
    makes of [self.AM]; and for a table without duplicate (user, item)
    pairs and without zero ratings, it is the input table: every input
    row is in exactly one of the two tables. *)
Theorem train_and_test_tables_partition ratio seed w xtr xtst tr ts maps w' :
  stratified_split ratio seed w = (Ok (xtr, xtst, tr, ts, maps), w') →
  ∃ am all,
    AM (self w') = Some am ∧
    map_back_sparse am w' = (Ok all, w') ∧
    tr ++ ts ≡ₚ all ∧
    (NoDup ((λ r, (user r, item r)) <$> df (self w)) →
     Forall (λ r, rating r ≠ 0%Z) (df (self w)) →
     tr ++ ts ≡ₚ to_out <$> df (self w)).
Proof.
  intros Hrun. apply split_outcome in Hrun
    as (c & Tr & Ts & _ & Hself & HA & _ & _ & HlTr & HlTs & Hrows
        & -> & -> & _).
  pose proof (rows_split_cells _ Tr Ts _ HlTr HlTs Hrows) as Hsplit.
  apply sparse_rows_split in Hsplit.
  set (mbu := dict_of (enumerate (unique (user <$> sort_values _)))) in *.
  set (mbi := dict_of (enumerate (unique (item <$> sort_values _)))) in *.
  assert (map_ids mbu mbi (sparse_rows Tr) ++ map_ids mbu mbi (sparse_rows Ts)
          ≡ₚ map_ids mbu mbi (sparse_rows (affinity_matrix (df (self w)))))
    as Hperm by (unfold map_ids; by rewrite <- fmap_app, Hsplit).
  eexists (length (heap w)), _. split; [by rewrite Hself|].
  split; [apply map_back_sparse_run; by rewrite Hself|].
  rewrite HA. cbn [default from_option id].
  split; [exact Hperm|].
  intros Hnd Hnz. rewrite Hperm. by apply round_trip_pure.
Qed.

(** X9.  When [stratified_split] returns, the train and the test array
    have the shape of [self.AM], and every cell of [self.AM] has its value
    in one of them and 0 in the other: no rating is changed, lost or put
    on both sides. *)
Theorem train_and_test_split_the_cells ratio seed w xtr xtst tr ts maps w' :
  stratified_split ratio seed w = (Ok (xtr, xtst, tr, ts, maps), w') →
  ∃ am A Tr Ts,
    AM (self w') = Some am ∧ heap w' !! am = Some A ∧
    heap w' !! xtr = Some Tr ∧ heap w' !! xtst = Some Ts ∧
    cells_split A Tr Ts.
Proof.
  intros Hrun. apply split_outcome in Hrun
    as (c & Tr & Ts & _ & Hself & HA & HTr & HTs & HlTr & HlTs & Hrows & _).
  exists (length (heap w)), (affinity_matrix (df (self w))), Tr, Ts.
  rewrite Hself. repeat (split; [done|]).
  exact (rows_split_cells _ Tr Ts (λ row, Z.to_nat (test_count c row))
           HlTr HlTs Hrows).
Qed.

(** X10.  Every row of the train and test tables that [stratified_split]
    returns carries a user and an item of the input table, never a missing
    value, and its rating is the int64 sum of the ratings that the input
    table has for that user and item, which is not 0. *)
Theorem split_tables_rows ratio seed w xtr xtst tr ts maps w' o :
  stratified_split ratio seed w = (Ok (xtr, xtst, tr, ts, maps), w') →
  o ∈ tr ++ ts →
  ∃ x y,
    o = (Some x, Some y,
         int64 (Zsum (rating <$> filter (λ r, user r = x ∧ item r = y)
                                        (df (self w))))) ∧
    x ∈ user <$> df (self w) ∧ y ∈ item <$> df (self w) ∧ o.2 ≠ 0%Z.
Proof.
  intros Hrun Ho. apply split_outcome in Hrun
    as (c & Tr & Ts & _ & _ & _ & _ & _ & HlTr & HlTs & Hrows & -> & -> & _).
  pose proof (rows_split_cells _ Tr Ts _ HlTr HlTs Hrows) as Hsplit.
  apply sparse_rows_split in Hsplit.
  unfold map_ids in Ho. rewrite <- fmap_app, Hsplit in Ho.
  apply list_elem_of_fmap in Ho as ([[u i] r] & -> & Ht). cbn [fst snd].
  destruct (affinity_matrix_row _ u i r Ht)
    as (x & y & -> & -> & ? & ? & Hr & ?).
  exists x, y. by rewrite <- Hr.
Qed.

(** X11.  [stratified_split] never fails an [assert] and never reads an
    attribute of the object before it is assigned: the lengths compared in
    [gen_affinity_matrix] are those of three columns of one table, the
    counts compared after the zeroing of a row always add up, and
    [gen_index] assigns every attribute the other methods read. *)
Theorem split_asserts_hold ratio seed w name :
  (stratified_split ratio seed w).1 ≠ Raise AssertionError ∧
  (stratified_split ratio seed w).1 ≠ Raise (AttributeError name).
Proof.
  destruct (stratified_split ratio seed w) as [[out|e] w'] eqn:Hrun;
    cbn [fst]; [done|].
  apply stratified_split_raises in Hrun.
  split; intros [= ->]; destruct Hrun as [?|[?|[?|[?|?]]]]; done.
Qed.


(** X13.  With a valid seed, a ratio [0 < r < 1] and a table in which
    some user has a test count [rated * test_cut // 100] above 0,
    [stratified_split] returns: no exception is raised. *)
Theorem stratified_split_returns ratio seed w c row :
  (0 ≤ seed < 2 ^ 32)%Z →
  is_ratio ratio →
  py_int (test_percent ratio) = Ok c →
  row ∈ affinity_matrix (df (self w)) →
  (0 < test_count c row)%Z →
  ∃ xtr xtst tr ts maps w',
    stratified_split ratio seed w = (Ok (xtr, xtst, tr, ts, maps), w').
Proof.
  intros Hseed Hr Hc Hrow Hpos.
  destruct (py_int_le_int (test_percent ratio) 100)
    as (c' & Hc' & Hrange & _); [lia|by apply test_percent_le|].
  assert (c' = c) as -> by congruence.
  apply list_elem_of_lookup in Hrow as [v Hv].
  destruct (stratified_split ratio seed w) as [res w'] eqn:Hrun.
  apply stratified_split_run in Hrun.
  rewrite decide_True in Hrun by done. rewrite Hc in Hrun.
  destruct (decide (df (self w) = [])) as [Hd|Hd].
  { apply affinity_matrix_nil in Hd. by rewrite Hd in Hv. }
  destruct Hrun as (line & Hrun). cbv zeta in Hrun.
  destruct res as [[[[[xtr xtst] tr] ts] maps]|e];
    [by eexists _, _, _, _, _, _|].
  exfalso.
  destruct Hrun as [(_ & _ & v' & row' & _ & Hlt)|(_ & l & Hdone & Hnone)].
  - destruct (test_count_bounds c row' Hrange) as [Hb _]. lia.
  - destruct Hdone as (_ & _ & _ & Hsub).
    pose proof (proj1 Hsub Hnone v row (lookup_lt_Some _ _ _ Hv) Hv). lia.
Qed.

(** ** NumPy's generator is seeded and never used *)

Lemma ignores_ret {A} (a : A) :
  ignores_np_random (User:=User) (Item:=Item) (mret a : M A).
Proof. by intros w n. Qed.

Lemma ignores_bind {A B} (m : M A) (f : A → M B) :
  ignores_np_random (User:=User) (Item:=Item) m →
  (∀ a, ignores_np_random (User:=User) (Item:=Item) (f a)) →
  ignores_np_random (User:=User) (Item:=Item) (m ≫= f).
Proof.
  intros Hm Hf w n. rewrite !bind_run, Hm.
  destruct (m w) as [[a|e] w1]; cbn [fst snd]; [apply Hf|done].
Qed.

Lemma ignores_raise {A} (e : exn) :
  ignores_np_random (User:=User) (Item:=Item) (raise e : M A).
Proof. by intros w n. Qed.

Lemma ignores_lift {A} (r : result A) :
  ignores_np_random (User:=User) (Item:=Item) (lift r : M A).
Proof. by intros w n. Qed.

Lemma ignores_get_self : ignores_np_random (User:=User) (Item:=Item) get_self.
Proof. by intros w n. Qed.

Lemma ignores_set_self s :
  ignores_np_random (User:=User) (Item:=Item) (set_self s).
Proof. by intros w n. Qed.

Lemma ignores_attr {A} name (o : option A) :
  ignores_np_random (User:=User) (Item:=Item) (attr name o).
Proof. destruct o; [apply ignores_ret|apply ignores_raise]. Qed.

Lemma ignores_del {A} name (o : option A) :
  ignores_np_random (User:=User) (Item:=Item) (del name o).
Proof. destruct o; [apply ignores_ret|apply ignores_raise]. Qed.

Lemma ignores_py_assert b :
  ignores_np_random (User:=User) (Item:=Item) (py_assert b).
Proof. destruct b; [apply ignores_ret|apply ignores_raise]. Qed.

Lemma ignores_np_item {A} (v : list A) u :
  ignores_np_random (User:=User) (Item:=Item) (np_item v u).
Proof.
  unfold np_item. destruct (v !! u); [apply ignores_ret|apply ignores_raise].
Qed.

Lemma ignores_np_alloc a :
  ignores_np_random (User:=User) (Item:=Item) (np_alloc a).
Proof. by intros w n. Qed.

Lemma ignores_np_read X :
  ignores_np_random (User:=User) (Item:=Item) (np_read X).
Proof. by intros w n. Qed.

Lemma ignores_np_update X f :
  ignores_np_random (User:=User) (Item:=Item) (np_update X f).
Proof. by intros w n. Qed.

Lemma ignores_np_copy X :
  ignores_np_random (User:=User) (Item:=Item) (np_copy X).
Proof.
  apply ignores_bind; [apply ignores_np_read|intros a; apply ignores_np_alloc].
Qed.

Lemma ignores_np_row X u :
  ignores_np_random (User:=User) (Item:=Item) (np_row X u).
Proof.
  apply ignores_bind; [apply ignores_np_read|]. intros a.
  destruct (a !! u); [apply ignores_ret|apply ignores_raise].
Qed.

Lemma ignores_np_zero_cells X u cols :
  ignores_np_random (User:=User) (Item:=Item) (np_zero_cells X u cols).
Proof.
  apply ignores_bind; [apply ignores_np_row|intros _; apply ignores_np_update].
Qed.

Lemma ignores_random_choice l :
  ignores_np_random (User:=User) (Item:=Item) (random_choice l).
Proof.
  intros w n. destruct l as [|x l]; [done|]. unfold random_choice.
  cbn [py_random with_np_random].
  by destruct (randbelow (py_random w) (length (x :: l))).
Qed.

Lemma ignores_print_sparsness zero shape :
  ignores_np_random (User:=User) (Item:=Item) (print_sparsness zero shape).
Proof. intros w n. unfold print_sparsness. by destruct (bool_decide _). Qed.

Lemma ignores_for_each {A S} (l : list A) (body : A → S → M S) s :
  (∀ x s, ignores_np_random (User:=User) (Item:=Item) (body x s)) →
  ignores_np_random (User:=User) (Item:=Item) (for_each l body s).
Proof.
  intros Hb. revert s. induction l as [|x l IH]; intros s; simpl.
  - apply ignores_ret.
  - apply ignores_bind; [apply Hb|apply IH].
Qed.

Create HintDb np_frame.

#[local] Hint Resolve ignores_ret ignores_bind ignores_raise ignores_lift
  ignores_get_self ignores_set_self ignores_attr ignores_del
  ignores_py_assert ignores_np_item ignores_np_alloc ignores_np_read
  ignores_np_update ignores_np_copy ignores_np_row ignores_np_zero_cells
  ignores_random_choice ignores_print_sparsness ignores_for_each : np_frame.

Lemma ignores_gen_index : ignores_np_random (User:=User) (Item:=Item) gen_index.
Proof. unfold gen_index. eauto with np_frame. Qed.

Lemma ignores_gen_affinity_matrix :
  ignores_np_random (User:=User) (Item:=Item) gen_affinity_matrix.
Proof.
  unfold gen_affinity_matrix, set_AM. cbv zeta. eauto 30 with np_frame.
Qed.

Lemma ignores_map_back_sparse X :
  ignores_np_random (User:=User) (Item:=Item) (map_back_sparse X).
Proof. unfold map_back_sparse. cbv zeta. eauto 20 with np_frame. Qed.

Lemma ignores_draw k l : ignores_np_random (User:=User) (Item:=Item) (draw k l).
Proof. unfold draw. eauto 20 with np_frame. Qed.

Lemma ignores_split_user Xtr Xtst rated tst u l :
  ignores_np_random (User:=User) (Item:=Item)
    (split_user Xtr Xtst rated tst u l).
Proof.
  pose proof ignores_draw. unfold split_user. cbv zeta.
  eauto 40 with np_frame.
Qed.

(** [stratified_split] is [np.random.seed(seed)] followed by a computation
    that ignores NumPy's generator. *)
Lemma stratified_split_body ratio :
  ∃ rest : M _,
    ignores_np_random (User:=User) (Item:=Item) rest ∧
    ∀ seed w, (0 ≤ seed < 2 ^ 32)%Z →
      stratified_split ratio seed w = rest (seeded w seed).
Proof.
  eexists. split; cycle 1.
  - intros seed w Hseed. unfold stratified_split.
    rewrite bind_run. unfold np_random_seed at 1.
    rewrite bool_decide_true by done. fold (seeded w seed). reflexivity.
  - pose proof ignores_gen_index. pose proof ignores_gen_affinity_matrix.
    pose proof ignores_map_back_sparse. pose proof ignores_split_user.
    cbv zeta. eauto 60 with np_frame.
Qed.

(** X14.  The seed has no effect on the split: with any two valid seeds,
    [stratified_split] returns the same result (or raises the same
    exception) and leaves the same object, arrays, state of the [random]
    generator and output; only the state of NumPy's generator, which is
    set to the seed and never drawn from, differs. *)
Theorem seed_has_no_effect ratio seed1 seed2 w :
  (0 ≤ seed1 < 2 ^ 32)%Z → (0 ≤ seed2 < 2 ^ 32)%Z →
  (stratified_split ratio seed2 w).1 = (stratified_split ratio seed1 w).1 ∧
  (stratified_split ratio seed2 w).2
  = with_np_random (stratified_split ratio seed1 w).2 (Some seed2).
Proof.
  intros H1 H2. destruct (stratified_split_body ratio) as (rest & Hign & Heq).
  rewrite (Heq seed2 w H2), (Heq seed1 w H1).
  change (seeded w seed2) with (with_np_random (seeded w seed1) (Some seed2)).
  by rewrite Hign.
Qed.
End Extras.

(** * The scenario of the specification, evaluated

    String identifiers, a merge sort on the user column and the counting
    generator. *)

(** The ratios used below are ratios. *)
Lemma is_ratio_half : is_ratio ratio_half.
Proof. by vm_compute. Qed.

Lemma is_ratio_three_quarters : is_ratio ratio_three_quarters.
Proof. by vm_compute. Qed.

Lemma is_ratio_tiny : is_ratio ratio_tiny.
Proof. by vm_compute. Qed.

Lemma is_ratio_034 : is_ratio ratio_034.
Proof. by vm_compute. Qed.

(** The constants of [(1 - ratio) * 100] are the doubles 1.0 and 100.0. *)
Example one_and_hundred :
  float_of_int 1 = S754_finite false 4503599627370496 (-52) ∧
  (SF2Q (float_of_int 1) == 1)%Q ∧
  float_of_int 100 = S754_finite false 7036874417766400 (-46) ∧
  (SF2Q (float_of_int 100) == 100)%Q.
Proof. repeat split; by vm_compute. Qed.

(** The scenario: [Nusers = Nitems = 2], [test_cut = 50], user U1 loses one
    of its two ratings to the test set, user U2 keeps its only one. *)
Example scenario_split :
  ∃ maps w',
    stratified_split ratio_half 42 (new_splitter scenario 0)
    = (Ok (1, 2,
           [(Some "U1", Some "I2", 3%Z); (Some "U2", Some "I1", 4%Z)],
           [(Some "U1", Some "I1", 5%Z)], maps), w') ∧
    heap w' = [ [[5; 3]; [4; 0]]; [[0; 3]; [4; 0]]; [[5; 0]; [0; 0]] ]%Z ∧
    stdout w' = [(1, (2, 2))].
Proof. eexists _, _. split; [vm_compute; reflexivity|]. by vm_compute. Qed.

(** C1 (what the code does).  Two calls of [stratified_split] on the same
    object with the same ratio and the same seed 42 return different train
    and test tables: the seed is given to NumPy's generator, and the sampling
    draws from the generator of the [random] module, which the first call
    has advanced.  A call with another seed, from the same state of that
    generator, returns what the call with seed 42 returned. *)
Theorem same_seed_different_split :
  ∃ maps w1 w2 w3,
    stratified_split ratio_half 42 (new_splitter scenario 0)
    = (Ok (1, 2,
           [(Some "U1", Some "I2", 3%Z); (Some "U2", Some "I1", 4%Z)],
           [(Some "U1", Some "I1", 5%Z)], maps), w1) ∧
    stratified_split ratio_half 42 w1
    = (Ok (4, 5,
           [(Some "U1", Some "I1", 5%Z); (Some "U2", Some "I1", 4%Z)],
           [(Some "U1", Some "I2", 3%Z)], maps), w2) ∧
    heap w1 !! 1 = Some [[0; 3]; [4; 0]]%Z ∧
    heap w2 !! 4 = Some [[5; 0]; [4; 0]]%Z ∧
    stratified_split ratio_half 7 (new_splitter scenario 0)
    = (Ok (1, 2,
           [(Some "U1", Some "I2", 3%Z); (Some "U2", Some "I1", 4%Z)],
           [(Some "U1", Some "I1", 5%Z)], maps), w3).
Proof.
  eexists _, _, _, _.
  split; [vm_compute; reflexivity|].
  split; [vm_compute; reflexivity|].
  split; [by vm_compute|]. split; [by vm_compute|].
  vm_compute; reflexivity.
Qed.

(** Rows [(U1, I1, 5)] and [(U1, I1, 2)] give the cell 7. *)
Example duplicate_rows_summed :
  ∃ w',
    (gen_index ;; gen_affinity_matrix) (new_splitter duplicates 0)
    = (Ok tt, w') ∧
    AM (self w') = Some 0 ∧ heap w' = [ [[7%Z]] ].
Proof. eexists. split; [vm_compute; reflexivity|]. by vm_compute. Qed.

Lemma duplicates_are_summed_witness :
  "U1" ∈ user <$> df (self (new_splitter duplicates 0)) ∧
  "I1" ∈ item <$> df (self (new_splitter duplicates 0)) ∧
  ∃ w' am A mu mi u i,
    (gen_index ;; gen_affinity_matrix) (new_splitter duplicates 0)
    = (Ok tt, w') ∧
    AM (self w') = Some am ∧ heap w' !! am = Some A ∧
    map_users (self w') = Some mu ∧ map_items (self w') = Some mi ∧
    mu !! "U1" = Some u ∧ mi !! "I1" = Some i ∧
    let total := Zsum (rating <$> filter (λ r, user r = "U1" ∧ item r = "I1")
                                         (df (self (new_splitter duplicates 0)))) in
    cell A u i = Some (int64 total) ∧
    ((- 2 ^ 63 ≤ total < 2 ^ 63)%Z → cell A u i = Some total).
Proof.
  assert ("U1" ∈ user <$> df (self (new_splitter duplicates 0))) as Hx
    by (apply (bool_decide_unpack _); vm_compute; exact I).
  assert ("I1" ∈ item <$> df (self (new_splitter duplicates 0))) as Hy
    by (apply (bool_decide_unpack _); vm_compute; exact I).
  split; [exact Hx|]. split; [exact Hy|].
  exact (duplicates_are_summed (new_splitter duplicates 0) "U1" "I1" Hx Hy).
Defined.

(** C5, as stated, fails: the two rows of [big_duplicates] have the same
    user and item and the rating [2^62] each; the sum of the ratings is
    [2^63], and the cell holds [-2^63], the int64 sum. *)
Lemma duplicate_sum_wraps :
  Zsum (rating <$> big_duplicates) = (2 ^ 63)%Z ∧
  ∃ w',
    (gen_index ;; gen_affinity_matrix) (new_splitter big_duplicates 0)
    = (Ok tt, w') ∧
    AM (self w') = Some 0 ∧ heap w' = [ [[(- 2 ^ 63)%Z]] ] ∧
    cell [[(- 2 ^ 63)%Z]] 0 0 ≠ Some (Zsum (rating <$> big_duplicates)).
Proof.
  split; [by vm_compute|].
  eexists. split; [vm_compute; reflexivity|].
  split; [by vm_compute|]. split; [by vm_compute|]. by vm_compute.
Qed.

Lemma split_rows_partition_witness :
  ∃ tr ts maps w',
    stratified_split ratio_half 42 (new_splitter scenario 0)
    = (Ok (1, 2, tr, ts, maps), w') ∧
    ∃ am A Tr Ts mu mi,
      AM (self w') = Some am ∧ heap w' !! am = Some A ∧
      A = affinity_matrix (df (self (new_splitter scenario 0))) ∧
      length A
      = size (list_to_set (user <$> df (self (new_splitter scenario 0)))
              : gset string) ∧
      Forall (λ r, length r
                   = size (list_to_set
                             (item <$> df (self (new_splitter scenario 0)))
                           : gset string)) A ∧
      0 < length A ∧
      map_users (self w') = Some mu ∧ map_items (self w') = Some mi ∧
      (∀ r, r ∈ df (self (new_splitter scenario 0)) →
         ∃ u i, mu !! user r = Some u ∧ mi !! item r = Some i ∧
           cell A u i
           = Some (int64 (Zsum (rating <$> filter
                                  (λ r', user r' = user r ∧ item r' = item r)
                                  (df (self (new_splitter scenario 0))))))) ∧
      heap w' !! 1 = Some Tr ∧ heap w' !! 2 = Some Ts ∧
      length Tr = length A ∧ length Ts = length A ∧
      ∀ u row, A !! u = Some row →
        ∃ rtr rts,
          Tr !! u = Some rtr ∧ Ts !! u = Some rts ∧
          length rtr = length row ∧ length rts = length row ∧
          nonzero_set rtr ## nonzero_set rts ∧
          nonzero_set rtr ∪ nonzero_set rts = nonzero_set row ∧
          count_nonzero rtr + count_nonzero rts = count_nonzero row.
Proof.
  eexists _, _, _, _. split; [vm_compute; reflexivity|].
  eapply (split_rows_partition ratio_half 42 (new_splitter scenario 0)).
  vm_compute; reflexivity.
Defined.

(** With ratio 0.34 the double [1 - 0.34] is just below 0.66 and the
    product just below 66: the test percentage is 65, and user U1, with 2
    ratings, gets [2 * 65 // 100 = 1] test item. *)
Lemma test_cut_and_test_count_witness :
  is_ratio ratio_034 ∧
  ∃ tr ts maps w',
    stratified_split ratio_034 42 (new_splitter scenario 0)
    = (Ok (1, 2, tr, ts, maps), w') ∧
    ∃ test_cut Ts,
      py_int (SF64mul (SF64sub (float_of_int 1) ratio_034) (float_of_int 100))
      = Ok test_cut ∧
      test_cut
      = Qfloor (SF2Q (SF64mul (SF64sub (float_of_int 1) ratio_034)
                              (float_of_int 100))) ∧
      (0 ≤ test_cut ≤ 100)%Z ∧
      heap w' !! 2 = Some Ts ∧
      length Ts
      = length (affinity_matrix (df (self (new_splitter scenario 0)))) ∧
      ∀ u row,
        affinity_matrix (df (self (new_splitter scenario 0))) !! u = Some row →
        ∃ rts, Ts !! u = Some rts ∧
               Z.of_nat (count_nonzero rts)
               = ((Z.of_nat (count_nonzero row) * test_cut) `div` 100)%Z.
Proof.
  split; [by vm_compute|].
  eexists _, _, _, _. split; [vm_compute; reflexivity|].
  eapply (test_cut_and_test_count ratio_034 42 (new_splitter scenario 0)).
  - by vm_compute.
  - vm_compute; reflexivity.
Defined.

(** The run of the witness: the test percentage is 65, not 66. *)
Example ratio_034_split :
  py_int (test_percent ratio_034) = Ok 65%Z ∧
  SF2Q (test_percent ratio_034)
  = (inject_Z 4644337115725823 * Qpower 2 (-46))%Q ∧
  ∃ maps w',
    stratified_split ratio_034 42 (new_splitter scenario 0)
    = (Ok (1, 2,
           [(Some "U1", Some "I2", 3%Z); (Some "U2", Some "I1", 4%Z)],
           [(Some "U1", Some "I1", 5%Z)], maps), w').
Proof.
  split; [by vm_compute|]. split; [by vm_compute|].
  eexists _, _. vm_compute; reflexivity.
Qed.

(** C6, as stated, fails: the test percentage is not the floor of the real
    number [(1 - r) × 100].  For the double written 0.2 the code gives 80,
    and the floor of [(1 - r) × 100] for that double [r], which is a little
    above 1/5, is 79.  And for the double written 0.9, the double nearest
    to 9/10, the code gives 9, where [(1 - 9/10) × 100] is 10. *)
Lemma test_cut_is_not_the_exact_floor :
  is_ratio ratio_one_fifth ∧
  py_int (SF64mul (SF64sub (float_of_int 1) ratio_one_fifth) (float_of_int 100))
  = Ok 80%Z ∧
  Qfloor ((1 - SF2Q ratio_one_fifth) * 100) = 79%Z ∧
  is_ratio ratio_nine_tenths ∧
  py_int (SF64mul (SF64sub (float_of_int 1) ratio_nine_tenths)
                  (float_of_int 100))
  = Ok 9%Z ∧
  (Qabs (SF2Q ratio_nine_tenths - (9 # 10)) < Qpower 2 (-54))%Q ∧
  Qfloor ((1 - (9 # 10)) * 100) = 10%Z.
Proof.
  split; [by vm_compute|]. split; [by vm_compute|]. split; [by vm_compute|].
  split; [by vm_compute|]. split; [by vm_compute|]. split; by vm_compute.
Qed.

(** With ratio 0.65 the double [(1 - 0.65) * 100] is exactly 35, and with
    ratio 0.9 it is just below 10: [int()] gives 35 and 9. *)
Example test_cut_truncates :
  py_int (test_percent ratio_half) = Ok 50%Z ∧
  py_int (test_percent ratio_three_quarters) = Ok 25%Z ∧
  py_int (test_percent (S754_finite false 5854679515581645 (-53))) = Ok 35%Z ∧
  py_int (test_percent ratio_nine_tenths) = Ok 9%Z.
Proof. by vm_compute. Qed.

(** A call that returns, and a call that raises after the loop over the
    users: in both [self.AM] holds the matrix as it was built. *)
Lemma split_never_mutates_AM_witness :
  (∃ res w',
    stratified_split ratio_half 42 (new_splitter scenario 0) = (res, w') ∧
    is_ok res ∧
    (∀ X, X < length (heap (new_splitter scenario 0)) → heap w' !! X = heap (new_splitter scenario 0) !! X) ∧
    (∀ c, (0 ≤ 42 < 2 ^ 32)%Z → py_int (test_percent ratio_half) = Ok c →
       ∃ am,
         AM (self w') = Some am ∧
         AM (self ((gen_index ;; gen_affinity_matrix) (new_splitter scenario 0)).2) = Some am ∧
         heap w' !! am
         = heap ((gen_index ;; gen_affinity_matrix) (new_splitter scenario 0)).2 !! am ∧
         heap w' !! am = Some (affinity_matrix (df (self (new_splitter scenario 0)))) ∧
         length (heap (new_splitter scenario 0)) ≤ am) ∧
    (¬ (0 ≤ 42 < 2 ^ 32)%Z ∨
     (∃ e, py_int (test_percent ratio_half) = Raise e) →
     self w' = self (new_splitter scenario 0) ∧ heap w' = heap (new_splitter scenario 0)) ∧
    (∀ xtr xtst tr ts maps, res = Ok (xtr, xtst, tr, ts, maps) →
       ∃ am,
         AM (self w') = Some am ∧
         is_Some (heap w' !! xtr) ∧ is_Some (heap w' !! xtst) ∧
         length (heap (new_splitter scenario 0)) ≤ xtr ∧ length (heap (new_splitter scenario 0)) ≤ xtst ∧
         xtr ≠ am ∧ xtst ≠ am ∧ xtr ≠ xtst)) ∧
  (∃ res w',
    stratified_split ratio_three_quarters 42 (new_splitter one_row 0)
    = (res, w') ∧
    res = Raise (UnboundLocalError "sub_el") ∧
    (∀ X, X < length (heap (new_splitter one_row 0)) → heap w' !! X = heap (new_splitter one_row 0) !! X) ∧
    (∀ c, (0 ≤ 42 < 2 ^ 32)%Z → py_int (test_percent ratio_three_quarters) = Ok c →
       ∃ am,
         AM (self w') = Some am ∧
         AM (self ((gen_index ;; gen_affinity_matrix) (new_splitter one_row 0)).2) = Some am ∧
         heap w' !! am
         = heap ((gen_index ;; gen_affinity_matrix) (new_splitter one_row 0)).2 !! am ∧
         heap w' !! am = Some (affinity_matrix (df (self (new_splitter one_row 0)))) ∧
         length (heap (new_splitter one_row 0)) ≤ am) ∧
    (¬ (0 ≤ 42 < 2 ^ 32)%Z ∨
     (∃ e, py_int (test_percent ratio_three_quarters) = Raise e) →
     self w' = self (new_splitter one_row 0) ∧ heap w' = heap (new_splitter one_row 0)) ∧
    (∀ xtr xtst tr ts maps, res = Ok (xtr, xtst, tr, ts, maps) →
       ∃ am,
         AM (self w') = Some am ∧
         is_Some (heap w' !! xtr) ∧ is_Some (heap w' !! xtst) ∧
         length (heap (new_splitter one_row 0)) ≤ xtr ∧ length (heap (new_splitter one_row 0)) ≤ xtst ∧
         xtr ≠ am ∧ xtst ≠ am ∧ xtr ≠ xtst)).
Proof.
  split.
  - eexists _, _. split; [vm_compute; reflexivity|]. split; [exact I|].
    eapply (split_never_mutates_AM ratio_half 42 (new_splitter scenario 0)).
    vm_compute; reflexivity.
  - eexists _, _. split; [vm_compute; reflexivity|]. split; [reflexivity|].
    eapply (split_never_mutates_AM ratio_three_quarters 42
              (new_splitter one_row 0)).
    vm_compute; reflexivity.
Defined.

(** The call that raises has zeroed the only row of its test array; the
    matrix of [self.AM], at position 0, is intact. *)
Example raising_split_keeps_AM :
  ∃ w',
    stratified_split ratio_three_quarters 42 (new_splitter one_row 0)
    = (Raise (UnboundLocalError "sub_el"), w') ∧
    AM (self w') = Some 0 ∧
    heap w' = [ [[5]]; [[5]]; [[0]] ]%Z.
Proof. eexists. split; [vm_compute; reflexivity|]. by vm_compute. Qed.

Lemma sampling_is_safe_witness :
  is_ratio ratio_half ∧
  (∃ c, py_int (test_percent ratio_half) = Ok c ∧ (0 ≤ c ≤ 100)%Z ∧
        ∀ row,
          (0 ≤ test_count c row ≤ Z.of_nat (count_nonzero row))%Z ∧
          ((c < 100)%Z → 0 < count_nonzero row →
           (test_count c row < Z.of_nat (count_nonzero row))%Z)) ∧
  (stratified_split ratio_half 42 (new_splitter scenario 0)).1
    ≠ Raise (IndexError "Cannot choose from an empty sequence") ∧
  (stratified_split ratio_half 42 (new_splitter scenario 0)).1
    ≠ Raise (ValueError "list.remove(x): x not in list").
Proof.
  split; [by vm_compute|].
  apply (sampling_is_safe ratio_half 42 (new_splitter scenario 0)).
  by vm_compute.
Defined.

(** C10, as stated, fails: for the ratio [2^-60] the double [1 - r] is 1.0,
    the test percentage is 100, and a rated row goes to the test set whole:
    its test count is not strictly less than its number of ratings. *)
Lemma test_count_not_strictly_less :
  is_ratio ratio_tiny ∧
  py_int (test_percent ratio_tiny) = Ok 100%Z ∧
  0 < count_nonzero [5%Z] ∧
  test_count 100 [5%Z] = Z.of_nat (count_nonzero [5%Z]) ∧
  ∃ maps w',
    stratified_split ratio_tiny 42 (new_splitter scenario 0)
    = (Ok (1, 2, [],
           [(Some "U1", Some "I1", 5%Z); (Some "U1", Some "I2", 3%Z);
            (Some "U2", Some "I1", 4%Z)], maps), w').
Proof.
  split; [by vm_compute|]. split; [by vm_compute|].
  split; [vm_compute; lia|]. split; [by vm_compute|].
  eexists _, _. vm_compute; reflexivity.
Qed.

Lemma degenerate_inputs_raise_witness :
  (0 ≤ 42 < 2 ^ 32)%Z ∧
  py_int (test_percent ratio_three_quarters) = Ok 25%Z ∧
  Forall (λ row, Z.to_nat (test_count 25 row) = 0)
         (affinity_matrix [ {| user := "U1"; item := "I1"; rating := 5;
                               rating_int64 := I |} ]) ∧
  (stratified_split ratio_three_quarters 42
     (new_splitter [ {| user := "U1"; item := "I1"; rating := 5;
                             rating_int64 := I |} ] 0)).1
  = Raise (UnboundLocalError "sub_el").
Proof.
  assert ((0 ≤ 42 < 2 ^ 32)%Z) as Hseed by (by vm_compute).
  assert (py_int (test_percent ratio_three_quarters) = Ok 25%Z) as Hc
    by (by vm_compute).
  assert (Forall (λ row, Z.to_nat (test_count 25 row) = 0)
            (affinity_matrix [ {| user := "U1"; item := "I1"; rating := 5;
                               rating_int64 := I |} ]))
    as Hz by (vm_compute; repeat constructor).
  split; [exact Hseed|]. split; [exact Hc|]. split; [exact Hz|].
  exact (degenerate_inputs_raise ratio_three_quarters 42
           (new_splitter [ {| user := "U1"; item := "I1"; rating := 5;
                             rating_int64 := I |} ] 0)
           25 Hseed Hc Hz).
Defined.

(** The empty table: [gen_affinity_matrix] has built the [(0, 0)] matrix and
    raises when it prints the sparsity. *)
Example empty_table_raises :
  ∃ w',
    stratified_split ratio_half 42 (new_splitter [] 0)
    = (Raise (ValueError "cannot convert float NaN to integer"), w') ∧
    Nusers (self w') = Some 0 ∧ Nitems (self w') = Some 0 ∧
    heap w' = [ [] ].
Proof. eexists. split; [vm_compute; reflexivity|]. by vm_compute. Qed.

Lemma map_back_sparse_keeps_unmapped_cells_witness :
  map_back_users (self stale_maps) = Some {[ 0 := "U1" ]} ∧
  map_back_items (self stale_maps) = Some {[ 0 := "I1" ]} ∧
  ∃ out,
    map_back_sparse 0 stale_maps = (Ok out, stale_maps) ∧
    length out
    = sum_list (count_nonzero <$> default [] (heap stale_maps !! 0)) ∧
    ∀ u i r, cell (default [] (heap stale_maps !! 0)) u i = Some r →
             r ≠ 0%Z →
             (({[ 0 := "U1" ]} : gmap nat string) !! u,
              ({[ 0 := "I1" ]} : gmap nat string) !! i, r) ∈ out.
Proof.
  split; [reflexivity|]. split; [reflexivity|].
  apply (map_back_sparse_keeps_unmapped_cells 0 stale_maps
           {[ 0 := "U1" ]} {[ 0 := "I1" ]}); reflexivity.
Defined.

(** C4, as stated, fails: the cells [(0, 1)] and [(1, 0)] of the matrix are
    rated, index 1 is in neither backward dictionary, and [map_back_sparse]
    returns a table, with the missing value in place of the identifiers it
    could not find: no exception is raised. *)
Lemma unmapped_index_no_error :
  cell [[5; 3]; [4; 0]]%Z 0 1 = Some 3%Z ∧
  cell [[5; 3]; [4; 0]]%Z 1 0 = Some 4%Z ∧
  ({[ 0 := "U1" ]} : gmap nat string) !! 1 = None ∧
  ({[ 0 := "I1" ]} : gmap nat string) !! 1 = None ∧
  map_back_sparse 0 stale_maps
  = (Ok [ (Some "U1", Some "I1", 5%Z); (Some "U1", None, 3%Z);
          (None, Some "I1", 4%Z) ], stale_maps) ∧
  ∀ e, (map_back_sparse 0 stale_maps).1 ≠ Raise e.
Proof.
  repeat (split; [by vm_compute|]).
  intros e. by vm_compute.
Qed.

(** The scenario comes back from the round trip; the empty table
    raises. *)
Lemma round_trip_returns_the_rows_witness :
  (NoDup ((λ r, (user r, item r)) <$> df (self (new_splitter scenario 0))) ∧
   Forall (λ r, rating r ≠ 0%Z) (df (self (new_splitter scenario 0))) ∧
   ∃ out w',
     round_trip (new_splitter scenario 0) = (Ok out, w') ∧
     out ≡ₚ to_out <$> df (self (new_splitter scenario 0)) ∧
     ∀ w2, df (self w2) ≡ₚ df (self (new_splitter scenario 0)) →
       ∃ out2 w2', round_trip w2 = (Ok out2, w2') ∧ out2 ≡ₚ out) ∧
  (NoDup ((λ r, (user r, item r)) <$> df (self (new_splitter [] 0))) ∧
   Forall (λ r, rating r ≠ 0%Z) (df (self (new_splitter [] 0))) ∧
   round_trip (new_splitter [] 0)
   = (Raise (ValueError "cannot convert float NaN to integer"),
      built (new_splitter [] 0))).
Proof.
  assert (NoDup ((λ r, (user r, item r))
                   <$> df (self (new_splitter scenario 0)))) as Hnd
    by (apply (bool_decide_unpack _); vm_compute; exact I).
  assert (Forall (λ r, rating r ≠ 0%Z) (df (self (new_splitter scenario 0))))
    as Hnz by (repeat constructor; done).
  assert (NoDup ((λ r : Row string string, (user r, item r))
                   <$> df (self (new_splitter [] 0)))) as Hnd0
    by constructor.
  assert (Forall (λ r : Row string string, rating r ≠ 0%Z)
                 (df (self (new_splitter [] 0))))
    as Hnz0 by constructor.
  split.
  - split; [exact Hnd|]. split; [exact Hnz|].
    exact (round_trip_returns_the_rows (new_splitter scenario 0) Hnd Hnz).
  - split; [exact Hnd0|]. split; [exact Hnz0|].
    exact (round_trip_returns_the_rows (new_splitter [] 0) Hnd0 Hnz0).
Defined.

(** The round trip on the scenario and on the empty table, evaluated: the
    three rows come back; on the empty table [self.AM] is the [(0, 0)]
    matrix and the call has raised. *)
Example round_trip_scenario :
  (∃ w',
     round_trip (new_splitter scenario 0)
     = (Ok [ (Some "U1", Some "I1", 5%Z); (Some "U1", Some "I2", 3%Z);
             (Some "U2", Some "I1", 4%Z) ], w')) ∧
  (∃ w',
     round_trip (new_splitter [] 0)
     = (Raise (ValueError "cannot convert float NaN to integer"), w') ∧
     AM (self w') = Some 0 ∧ heap w' = [ [] ]).
Proof.
  split; [eexists; vm_compute; reflexivity|].
  eexists. split; [vm_compute; reflexivity|]. by vm_compute.
Qed.

(** * The further properties, on the scenario *)

Lemma methods_need_gen_index_witness :
  self (new_splitter scenario 0) = __init__ scenario ∧
  gen_affinity_matrix (new_splitter scenario 0)
  = (Raise (AttributeError "df_"), new_splitter scenario 0) ∧
  map_back_sparse 0 (new_splitter scenario 0)
  = (Raise (AttributeError "map_back_users"), new_splitter scenario 0).
Proof.
  split; [reflexivity|].
  apply (methods_need_gen_index scenario 0 (new_splitter scenario 0)).
  reflexivity.
Defined.

Lemma gen_affinity_matrix_shape_witness :
  df (self (new_splitter scenario 0)) ≠ [] ∧
  ∃ w' A line,
    (gen_index ;; gen_affinity_matrix) (new_splitter scenario 0)
    = (Ok tt, w') ∧
    AM (self w') = Some (length (heap (new_splitter scenario 0))) ∧
    heap w' = heap (new_splitter scenario 0) ++ [A] ∧
    Nusers (self w')
    = Some (size (list_to_set (user <$> df (self (new_splitter scenario 0)))
                  : gset string)) ∧
    Nitems (self w')
    = Some (size (list_to_set (item <$> df (self (new_splitter scenario 0)))
                  : gset string)) ∧
    length A
    = size (list_to_set (user <$> df (self (new_splitter scenario 0)))
            : gset string) ∧
    Forall (λ r, length r
                 = size (list_to_set
                           (item <$> df (self (new_splitter scenario 0)))
                         : gset string)) A ∧
    0 < length A ∧
    df (self w') = df (self (new_splitter scenario 0)) ∧
    stdout w' = stdout (new_splitter scenario 0) ++ [line].
Proof.
  assert (df (self (new_splitter scenario 0)) ≠ []) as Hd by done.
  split; [exact Hd|].
  exact (gen_affinity_matrix_shape (new_splitter scenario 0) Hd).
Defined.

(** The matrix of the scenario: user U2 has not rated item I2. *)
Example scenario_matrix :
  ∃ w',
    (gen_index ;; gen_affinity_matrix) (new_splitter scenario 0)
    = (Ok tt, w') ∧
    heap w' = [ [[5; 3]; [4; 0]]%Z ] ∧
    Nusers (self w') = Some 2 ∧ Nitems (self w') = Some 2 ∧
    stdout w' = [(1, (2, 2))].
Proof. eexists. split; [vm_compute; reflexivity|]. by vm_compute. Qed.

Lemma unrated_pairs_are_zero_witness :
  "U2" ∈ user <$> df (self (new_splitter scenario 0)) ∧
  "I2" ∈ item <$> df (self (new_splitter scenario 0)) ∧
  (∀ r, r ∈ df (self (new_splitter scenario 0)) →
        ¬ (user r = "U2" ∧ item r = "I2")) ∧
  ∃ w' am A mu mi u i,
    (gen_index ;; gen_affinity_matrix) (new_splitter scenario 0)
    = (Ok tt, w') ∧
    AM (self w') = Some am ∧ heap w' !! am = Some A ∧
    map_users (self w') = Some mu ∧ map_items (self w') = Some mi ∧
    mu !! "U2" = Some u ∧ mi !! "I2" = Some i ∧
    cell A u i = Some 0%Z.
Proof.
  assert ("U2" ∈ user <$> df (self (new_splitter scenario 0))) as Hx
    by (apply (bool_decide_unpack _); vm_compute; exact I).
  assert ("I2" ∈ item <$> df (self (new_splitter scenario 0))) as Hy
    by (apply (bool_decide_unpack _); vm_compute; exact I).
  assert (∀ r, r ∈ df (self (new_splitter scenario 0)) →
               ¬ (user r = "U2" ∧ item r = "I2")) as Hno.
  { intros r Hr [Hu Hi]. cbn [new_splitter self df scenario] in Hr.
    repeat (apply elem_of_cons in Hr as [->|Hr]; [by simpl in *|]).
    by apply elem_of_nil in Hr. }
  split; [exact Hx|]. split; [exact Hy|]. split; [exact Hno|].
  exact (unrated_pairs_are_zero (new_splitter scenario 0) "U2" "I2" Hx Hy Hno).
Defined.

Lemma map_back_sparse_row_major_witness :
  map_back_users (self stale_maps) = Some {[ 0 := "U1" ]} ∧
  map_back_items (self stale_maps) = Some {[ 0 := "I1" ]} ∧
  ∃ cells : list (nat * nat * Z),
    map_back_sparse 0 stale_maps
    = (Ok ((λ t, (({[ 0 := "U1" ]} : gmap nat string) !! t.1.1,
                  ({[ 0 := "I1" ]} : gmap nat string) !! t.1.2, t.2))
             <$> cells), stale_maps) ∧
    (∀ u i r, (u, i, r) ∈ cells
              ↔ cell (default [] (heap stale_maps !! 0)) u i = Some r
                ∧ r ≠ 0%Z) ∧
    StronglySorted row_major cells.
Proof.
  split; [reflexivity|]. split; [reflexivity|].
  apply (map_back_sparse_row_major 0 stale_maps
           {[ 0 := "U1" ]} {[ 0 := "I1" ]}); reflexivity.
Defined.

Lemma non_finite_ratio_raises_witness :
  (0 ≤ 42 < 2 ^ 32)%Z ∧
  (S754_nan = S754_nan ∨ ∃ s, S754_nan = S754_infinity s) ∧
  stratified_split S754_nan 42 (new_splitter scenario 0)
  = (Raise (ValueError "cannot convert float NaN to integer"),
     seeded (new_splitter scenario 0) 42).
Proof.
  assert ((0 ≤ 42 < 2 ^ 32)%Z) as Hseed by (by vm_compute).
  assert (S754_nan = S754_nan ∨ ∃ s, S754_nan = S754_infinity s) as Hr
    by (left; reflexivity).
  split; [exact Hseed|]. split; [exact Hr|].
  exact (non_finite_ratio_raises S754_nan 42 (new_splitter scenario 0)
           Hseed Hr).
Defined.

Lemma invalid_seed_raises_witness :
  ¬ (0 ≤ -1 < 2 ^ 32)%Z ∧
  stratified_split ratio_half (-1) (new_splitter scenario 0)
  = (Raise (ValueError "Seed must be between 0 and 2**32 - 1"),
     new_splitter scenario 0).
Proof.
  assert (¬ (0 ≤ -1 < 2 ^ 32)%Z) as Hseed by lia.
  split; [exact Hseed|].
  exact (invalid_seed_raises ratio_half (-1) (new_splitter scenario 0) Hseed).
Defined.

(** With ratio -1.0 the test percentage is 200: user U1, with 2 ratings,
    is asked for 4 test items. *)
Lemma oversized_test_count_raises_witness :
  (0 ≤ 42 < 2 ^ 32)%Z ∧
  py_int (test_percent ratio_minus_one) = Ok 200%Z ∧
  (0 ≤ 200)%Z ∧
  Forall (λ row, (Z.of_nat (count_nonzero row) * 200 < 2 ^ 63)%Z)
         (affinity_matrix (df (self (new_splitter scenario 0)))) ∧
  [5; 3]%Z ∈ affinity_matrix (df (self (new_splitter scenario 0))) ∧
  count_nonzero [5; 3]%Z < Z.to_nat (test_count 200 [5; 3]%Z) ∧
  (stratified_split ratio_minus_one 42 (new_splitter scenario 0)).1
  = Raise (IndexError "Cannot choose from an empty sequence").
Proof.
  assert ((0 ≤ 42 < 2 ^ 32)%Z) as Hseed by (by vm_compute).
  assert (py_int (test_percent ratio_minus_one) = Ok 200%Z) as Hc
    by (by vm_compute).
  assert ((0 ≤ 200)%Z) as Hpos by (by vm_compute).
  assert (Forall (λ row, (Z.of_nat (count_nonzero row) * 200 < 2 ^ 63)%Z)
            (affinity_matrix (df (self (new_splitter scenario 0))))) as Hfit
    by (apply (bool_decide_unpack _); vm_compute; exact I).
  assert ([5; 3]%Z ∈ affinity_matrix (df (self (new_splitter scenario 0))))
    as Hrow by (apply (bool_decide_unpack _); vm_compute; exact I).
  assert (count_nonzero [5; 3]%Z < Z.to_nat (test_count 200 [5; 3]%Z))
    as Hlt by (vm_compute; lia).
  split; [exact Hseed|]. split; [exact Hc|]. split; [exact Hpos|].
  split; [exact Hfit|]. split; [exact Hrow|]. split; [exact Hlt|].
  exact (oversized_test_count_raises ratio_minus_one 42
           (new_splitter scenario 0) 200 [5; 3]%Z
           Hseed Hc Hpos Hfit Hrow Hlt).
Defined.

Lemma train_and_test_tables_partition_witness :
  ∃ tr ts maps w',
    stratified_split ratio_half 42 (new_splitter scenario 0)
    = (Ok (1, 2, tr, ts, maps), w') ∧
    ∃ am all,
      AM (self w') = Some am ∧
      map_back_sparse am w' = (Ok all, w') ∧
      tr ++ ts ≡ₚ all ∧
      (NoDup ((λ r, (user r, item r))
                <$> df (self (new_splitter scenario 0))) →
       Forall (λ r, rating r ≠ 0%Z) (df (self (new_splitter scenario 0))) →
       tr ++ ts ≡ₚ to_out <$> df (self (new_splitter scenario 0))).
Proof.
  eexists _, _, _, _. split; [vm_compute; reflexivity|].
  eapply (train_and_test_tables_partition ratio_half 42
            (new_splitter scenario 0)).
  vm_compute; reflexivity.
Defined.

Lemma train_and_test_split_the_cells_witness :
  ∃ tr ts maps w',
    stratified_split ratio_half 42 (new_splitter scenario 0)
    = (Ok (1, 2, tr, ts, maps), w') ∧
    ∃ am A Tr Ts,
      AM (self w') = Some am ∧ heap w' !! am = Some A ∧
      heap w' !! 1 = Some Tr ∧ heap w' !! 2 = Some Ts ∧
      cells_split A Tr Ts.
Proof.
  eexists _, _, _, _. split; [vm_compute; reflexivity|].
  eapply (train_and_test_split_the_cells ratio_half 42
            (new_splitter scenario 0)).
  vm_compute; reflexivity.
Defined.

Lemma split_tables_rows_witness :
  ∃ maps w',
    stratified_split ratio_half 42 (new_splitter scenario 0)
    = (Ok (1, 2,
           [(Some "U1", Some "I2", 3%Z); (Some "U2", Some "I1", 4%Z)],
           [(Some "U1", Some "I1", 5%Z)], maps), w') ∧
    (Some "U2", Some "I1", 4%Z)
    ∈ [(Some "U1", Some "I2", 3%Z); (Some "U2", Some "I1", 4%Z)]
      ++ [(Some "U1", Some "I1", 5%Z)] ∧
    ∃ x y,
      (Some "U2", Some "I1", 4%Z)
      = (Some x, Some y,
         int64 (Zsum (rating <$> filter (λ r, user r = x ∧ item r = y)
                                        (df (self (new_splitter scenario 0)))))) ∧
      x ∈ user <$> df (self (new_splitter scenario 0)) ∧
      y ∈ item <$> df (self (new_splitter scenario 0)) ∧
      (Some "U2", Some "I1", 4%Z).2 ≠ 0%Z.
Proof.
  eexists _, _. split; [vm_compute; reflexivity|].
  assert ((Some "U2", Some "I1", 4%Z)
          ∈ [(Some "U1", Some "I2", 3%Z); (Some "U2", Some "I1", 4%Z)]
            ++ [(Some "U1", Some "I1", 5%Z)]) as Ho
    by (apply (bool_decide_unpack _); vm_compute; exact I).
  split; [exact Ho|].
  eapply (split_tables_rows ratio_half 42 (new_splitter scenario 0));
    [vm_compute; reflexivity|exact Ho].
Defined.


Lemma seed_has_no_effect_witness :
  (0 ≤ 42 < 2 ^ 32)%Z ∧ (0 ≤ 7 < 2 ^ 32)%Z ∧
  (stratified_split ratio_half 7 (new_splitter scenario 0)).1
  = (stratified_split ratio_half 42 (new_splitter scenario 0)).1 ∧
  (stratified_split ratio_half 7 (new_splitter scenario 0)).2
  = with_np_random
      (stratified_split ratio_half 42 (new_splitter scenario 0)).2 (Some 7%Z).
Proof.
  assert ((0 ≤ 42 < 2 ^ 32)%Z) as H1 by (by vm_compute).
  assert ((0 ≤ 7 < 2 ^ 32)%Z) as H2 by (by vm_compute).
  split; [exact H1|]. split; [exact H2|].
  exact (seed_has_no_effect ratio_half 42 7 (new_splitter scenario 0) H1 H2).
Defined.

Lemma stratified_split_returns_witness :
  (0 ≤ 42 < 2 ^ 32)%Z ∧
  is_ratio ratio_half ∧
  py_int (test_percent ratio_half) = Ok 50%Z ∧
  [5; 3]%Z ∈ affinity_matrix (df (self (new_splitter scenario 0))) ∧
  (0 < test_count 50 [5; 3]%Z)%Z ∧
  ∃ xtr xtst tr ts maps w',
    stratified_split ratio_half 42 (new_splitter scenario 0)
    = (Ok (xtr, xtst, tr, ts, maps), w').
Proof.
  assert ((0 ≤ 42 < 2 ^ 32)%Z) as Hseed by (by vm_compute).
  assert (is_ratio ratio_half) as Hr by (by vm_compute).
  assert (py_int (test_percent ratio_half) = Ok 50%Z) as Hc
    by (by vm_compute).
  assert ([5; 3]%Z ∈ affinity_matrix (df (self (new_splitter scenario 0))))
    as Hrow by (apply (bool_decide_unpack _); vm_compute; exact I).
  assert ((0 < test_count 50 [5; 3]%Z)%Z) as Hpos
    by (vm_compute; reflexivity).
  split; [exact Hseed|]. split; [exact Hr|]. split; [exact Hc|].
  split; [exact Hrow|]. split; [exact Hpos|].
  exact (stratified_split_returns ratio_half 42 (new_splitter scenario 0)
           50 [5; 3]%Z Hseed Hr Hc Hrow Hpos).
Defined.
